(** * Crystal / Grafast: a shallow embedding of selected source units

    The first part embeds units of the repository, the second part states
    and proves properties of them:

    - [PgPolymorphic]: the [PgPolymorphicPlan] step class of [@dataplan/pg]
      ([getTypeNameFromSpecifier], [execute]);
    - [Behavior]: the [Behavior] class of [graphile-build] with
      [parseScope], [parseSpecs] and [scopeMatches];
    - [PgConditionCustomFields]: the source filter of
      [PgConditionCustomFieldsPlugin], a caller of [Behavior.matches];
    - [Middleware]: the [Middlewares] class, [executeMiddleware] and
      [makeNext];
    - [NodeId]: the node id codecs and handlers of an exported schema
      ([pipeStringEncode], [pipeStringDecode], [specForHandler]);
    - [OrderBy]: [applyOrderToPlan] of the same schema;
    - [Mermaid]: the node rendering of [printPlanGraph] ([planId], [pp],
      [mermaidEscape]) and [startSteps];
    - [ExportSubclasses]: the lint rule of that name;
    - [Engine]: the step graph, its deduplication pass and its executor,
      which are not among the source files and are modelled from the
      specification.

    JavaScript exceptions are modelled by a completion type, mutable
    objects by explicit state. *)

From Stdlib Require Import ZArith NArith Ascii String List Lia Bool.
From Stdlib Require Import DecimalString DecimalNat DecimalFacts.
From stdpp Require Import base option list strings gmap pretty.

Local Open Scope string_scope.
Local Open Scope list_scope.
#[local] Set Warnings "-register-all".

(** ** JavaScript values and completions *)

(** The fragment of JavaScript values the embedded units inspect.  Numbers
    are integers plus [NaN], enough to tell truthy from falsy. *)
Inductive JsValue : Type :=
| JsUndefined
| JsNull
| JsBoolean (b : bool)
| JsNumber (n : Z)
| JsNaN
| JsString (s : string)
| JsArray (items : list JsValue)
| JsObject (properties : list (string * JsValue)).

(** [ToBoolean]: what [if (v)] tests. *)
Definition truthy (v : JsValue) : bool :=
  match v with
  | JsUndefined | JsNull | JsNaN => false
  | JsBoolean b => b
  | JsNumber n => negb (n =? 0)%Z
  | JsString s => negb (String.eqb s "")
  | JsArray _ | JsObject _ => true
  end.

(** [v != null] as the specification uses the word: neither [null] nor
    [undefined]. *)
Definition nonNull (v : JsValue) : bool :=
  match v with
  | JsUndefined | JsNull => false
  | _ => true
  end.

(** What a [throw] carries. *)
Inductive JsError : Type :=
| Error (message : string)
| TypeError (message : string).

(** A call either returns or throws. *)
Inductive completion (A : Type) : Type :=
| Returned (a : A)
| Thrown (e : JsError).
Arguments Returned {A} a.
Arguments Thrown {A} e.

Definition isReturned {A} (c : completion A) : bool :=
  match c with Returned _ => true | Thrown _ => false end.

(** ** PgPolymorphicPlan *)

Module PgPolymorphic.

(** Observable events of a call: which [match] predicates were consulted
    and what was written to the console. *)
Inductive Event : Type :=
| MatchCalled (typeName : string) (specifier : JsValue)
| ConsoleError (text : string).

(** Computations that log events and may throw; events logged before a
    throw are kept. *)
Definition M (A : Type) : Type := (list Event * completion A)%type.

Definition trace {A} (m : M A) : list Event := fst m.
Definition outcome {A} (m : M A) : completion A := snd m.

#[export] Instance M_ret : MRet M := fun A a => ([], Returned a).
#[export] Instance M_bind : MBind M := fun A B f m =>
  match m with
  | (l, Returned a) => let '(l', r) := f a in (l ++ l', r)
  | (l, Thrown e) => (l, Thrown e)
  end.

Definition throw {A} (e : JsError) : M A := ([], Thrown e).
Definition emit (ev : Event) : M unit := ([ev], Returned tt).

(** [Array.prototype.map] with a callback that may throw: rows are visited
    left to right and the first throw abandons the whole array. *)
Fixpoint mapM {A B} (f : A → M B) (l : list A) : M (list B) :=
  match l with
  | [] => mret []
  | a :: l' => b ← f a; bs ← mapM f l'; mret (b :: bs)
  end.

(** One entry of a [PgPolymorphicTypeMap].  The [plan] member is used at
    planning time only and is not embedded. *)
Record PgPolymorphicTypeSpec : Type := {
  match_ : JsValue → bool
}.

(** The [possibleTypes] object: its own keys in [Object.keys] order (for
    GraphQL type names, which are never array indices, that is the order
    in which the object literal declares them). *)
Definition PgPolymorphicTypeMap : Type := list (string * PgPolymorphicTypeSpec).

(** Property access [possibleTypes[t]]. *)
Fixpoint getProperty (o : PgPolymorphicTypeMap) (t : string) : option PgPolymorphicTypeSpec :=
  match o with
  | [] => None
  | (k, v) :: o' => if String.eqb k t then Some v else getProperty o' t
  end.

(** [Object.keys(possibleTypes)] *)
Definition Object_keys (o : PgPolymorphicTypeMap) : list string := map fst o.

(** The fields of a [PgPolymorphicPlan] instance. *)
Record PgPolymorphicPlan : Type := {
  itemPlanId : nat;
  typeSpecifierPlanId : nat;
  possibleTypes : PgPolymorphicTypeMap;
  types : list string
}.

(** The constructor.  [addDependency] belongs to [ExecutablePlan]; the two
    indices it hands out are taken as arguments. *)
Definition new_PgPolymorphicPlan (itemDep typeSpecifierDep : nat)
    (possibleTypes : PgPolymorphicTypeMap) : PgPolymorphicPlan :=
  {| itemPlanId := itemDep;
     typeSpecifierPlanId := typeSpecifierDep;
     possibleTypes := possibleTypes;
     types := Object_keys possibleTypes |}.

(** [T] is the first key, in [Object.keys] order, whose [match] accepts the
    specifier. *)
Definition firstAccepting (o : PgPolymorphicTypeMap) (specifier : JsValue)
    (T : string) : Prop :=
  ∃ k spec,
    Object_keys o !! k = Some T ∧
    getProperty o T = Some spec ∧
    match_ spec specifier = true ∧
    ∀ j T' spec', j < k → Object_keys o !! j = Some T' →
      getProperty o T' = Some spec' → match_ spec' specifier = false.

(** No entry of the object accepts the specifier. *)
Definition noneAccepts (o : PgPolymorphicTypeMap) (specifier : JsValue) : Prop :=
  ∀ T spec, getProperty o T = Some spec → match_ spec specifier = false.

Definition cannotDetermine : string :=
  "Could not determine the type to use for this polymorphic value.".

Section WithEnvironment.

(** Imports of the unit that are not part of it: [polymorphicWrap] and the
    type of what it builds (graphile-crystal), [isDev], and Node's
    [util.inspect]. *)
Variable PolymorphicData : Type.
Variable polymorphicWrap : string → PolymorphicData.
Variable isDev : bool.
Variable inspect : JsValue → string.

(** [this.types.find((t) => this.possibleTypes[t].match(specifier))] *)
Fixpoint findType (o : PgPolymorphicTypeMap) (specifier : JsValue)
    (ts : list string) : M (option string) :=
  match ts with
  | [] => mret None
  | t :: ts' =>
      match getProperty o t with
      | None => throw (TypeError "Cannot read properties of undefined (reading 'match')")
      | Some spec =>
          _ ← emit (MatchCalled t specifier);
          if match_ spec specifier then mret (Some t) else findType o specifier ts'
      end
  end.

(** [!t] for the result of [find]: [undefined] and the empty string. *)
Definition notFound (t : option string) : bool :=
  match t with
  | None => true
  | Some s => String.eqb s ""
  end.

(** The [if (!t)] branch: an optional console message, then the throw. *)
Definition noMatchingType {A} (specifier : JsValue) : M A :=
  _ ← (if isDev
       then emit (ConsoleError ("Could not find a type that matched the specifier '"
                                  ++ inspect specifier ++ "'"))
       else mret tt);
  throw (Error cannotDetermine).

Definition getTypeNameFromSpecifier (plan : PgPolymorphicPlan)
    (specifier : JsValue) : M string :=
  t ← findType (possibleTypes plan) specifier (types plan);
  if notFound t then noMatchingType specifier
  else match t with
       | Some name => mret name
       | None => noMatchingType specifier
       end.

(** The callback [execute] maps over the specifiers. *)
Definition executeRow (plan : PgPolymorphicPlan) (specifier : JsValue)
    : M (option PolymorphicData) :=
  if truthy specifier then
    typeName ← getTypeNameFromSpecifier plan specifier;
    mret (Some (polymorphicWrap typeName))
  else mret None.

Definition execute (plan : PgPolymorphicPlan) (values : list (list JsValue))
    : M (list (option PolymorphicData)) :=
  match values !! typeSpecifierPlanId plan with
  | None => throw (TypeError "Cannot read properties of undefined (reading 'map')")
  | Some specifiers => mapM (executeRow plan) specifiers
  end.

End WithEnvironment.

Arguments executeRow {PolymorphicData} polymorphicWrap isDev inspect plan specifier.
Arguments execute {PolymorphicData} polymorphicWrap isDev inspect plan values.

(** The [match] consultations for one specifier, one per type name. *)
Definition matchCalls (specifier : JsValue) (ts : list string) : list Event :=
  (λ t, MatchCalled t specifier) <$> ts.

Definition isMatchCalled (ev : Event) : Prop := ∃ t s, ev = MatchCalled t s.

(** What [getTypeNameFromSpecifier] writes to the console before it
    throws: one message in development mode, nothing otherwise. *)
Definition devLog (isDev : bool) (inspect : JsValue → string) (specifier : JsValue)
    : list Event :=
  if isDev
  then [ConsoleError ("Could not find a type that matched the specifier '"
                        ++ inspect specifier ++ "'")]
  else [].

(** A small instance used to evaluate the definitions: two types told
    apart by a string specifier, [polymorphicWrap] kept symbolic as a tag. *)
Definition acceptsString (expected : string) : PgPolymorphicTypeSpec :=
  {| match_ := λ v, match v with JsString s => String.eqb s expected | _ => false end |}.

Definition examplePossibleTypes : PgPolymorphicTypeMap :=
  [("Person", acceptsString "person"); ("Post", acceptsString "post")].

Definition examplePlan : PgPolymorphicPlan :=
  new_PgPolymorphicPlan 0 1 examplePossibleTypes.

Definition exampleInspect (v : JsValue) : string :=
  match v with JsString s => s | _ => "?" end.

Definition exampleExecute (values : list (list JsValue)) : M (list (option string)) :=
  execute (λ typeName, typeName) false exampleInspect examplePlan values.

End PgPolymorphic.

(** ** Behavior *)

Module Behavior.

(** Strings are sequences of code units; the model covers code units below
    256, one per [ascii]. *)

(** The class [\s] on those code units: tab, line feed, vertical tab, form
    feed, carriage return, space and no-break space. *)
Definition isWhiteSpace (c : ascii) : bool :=
  let n := nat_of_ascii c in
  ((9 <=? n)%nat && (n <=? 13)%nat) || (n =? 32)%nat || (n =? 160)%nat.

(** [s.split(/\s+/)]: the pieces between maximal runs of white space; a
    string that starts or ends with white space (or is empty) yields an
    empty first or last piece.  [inRun] says the previous code unit was
    white space. *)
Fixpoint splitWhiteSpace_from (inRun : bool) (piece : string) (s : string)
    : list string :=
  match s with
  | EmptyString => [piece]
  | String c s' =>
      if isWhiteSpace c then
        if inRun then splitWhiteSpace_from true "" s'
        else piece :: splitWhiteSpace_from true "" s'
      else splitWhiteSpace_from false (piece ++ String c "") s'
  end.

Definition splitWhiteSpace (s : string) : list string :=
  splitWhiteSpace_from false "" s.

(** [s.split(sep)] for a one-character separator. *)
Fixpoint splitOn_from (sep : ascii) (piece : string) (s : string) : list string :=
  match s with
  | EmptyString => [piece]
  | String c s' =>
      if Ascii.eqb c sep then piece :: splitOn_from sep "" s'
      else splitOn_from sep (piece ++ String c "") s'
  end.

Definition splitOn (sep : ascii) (s : string) : list string :=
  splitOn_from sep "" s.

(** [a.join(sep)] *)
Fixpoint join (sep : string) (a : list string) : string :=
  match a with
  | [] => ""
  | [x] => x
  | x :: a' => x ++ sep ++ join sep a'
  end.

(** The fragments of a behavior string that are not empty. *)
Definition nonEmptyFragments (s : string) : list string :=
  filter (λ fragment, fragment ≠ "") (splitWhiteSpace s).

Definition BehaviorScope : Type := list string.

Record BehaviorSpec : Type := {
  positive : bool;
  scope : BehaviorScope
}.

Definition parseScope (scopeString : string) : BehaviorScope :=
  splitOn ":"%char scopeString.

(** One round of the loop of [parseSpecs]. *)
Definition parseSpec (fragment : string) : BehaviorSpec :=
  let '(pm, rest) :=
    match fragment with
    | String c rest =>
        if Ascii.eqb c "+"%char || Ascii.eqb c "-"%char
        then (String c "", rest)
        else ("+", fragment)
    | EmptyString => ("+", fragment)
    end in
  {| positive := String.eqb pm "+"; scope := parseScope rest |}.

Definition parseSpecs (behaviorSpecsString : string) : list BehaviorSpec :=
  map parseSpec (splitWhiteSpace behaviorSpecsString).

(** The body of the [for] loop of [scopeMatches], from index [i] on:
    [rules] and [filters] are what is left of [specifiedScope] and
    [filterScopeTrimmed]. *)
Fixpoint scopeMatches_loop (rules filters : list string) (positive : bool) : bool :=
  match filters with
  | [] => true
  | filter :: filters' =>
      let rule := head rules in
      let ruleIsStar := bool_decide (rule = Some "*") in
      let filterIsStar := String.eqb filter "*" in
      if filterIsStar && negb ruleIsStar && negb positive then false
      else if ruleIsStar || filterIsStar then
        scopeMatches_loop (tail rules) filters' positive
      else if negb (bool_decide (rule = Some filter)) then false
      else scopeMatches_loop (tail rules) filters' positive
  end.

Definition scopeMatches (specifiedScope filterScope : BehaviorScope)
    (positive : bool) : bool :=
  if (length filterScope <? length specifiedScope)%nat then false
  else
    let filterScopeTrimmed :=
      if (length specifiedScope =? length filterScope)%nat then filterScope
      else drop (length filterScope - length specifiedScope) filterScope in
    scopeMatches_loop specifiedScope filterScopeTrimmed positive.

(** The state of a [Behavior] instance. *)
Record Behavior : Type := {
  globalBehaviorDefaults : string
}.

Definition new_Behavior : Behavior := {| globalBehaviorDefaults := "" |}.

Definition addDefaultBehavior (self : Behavior) (behavior : string) : Behavior :=
  if negb (String.eqb (globalBehaviorDefaults self) "")
  then {| globalBehaviorDefaults := globalBehaviorDefaults self ++ " " ++ behavior |}
  else {| globalBehaviorDefaults := behavior |}.

(** The first argument of [matches]: [string | string[] | null | undefined]. *)
Inductive LocalBehaviorSpecs : Type :=
| SpecsString (s : string)
| SpecsArray (a : list string)
| SpecsNull
| SpecsUndefined.

(** [specString ?? ""] after the [Array.isArray] test. *)
Definition specStringOrEmpty (l : LocalBehaviorSpecs) : string :=
  match l with
  | SpecsString s => s
  | SpecsArray a => join " " a
  | SpecsNull | SpecsUndefined => ""
  end.

Definition finalBehaviorSpecsString (self : Behavior)
    (localBehaviorSpecsString : LocalBehaviorSpecs) (defaultBehavior : string)
    : string :=
  defaultBehavior ++ " " ++ globalBehaviorDefaults self ++ " "
    ++ specStringOrEmpty localBehaviorSpecsString.

(** The backwards loop of [matches] over the specs not yet visited, last
    one first. *)
Fixpoint matches_loop (specsFromLast : list BehaviorSpec)
    (filterScope : BehaviorScope) : option bool :=
  match specsFromLast with
  | [] => None
  | spec :: earlier =>
      if scopeMatches (scope spec) filterScope (positive spec)
      then Some (positive spec)
      else matches_loop earlier filterScope
  end.

(** [matches]; [None] is [undefined].  The default value of
    [defaultBehavior] is the empty string. *)
Definition matches (self : Behavior)
    (localBehaviorSpecsString : LocalBehaviorSpecs) (filter : string)
    (defaultBehavior : string) : option bool :=
  let specs := parseSpecs (finalBehaviorSpecsString self localBehaviorSpecsString
                             defaultBehavior) in
  let filterScope := parseScope filter in
  matches_loop (reverse specs) filterScope.

(** The spec at index [i] matches the filter scope and no later one does. *)
Definition lastMatchAt (specs : list BehaviorSpec) (filterScope : BehaviorScope)
    (i : nat) (spec : BehaviorSpec) : Prop :=
  specs !! i = Some spec ∧
  scopeMatches (scope spec) filterScope (positive spec) = true ∧
  ∀ j spec', i < j → specs !! j = Some spec' →
    scopeMatches (scope spec') filterScope (positive spec') = false.

End Behavior.

(** ** PgConditionCustomFieldsPlugin *)

Module PgConditionCustomFields.
Import Behavior.

(** What the hook reads of a codec.  [codecRef] stands for the identity of
    the codec object, which is what [!==] compares; the three flags say
    whether [columns], [arrayOfCodec] and [rangeOfCodec] are set. *)
Record PgTypeCodec : Type := {
  codecRef : nat;
  hasColumns : bool;
  hasArrayOfCodec : bool;
  hasRangeOfCodec : bool;
  isAnonymous : bool
}.

Record PgSourceParameter : Type := {
  required : bool;
  parameterCodec : PgTypeCodec
}.

(** A source; [parameters] is [None] when the property is [undefined]. *)
Record PgSource : Type := {
  codec : PgTypeCodec;
  parameters : option (list PgSourceParameter);
  isUnique : bool
}.

(** The guard at the top of the hook: the fields are returned untouched
    unless it holds. *)
Definition hookApplies (isPgCondition : bool) (pgCodec : option PgTypeCodec) : bool :=
  isPgCondition &&
  match pgCodec with
  | Some c => hasColumns c && negb (isAnonymous c)
  | None => false
  end.

Section WithBuild.

(** [getBehavior] is imported from [../behavior.js]; it is applied to the
    extensions of the source and of its codec. *)
Variable getBehavior : PgSource → LocalBehaviorSpecs.

(** The callback given to [filter]; [undefined] from [matches] counts as
    [false]. *)
Definition isFunctionSource (behavior : Behavior) (pgCodec : PgTypeCodec)
    (source : PgSource) : bool :=
  if hasColumns (codec source) then false
  else if hasArrayOfCodec (codec source) then false
  else if hasRangeOfCodec (codec source) then false
  else
    match parameters source with
    | None => false
    | Some parameters =>
        if (length parameters <? 1)%nat then false
        else if existsb (λ b : bool, b)
                  (imap (λ i p, (0 <? i)%nat && required p) parameters)
        then false
        else
          match parameters !! 0%nat with
          | None => false
          | Some first =>
              if negb (codecRef (parameterCodec first) =? codecRef pgCodec)%nat then false
              else if negb (isUnique source) then false
              else default false
                     (matches behavior (getBehavior source) "proc:filterBy" "-proc:filterBy")
          end
    end.

(** [functionSources] *)
Definition functionSources (behavior : Behavior) (pgCodec : PgTypeCodec)
    (pgSources : list PgSource) : list PgSource :=
  List.filter (isFunctionSource behavior pgCodec) pgSources.

End WithBuild.

(** A table codec and a unique function that takes a row of the table
    and returns a scalar. *)
Definition exampleTableCodec : PgTypeCodec :=
  {| codecRef := 1; hasColumns := true; hasArrayOfCodec := false;
     hasRangeOfCodec := false; isAnonymous := false |}.

Definition exampleScalarCodec : PgTypeCodec :=
  {| codecRef := 2; hasColumns := false; hasArrayOfCodec := false;
     hasRangeOfCodec := false; isAnonymous := false |}.

Definition exampleFunctionSource : PgSource :=
  {| codec := exampleScalarCodec;
     parameters := Some [{| required := true; parameterCodec := exampleTableCodec |}];
     isUnique := true |}.

End PgConditionCustomFields.

(** ** Middlewares *)

Module Middleware.

(** Each [makeNext] call owns one mutable [called] variable; the store
    holds them in allocation order. *)
Definition Store : Type := list bool.

(** Computations over the store that may throw; a throw keeps the store
    reached so far. *)
Definition MW (A : Type) : Type := Store → completion A * Store.

#[export] Instance MW_ret : MRet MW := λ A a st, (Returned a, st).
#[export] Instance MW_bind : MBind MW := λ A B f m st,
  match m st with
  | (Returned a, st') => f a st'
  | (Thrown e, st') => (Thrown e, st')
  end.

Definition throwMW {A} (e : JsError) : MW A := λ st, (Thrown e, st).

Definition alreadyCalled : string :=
  "next() was already called; don't call it twice!".

(** The message of the error [executeMiddleware] throws. *)
Definition synchronousActivityMessage (activityName : string) (idx : Z) : string :=
  "'" ++ activityName
      ++ "' is a synchronous activity, all middlewares must be synchronous but the middleware at index "
      ++ pretty idx ++ " returned a promise.".

Section WithValues.

(** The values activities produce and the argument they take.
    [isPromiseLike] comes from [utils.js]; [promiseThen p onResult onError]
    is the promise [p.then(onResult, onError)] returns, whose handlers run
    after the synchronous call is over. *)
Variable Value Arg : Type.
Variable isPromiseLike : Value → bool.
Variable promiseThen : Value → (Value → MW Value) → (JsError → MW Value) → Value.

(** The argument object of the callback given to [next.callback]. *)
Inductive CallbackParams : Type :=
| ErrorParams (error : JsError)
| ResultParams (result : Value).

(** A [MiddlewareNext]: the function itself and its [callback] property. *)
Record MiddlewareNext : Type := {
  call : MW Value;
  callback : (CallbackParams → MW Value) → MW Value
}.

Definition RealActivityFn : Type := MiddlewareNext → Arg → MW Value.

Definition makeNext (fn : MW Value) : MW MiddlewareNext := λ st,
  let called := length st in
  (Returned
     {| call := fn;
        callback := λ callback st1,
          if default false (st1 !! called) then throwMW (Error alreadyCalled) st1
          else
            let st2 := <[called := true]> st1 in
            match fn st2 with
            | (Thrown error, st3) => callback (ErrorParams error) st3
            | (Returned result, st3) =>
                if isPromiseLike result then
                  (Returned (promiseThen result
                               (λ result, callback (ResultParams result))
                               (λ error, callback (ErrorParams error))), st3)
                else callback (ResultParams result) st3
            end |},
   st ++ [false]).

(** What the frame of [executeMiddleware] at [idx] does with the result of
    the middleware it invokes. *)
Definition checked (activityName : string) (allowAsync : bool) (idx : Z)
    (r : completion Value * Store) : completion Value * Store :=
  match r with
  | (Returned result, st) =>
      if negb allowAsync && isPromiseLike result
      then (Thrown (Error (synchronousActivityMessage activityName idx)), st)
      else (Returned result, st)
  | (Thrown e, st) => (Thrown e, st)
  end.

(** The [next] a frame hands to its middleware. *)
Definition nextOf (st : Store) (fn : MW Value) : MiddlewareNext :=
  match makeNext fn st with
  | (Returned next, _) => next
  | (Thrown _, _) => {| call := fn; callback := λ _, fn |}
  end.

(** [executeMiddleware] at index [idx], with [rest] the middlewares from
    that index on ([middlewares[idx]] is the head of [rest], [undefined]
    when [rest] is empty). *)
Fixpoint executeMiddleware_from (activityName : string) (allowAsync : bool)
    (activity : Arg → MW Value) (arg : Arg) (maxIdx : Z)
    (rest : list RealActivityFn) (idx : Z) : MW Value :=
  match rest with
  | [] =>
      (* [next] is built but never called: calling [undefined] throws. *)
      _ ← makeNext (activity arg);
      throwMW (TypeError "middleware is not a function")
  | middleware :: rest' =>
      next ← makeNext
               (if (idx =? maxIdx)%Z then activity arg
                else executeMiddleware_from activityName allowAsync activity arg
                       maxIdx rest' (idx + 1));
      result ← middleware next arg;
      if negb allowAsync && isPromiseLike result then
        throwMW (Error (synchronousActivityMessage activityName idx))
      else mret result
  end.

Definition executeMiddleware (activityName : string) (allowAsync : bool)
    (middlewares : list RealActivityFn) (activity : Arg → MW Value) (arg : Arg)
    (idx maxIdx : Z) : MW Value :=
  executeMiddleware_from activityName allowAsync activity arg maxIdx
    (drop (Z.to_nat idx) middlewares) idx.

(** The [middlewares] object of a [Middlewares] instance. *)
Definition Middlewares : Type := gmap string (list RealActivityFn).

Definition new_Middlewares : Middlewares := ∅.

Definition register (self : Middlewares) (event : string) (fn : RealActivityFn)
    : Middlewares :=
  match self !! event with
  | Some list => <[event := list ++ [fn]]> self
  | None => <[event := [fn]]> self
  end.

Definition run (self : Middlewares) (activityName : string) (arg : Arg)
    (activity : Arg → MW Value) : MW Value :=
  match self !! activityName with
  | None => activity arg
  | Some middlewares =>
      let m := (Z.of_nat (length middlewares) - 1)%Z in
      executeMiddleware activityName true middlewares activity arg 0 m
  end.

Definition runSync (self : Middlewares) (activityName : string) (arg : Arg)
    (activity : Arg → MW Value) : MW Value :=
  match self !! activityName with
  | None => activity arg
  | Some middlewares =>
      let m := (Z.of_nat (length middlewares) - 1)%Z in
      executeMiddleware activityName false middlewares activity arg 0 m
  end.

End WithValues.

Arguments ErrorParams {Value} error.
Arguments ResultParams {Value} result.
Arguments call {Value} m.
Arguments callback {Value} m.
Arguments makeNext {Value} isPromiseLike promiseThen fn.
Arguments checked {Value} isPromiseLike activityName allowAsync idx r.
Arguments nextOf {Value} isPromiseLike promiseThen st fn.
Arguments executeMiddleware {Value Arg} isPromiseLike promiseThen activityName
  allowAsync middlewares activity arg idx maxIdx.
Arguments executeMiddleware_from {Value Arg} isPromiseLike promiseThen activityName
  allowAsync activity arg maxIdx rest idx.
Arguments new_Middlewares {Value Arg}.
Arguments register {Value Arg} self event fn.
Arguments run {Value Arg} isPromiseLike promiseThen self activityName arg activity.
Arguments runSync {Value Arg} isPromiseLike promiseThen self activityName arg activity.

Section Registration.

Context {Value Arg : Type}.

(** A sequence of [register] calls, oldest first. *)
Definition registerAll (self : Middlewares Value Arg)
    (registrations : list (string * RealActivityFn Value Arg)) : Middlewares Value Arg :=
  foldl (λ self r, register self r.1 r.2) self registrations.

(** The functions a sequence of registrations holds for one event. *)
Definition registeredFor (event : string)
    (registrations : list (string * RealActivityFn Value Arg))
    : list (RealActivityFn Value Arg) :=
  (filter (λ r, r.1 = event) registrations).*2.

(** A middleware that does nothing but return [next()]. *)
Definition passesThrough (middleware : RealActivityFn Value Arg) : Prop :=
  ∀ next arg st, middleware next arg st = call next st.

(** The computation never clears the [called] variable in cell [i]. *)
Definition keepsCalled {A} (i : nat) (m : MW A) : Prop :=
  ∀ st, st !! i = Some true → (m st).2 !! i = Some true.

End Registration.

(** A small universe of values to evaluate the definitions on: plain
    numbers and promises of numbers. *)
Inductive ExampleValue : Type :=
| Plain (n : nat)
| Promise (n : nat).

Definition exampleIsPromiseLike (v : ExampleValue) : bool :=
  match v with Promise _ => true | Plain _ => false end.

(** [then] on a promise of a number: the handlers are not run here. *)
Definition examplePromiseThen (p : ExampleValue)
    (onResult : ExampleValue → MW ExampleValue)
    (onError : JsError → MW ExampleValue) : ExampleValue :=
  match p with Promise n => Promise n | Plain n => Promise n end.

(** A middleware that passes on what [next()] returns. *)
Definition passThrough : RealActivityFn ExampleValue unit :=
  λ next _, call next.

(** A middleware that ignores [next] and returns a promise. *)
Definition returnsPromise : RealActivityFn ExampleValue unit :=
  λ _ _, mret (Promise 7).

(** A middleware that swallows whatever [next] throws, through
    [next.callback]. *)
Definition swallowsErrors : RealActivityFn ExampleValue unit :=
  λ next _, callback next (λ params,
    match params with
    | ErrorParams _ => mret (Plain 0)
    | ResultParams v => mret v
    end).

(** [runSync] of the activity named [validate] from an empty store. *)
Definition exampleRunSync (self : Middlewares ExampleValue unit)
    (activity : unit → MW ExampleValue) : completion ExampleValue * Store :=
  runSync exampleIsPromiseLike examplePromiseThen self "validate" tt activity [].

End Middleware.

(** ** Node id codecs and handlers *)

Module NodeId.
Import Behavior.

(** Strings are those of [Behavior]: one [ascii] per code unit below 256;
    [split] and [join] are the functions embedded there. *)

#[export] Instance completion_ret : MRet completion := λ A a, Returned a.
#[export] Instance completion_bind : MBind completion := λ A B f c,
  match c with
  | Returned a => f a
  | Thrown e => Thrown e
  end.

(** [try { body } catch { }] followed by [return fallback]: what [body]
    returns is returned, a throw of [body] is swallowed. *)
Definition tryCatchIgnore {A} (body : completion (option A)) (fallback : A)
    : completion A :=
  match body with
  | Returned (Some a) => Returned a
  | Returned None | Thrown _ => Returned fallback
  end.

(** [obj[0]]: reading from [null] or [undefined] throws; a string gives
    its first code unit, an array its first element, an object its
    property [0], any other primitive [undefined]. *)
Definition getIndex0 (obj : JsValue) : completion JsValue :=
  match obj with
  | JsNull => Thrown (TypeError "Cannot read properties of null (reading '0')")
  | JsUndefined => Thrown (TypeError "Cannot read properties of undefined (reading '0')")
  | JsString (String c _) => Returned (JsString (String c ""))
  | JsString EmptyString => Returned JsUndefined
  | JsArray items => Returned (default JsUndefined (head items))
  | JsObject properties =>
      Returned (default JsUndefined (snd <$> List.find (λ p, String.eqb p.1 "0") properties))
  | JsBoolean _ | JsNumber _ | JsNaN => Returned JsUndefined
  end.

(** [v === s] for a string literal [s]. *)
Definition strictEqualsString (v : JsValue) (s : string) : bool :=
  match v with
  | JsString s' => String.eqb s' s
  | _ => false
  end.

(** A node id codec. *)
Record NodeIdCodec : Type := {
  name : string;
  encode : JsValue → completion JsValue;
  decode : JsValue → completion JsValue
}.

(** What [specForHandler] reads of a node id handler; [plan], [getSpec]
    and [get] build steps and are not embedded. *)
Record NodeIdHandler : Type := {
  typeName : string;
  codec : NodeIdCodec;
  match_ : JsValue → completion bool
}.

(** The [raw] codec of the [Query] handler: [encode] and [decode] are the
    same function. *)
Definition rawCodec_encode (value : JsValue) : JsValue :=
  match value with
  | JsString _ => value
  | _ => JsNull
  end.

Definition rawCodec : NodeIdCodec :=
  {| name := "raw";
     encode := λ value, Returned (rawCodec_encode value);
     decode := λ value, Returned (rawCodec_encode value) |}.

Definition handler : NodeIdHandler :=
  {| typeName := "Query";
     codec := rawCodec;
     match_ := λ specifier, Returned (strictEqualsString specifier "query") |}.

Section Codecs.

(** [String(v)] for the array elements [join] has to convert, that is all
    but strings, [null] and [undefined]. *)
Variable ToString : JsValue → string.

(** [base64JSONEncode] and [base64JSONDecode] rest on [Buffer] and [JSON]. *)
Variable base64JSONEncode base64JSONDecode : JsValue → completion JsValue.

(** What [Array.prototype.join] makes of one element. *)
Definition elementString (v : JsValue) : string :=
  match v with
  | JsString s => s
  | JsNull | JsUndefined => ""
  | _ => ToString v
  end.

Definition pipeStringDecode (value : JsValue) : JsValue :=
  match value with
  | JsString s => JsArray (JsString <$> splitOn "|"%char s)
  | _ => JsNull
  end.

Definition pipeStringEncode (value : JsValue) : JsValue :=
  match value with
  | JsArray items => JsString (join "|" (elementString <$> items))
  | _ => JsNull
  end.

Definition nodeIdCodecs_base64JSON_base64JSON : NodeIdCodec :=
  {| name := "base64JSON"; encode := base64JSONEncode; decode := base64JSONDecode |}.

Definition pipeStringCodec : NodeIdCodec :=
  {| name := "pipeString";
     encode := λ value, Returned (pipeStringEncode value);
     decode := λ value, Returned (pipeStringDecode value) |}.

(** [nodeIdCodecs], an object without prototype. *)
Definition nodeIdCodecs : list (string * NodeIdCodec) :=
  [("raw", rawCodec);
   ("base64JSON", nodeIdCodecs_base64JSON_base64JSON);
   ("pipeString", pipeStringCodec)].

(** [nodeIdHandlerByTypeName.Network] *)
Definition networkHandler : NodeIdHandler :=
  {| typeName := "Network";
     codec := nodeIdCodecs_base64JSON_base64JSON;
     match_ := λ obj, first ← getIndex0 obj; mret (strictEqualsString first "networks") |}.

(** The function [specForHandler(handler)] returns. *)
Definition specForHandler (handler : NodeIdHandler) (nodeId : JsValue)
    : completion JsValue :=
  tryCatchIgnore
    (specifier ← decode (codec handler) nodeId;
     matched ← match_ handler specifier;
     mret (if matched : bool then Some specifier else None))
    JsNull.

End Codecs.

(** A decoder that knows one node id, the one of network 1, and throws on
    anything else. *)
Definition exampleBase64JSONDecode (value : JsValue) : completion JsValue :=
  match value with
  | JsString "WyJuZXR3b3JrcyIsMV0=" => Returned (JsArray [JsString "networks"; JsNumber 1])
  | _ => Thrown (Error "Unexpected token in JSON")
  end.

End NodeId.

(** ** Ordering a connection *)

Module OrderBy.

(** What [applyOrderToPlan] can throw: an error of the language or of a
    plan, or a [SafeError] of [grafast]. *)
Inductive Failure : Type :=
| JsFailure (e : JsError)
| SafeError (message : string).

Section WithSchema.

(** The step [$select] stands for, as a value that the plans transform. *)
Variable Select : Type.

(** A value that passes [typeof plan === "function"], applied to the step:
    the step as the call leaves it, and the error it throws if it does. *)
Definition ApplyPlan : Type := Select → Select * option JsError.

(** [getEnumValueConfig(TableOrderByType, order)?.extensions?.grafast?.applyPlan]
    for one element of the value: the function found there, or, when what
    is found is not a function, the text [inspect] gives for it. *)
Variable applyPlanOf : JsValue → string + ApplyPlan.

(** The outcome of a call: what was written to the console, the step as
    the call leaves it, and what was thrown, if anything. *)
Record Outcome : Type := {
  console : list string;
  selectAfter : Select;
  thrown : option Failure
}.

Definition invalidConfiguration (inspected : string) : string :=
  "Internal server error: invalid orderBy configuration: expected function, but received "
    ++ inspected.

(** The [forEach] loop over what is left of the array. *)
Fixpoint applyOrders (orders : list JsValue) (select : Select) : Outcome :=
  match orders with
  | [] => {| console := []; selectAfter := select; thrown := None |}
  | order :: orders' =>
      match applyPlanOf order with
      | inl inspected =>
          {| console := [invalidConfiguration inspected];
             selectAfter := select;
             thrown := Some (SafeError "Internal server error: invalid orderBy configuration") |}
      | inr plan =>
          match plan select with
          | (select', None) => applyOrders orders' select'
          | (select', Some e) =>
              {| console := []; selectAfter := select'; thrown := Some (JsFailure e) |}
          end
      end
  end.

(** [applyOrderToPlan], given what [$value.eval()] returns. *)
Definition applyOrderToPlan (select : Select) (val : JsValue) : Outcome :=
  match val with
  | JsNull | JsUndefined => {| console := []; selectAfter := select; thrown := None |}
  | JsArray orders => applyOrders orders select
  | _ => {| console := []; selectAfter := select;
            thrown := Some (JsFailure (Error "Invalid!")) |}
  end.

(** Plans applied one after the other, up to the first that throws. *)
Fixpoint applyAll (plans : list ApplyPlan) (select : Select) : Select * option JsError :=
  match plans with
  | [] => (select, None)
  | plan :: plans' =>
      match plan select with
      | (select', None) => applyAll plans' select'
      | (select', Some e) => (select', Some e)
      end
  end.

End WithSchema.

Arguments console {Select} o.
Arguments selectAfter {Select} o.
Arguments thrown {Select} o.
Arguments applyOrders {Select} applyPlanOf orders select.
Arguments applyOrderToPlan {Select} applyPlanOf select val.
Arguments applyAll {Select} plans select.

(** Orders over a step that records the names of the orders applied to
    it; only [ID_ASC] and [ID_DESC] are configured. *)
Definition exampleApplyPlanOf (order : JsValue) : string + ApplyPlan (list string) :=
  match order with
  | JsString "ID_ASC" => inr (λ select, (select ++ ["id ASC"], None))
  | JsString "ID_DESC" => inr (λ select, (select ++ ["id DESC"], None))
  | _ => inl "undefined"
  end.

End OrderBy.

(** ** Mermaid rendering of step nodes *)

Module Mermaid.

(** The rendering uses characters outside Latin-1 and counts code units
    ([length], [slice]), so strings are lists of UTF-16 code units here. *)
Definition JsString : Type := list N.

(** An ASCII literal as a string. *)
Fixpoint str (s : string) : JsString :=
  match s with
  | EmptyString => []
  | String c s' => N_of_ascii c :: str s'
  end.

(** [`${n}`] for a non-negative integer. *)
Definition decimal (n : nat) : JsString :=
  str (NilEmpty.string_of_uint (Nat.to_uint n)).

(** [a.join(sep)] *)
Fixpoint join (sep : JsString) (a : list JsString) : JsString :=
  match a with
  | [] => []
  | [x] => x
  | x :: a' => x ++ sep ++ join sep a'
  end.

(** The class [[a-z0-9 ]] under the [i] flag. *)
Definition isAlnumOrSpace (c : N) : bool :=
  ((48 <=? c) && (c <=? 57) || (65 <=? c) && (c <=? 90)
   || (97 <=? c) && (c <=? 122) || (c =? 32))%N.

(** [/^[a-z0-9 ]+$/i.test(s)] *)
Definition isPlain (s : JsString) : bool :=
  match s with
  | [] => false
  | _ => forallb isAlnumOrSpace s
  end.

(** White space and line terminators, as [trim] removes them. *)
Definition isTrimmed (c : N) : bool :=
  ((9 <=? c) && (c <=? 13) || (c =? 32) || (c =? 160) || (c =? 5760)
   || (8192 <=? c) && (c <=? 8202) || (c =? 8232) || (c =? 8233)
   || (c =? 8239) || (c =? 8287) || (c =? 12288) || (c =? 65279))%N.

Fixpoint trimStart (s : JsString) : JsString :=
  match s with
  | [] => []
  | c :: s' => if isTrimmed c then trimStart s' else s
  end.

Definition trimEnd (s : JsString) : JsString := reverse (trimStart (reverse s)).

Definition trim (s : JsString) : JsString := trimEnd (trimStart s).

(** The look-alike of one of the four characters the first [replace] of
    [mermaidEscape] targets (hash, double quote, less-than, greater-than);
    [None] for any other character. *)
Definition lookAlike (c : N) : option N :=
  if (c =? 35)%N then Some 42395%N        (* # *)
  else if (c =? 34)%N then Some 8221%N    (* double quote *)
  else if (c =? 60)%N then Some 5176%N    (* < *)
  else if (c =? 62)%N then Some 5171%N    (* > *)
  else None.

(** The first [replace] of [mermaidEscape]: every such character becomes
    its look-alike. *)
Definition replaceSpecial (s : JsString) : JsString :=
  map (λ c, default c (lookAlike c)) s.

(** The second [replace]: every line break, with the carriage return
    before it if there is one, becomes a [br] tag. *)
Fixpoint replaceNewlines (s : JsString) : JsString :=
  match s with
  | [] => []
  | c :: s' =>
      if (c =? 10)%N then str "<br />" ++ replaceNewlines s'
      else if (c =? 13)%N then
        match s' with
        | c' :: s'' =>
            if (c' =? 10)%N then str "<br />" ++ replaceNewlines s''
            else c :: replaceNewlines s'
        | [] => [c]
        end
      else c :: replaceNewlines s'
  end.

Definition quote : JsString := [34%N].

(** [.replace(/Step$/, "")] *)
Definition dropStepSuffix (name : JsString) : JsString :=
  let n := (length name - 4)%nat in
  if bool_decide ((4 ≤ length name)%nat ∧ drop n name = str "Step")
  then take n name else name.

(** [squish(str)] with [start = 8] and [end = 8]. *)
Definition squish (s : JsString) : JsString :=
  if (8 + 8 + 4 <? length s)%nat
  then take 8 s ++ str "..." ++ drop (length s - 8) s
  else s.

(** [pp]: a [Set] is the list of its elements in insertion order. *)
Definition pp (polymorphicPaths : list JsString) : JsString :=
  if bool_decide (polymorphicPaths = [[]]) then []
  else join (str (String "010" "")) polymorphicPaths.

(** What [planId] reads of a step.  [toStringMeta] is the value the method
    returns ([None] for [null] and [undefined]); [isItemStep] is
    [plan instanceof __ItemStep]; [hasUnbatchedExecute] is
    [typeof plan.unbatchedExecute === "function"]. *)
Inductive ExecutableStep : Type := mkStep {
  id : nat;
  constructorName : JsString;
  toStringMeta : option JsString;
  hasUnbatchedExecute : bool;
  polymorphicPaths : list JsString;
  dependencies : list ExecutableStep;
  layerPlanId : nat;
  isItemStep : bool;
  isSyncAndSafe : bool;
  hasSideEffects : bool
}.

(** [needle] occurs in [s]. *)
Definition occursIn (needle s : JsString) : Prop :=
  ∃ pre post, s = pre ++ needle ++ post.

(** Characters that [trim] keeps and neither [replace] touches. *)
Definition inert (c : N) : Prop :=
  isTrimmed c = false ∧ lookAlike c = None ∧ c ≠ 10%N ∧ c ≠ 13%N.

(** The bracketed pair of numbers every label carries. *)
Definition idAndLayerPlan (plan : ExecutableStep) : JsString :=
  str "[" ++ decimal (id plan) ++ [8712%N] ++ decimal (layerPlanId plan) ++ str "]".

(** The polymorphic paths are left out of the label exactly in this
    case. *)
Definition pathsSuppressed (plan : ExecutableStep) : Prop :=
  ∃ dep, dependencies plan = [dep] ∧
         pp (polymorphicPaths dep) = pp (polymorphicPaths plan).

Section WithStripAnsi.

(** [stripAnsi] is imported from [./stripAnsi.js]. *)
Variable stripAnsi : JsString → JsString.

Definition mermaidEscape (s : JsString) : JsString :=
  if isPlain s then s
  else quote ++ replaceNewlines (replaceSpecial (stripAnsi (trim s))) ++ quote.

Definition planName (plan : ExecutableStep) : JsString :=
  dropStepSuffix (constructorName plan).

Definition planNode (plan : ExecutableStep) : JsString :=
  planName plan ++ decimal (id plan).

(** [meta]: [None] is [null]. *)
Definition planMeta (concise : bool) (plan : ExecutableStep) : option JsString :=
  let strippedMeta := stripAnsi <$> toStringMeta plan in
  match strippedMeta with
  | Some m => if concise && negb (bool_decide (m = [])) then Some (squish m) else Some m
  | None => None
  end.

Definition polyPathsIfDifferent (plan : ExecutableStep) : JsString :=
  let polyPaths := pp (polymorphicPaths plan) in
  match dependencies plan with
  | [dep] =>
      if bool_decide (pp (polymorphicPaths dep) = polyPaths) then []
      else str (String "010" "") ++ polyPaths
  | _ => str (String "010" "") ++ polyPaths
  end.

Definition planString (concise : bool) (plan : ExecutableStep) : JsString :=
  planName plan ++ str "[" ++ decimal (id plan) ++ [8712%N]
    ++ decimal (layerPlanId plan) ++ str "]"
    ++ match planMeta concise plan with
       | Some m => if bool_decide (m = []) then []
                   else str (String "010" "<") ++ m ++ str ">"
       | None => []
       end
    ++ polyPathsIfDifferent plan.

Definition planBraces (plan : ExecutableStep) : JsString * JsString :=
  if isItemStep plan then (str "[/", str "\]")
  else if isSyncAndSafe plan then
    if hasUnbatchedExecute plan then (str "{{", str "}}")
    else (str "[", str "]")
  else (str "[[", str "]]").

Definition planClass (plan : ExecutableStep) : JsString :=
  if hasSideEffects plan then str "sideeffectplan"
  else if isItemStep plan then str "itemplan"
  else if hasUnbatchedExecute plan && negb (isSyncAndSafe plan) then str "unbatchedplan"
  else str "plan".

(** The line [planId] pushes for a step it has not seen. *)
Definition planNodeLine (concise : bool) (plan : ExecutableStep) : JsString :=
  str "    " ++ planNode plan ++ (planBraces plan).1
    ++ mermaidEscape (planString concise plan)
    ++ (planBraces plan).2 ++ str ":::" ++ planClass plan.

(** The two objects [planId] closes over: the [graph] array and
    [planIdMap]. *)
Record Rendering : Type := {
  graph : list JsString;
  planIdMap : gmap nat JsString
}.

(** [planId]: the node name of the step and the state after the call. *)
Definition planId (concise : bool) (plan : ExecutableStep) (r : Rendering)
    : JsString * Rendering :=
  match planIdMap r !! id plan with
  | Some (c :: node) => (c :: node, r)
  | _ =>
      (planNode plan,
       {| graph := graph r ++ [planNodeLine concise plan];
          planIdMap := <[id plan := planNode plan]> (planIdMap r) |})
  end.

End WithStripAnsi.

Section Sequences.

Variable stripAnsi : JsString → JsString.

(** [.map(planId)] over a list of steps, as the dependency and bucket
    sections of [printPlanGraph] do it. *)
Fixpoint planIds (concise : bool) (plans : list ExecutableStep) (r : Rendering)
    : list JsString * Rendering :=
  match plans with
  | [] => ([], r)
  | plan :: plans' =>
      let '(node, r1) := planId stripAnsi concise plan r in
      let '(nodes, r2) := planIds concise plans' r1 in
      (node :: nodes, r2)
  end.

End Sequences.

(** The steps of a list whose id is neither in [seen] nor carried by an
    earlier step of the list. *)
Fixpoint unseen (seen : list nat) (plans : list ExecutableStep) : list ExecutableStep :=
  match plans with
  | [] => []
  | plan :: plans' =>
      if bool_decide (id plan ∈ seen) then unseen seen plans'
      else plan :: unseen (id plan :: seen) plans'
  end.

(** [shortStep]: [constructorName] being a string here, the fallback for a
    constructor without a name does not arise. *)
Definition shortStep (step : ExecutableStep) : JsString :=
  dropStepSuffix (constructorName step) ++ str "[" ++ decimal (id step) ++ str "]".

(** [shortSteps]; [None] is [undefined]. *)
Definition shortSteps (steps : option (list ExecutableStep)) : JsString :=
  match steps with
  | None => []
  | Some steps =>
      let s := join (str ", ") (shortStep <$> steps) in
      if (length s <? 40)%nat then s
      else join (str ", ") ((λ step, decimal (id step)) <$> steps)
  end.

(** What [startSteps] reads of a phase of a layer plan. *)
Record LayerPlanPhase : Type := {
  normalSteps : option (list ExecutableStep);
  unbatchedSyncAndSafeSteps : option (list ExecutableStep)
}.

(** [startSteps], given [layerPlan.phases]. *)
Definition startSteps (phases : list LayerPlanPhase) : JsString :=
  if (length phases =? 1)%nat then []
  else
    [10%N] ++
    join [10%N]
      (imap (λ i phase,
               decimal (i + 1) ++ str ": " ++ shortSteps (normalSteps phase)
                 ++ match unbatchedSyncAndSafeSteps phase with
                    | Some steps => [10%N] ++ str ">: " ++ shortSteps (Some steps)
                    | None => []
                    end)
            phases).

(** Steps to evaluate the rendering on. *)
Definition exampleStep (ident : nat) (name : string) (paths : list string)
    (deps : list ExecutableStep) (layerPlan : nat) (syncAndSafe : bool)
    : ExecutableStep :=
  {| id := ident; constructorName := str name; toStringMeta := None;
     hasUnbatchedExecute := false; polymorphicPaths := map str paths;
     dependencies := deps; layerPlanId := layerPlan; isItemStep := false;
     isSyncAndSafe := syncAndSafe; hasSideEffects := false |}.

(** Two steps that differ in nothing but their polymorphic paths. *)
Definition userStep : ExecutableStep :=
  exampleStep 2 "AccessStep" ["User"] [exampleStep 1 "PgSelectStep" ["User"] [] 0 false] 3 true.
Definition postStep : ExecutableStep :=
  exampleStep 2 "AccessStep" ["Post"] [exampleStep 1 "PgSelectStep" ["Post"] [] 0 false] 3 true.

(** A step whose meta is longer than 20 code units. *)
Definition metaStep : ExecutableStep :=
  {| id := 7; constructorName := str "PgSelectStep";
     toStringMeta := Some (str "forums where archived is false");
     hasUnbatchedExecute := false; polymorphicPaths := [[]];
     dependencies := []; layerPlanId := 0; isItemStep := false;
     isSyncAndSafe := false; hasSideEffects := false |}.

(** The state [printPlanGraph] starts [planId] from. *)
Definition emptyRendering : Rendering := {| graph := []; planIdMap := ∅ |}.

End Mermaid.

(** ** The lint rule ExportSubclasses *)

Module ExportSubclasses.

(** The ESTree nodes the rule inspects are objects tagged by a [type]
    string; each record holds what the rule reads of one kind of node. *)

(** The [key] of a class member or of an object property. *)
Record Key : Type := {
  keyType : string;
  keyName : string
}.

(** A member of an object expression.  [propertyKey] is read of members of
    type [Property] only; [propertyValueType] is [value?.type]. *)
Record ObjectMember : Type := {
  memberType : string;
  propertyKey : Key;
  propertyValueType : option string
}.

(** The [value] of a class member: its type and, for an object expression,
    its [properties]. *)
Record MemberValue : Type := {
  valueType : string;
  properties : list ObjectMember
}.

(** A member of a class body; [value] is [None] when the member has
    none. *)
Record ClassMember : Type := {
  definitionType : string;
  static : bool;
  key : Key;
  value : option MemberValue
}.

(** [node.superClass]: its type and, for an identifier, its name. *)
Record SuperClass : Type := {
  superClassType : string;
  superClassName : string
}.

Record ClassDeclaration : Type := {
  superClass : option SuperClass;
  className : option string;          (* [node.id?.name] *)
  typeParameters : bool;              (* whether the property is set *)
  body : list ClassMember;            (* [node.body.body] *)
  range : nat * nat;                  (* [node.range] *)
  bodyRange : nat * nat               (* [node.body.range] *)
}.

(** A call of [fixer.replaceTextRange]. *)
Record TextReplacement : Type := {
  replacedRange : nat * nat;
  replacementText : string
}.

Record Suggestion : Type := {
  desc : string;
  fix_ : list TextReplacement
}.

(** The node a problem is reported on. *)
Inductive ReportedNode : Type :=
| OnMember (member : ClassMember)
| OnClass (declaration : ClassDeclaration).

(** The descriptor handed to [reportProblem], which is imported from
    [./common] together with the options it also receives; the rule as
    embedded here is the list of the descriptors it hands over, in
    order. *)
Record Problem : Type := {
  node : ReportedNode;
  message : string;
  suggest : list Suggestion
}.

Definition KNOWN_IMPORTS : list (string * string) :=
  [("graphile-crystal", "BasePlan");
   ("graphile-crystal", "ExecutablePlan");
   ("graphile-crystal", "ModifierPlan")].

(** [s.endsWith(suffix)] *)
Definition endsWith (suffix s : string) : bool :=
  (String.length suffix <=? String.length s)%nat &&
  String.eqb
    (substring (String.length s - String.length suffix) (String.length suffix) s)
    suffix.

(** [/\.[mc]?tsx?$/.test(filename)] *)
Definition isTypeScriptFile (filename : string) : bool :=
  existsb (λ extension, endsWith extension filename)
    [".ts"; ".tsx"; ".mts"; ".mtsx"; ".cts"; ".ctsx"].

(** The callback given to [find] on the class body. *)
Definition isExportMember (def : ClassMember) : bool :=
  String.eqb (definitionType def) "PropertyDefinition" && static def
  && String.eqb (keyType (key def)) "Identifier"
  && String.eqb (keyName (key def)) "$$export".

(** The callback given to [find] on the properties, for [moduleName] and
    for [exportName]. *)
Definition isPropertyNamed (name : string) (prop : ObjectMember) : bool :=
  String.eqb (memberType prop) "Property"
  && String.eqb (keyType (propertyKey prop)) "Identifier"
  && String.eqb (keyName (propertyKey prop)) name.

(** [safe] *)
Definition safe (properties : list ObjectMember) : bool :=
  negb (existsb (λ prop, String.eqb (memberType prop) "SpreadElement") properties)
  && negb (existsb (λ prop, String.eqb (memberType prop) "Property"
                            && negb (String.eqb (keyType (propertyKey prop)) "Identifier"))
             properties).

(** [x.value?.type !== "StringLiteral"] *)
Definition notStringLiteral (prop : ObjectMember) : bool :=
  negb (bool_decide (propertyValueType prop = Some "StringLiteral")).

Definition doubleQuote : string := String "034" "".
Definition lineFeed : string := String "010" "".

Section WithContext.

(** [context.getFilename()], and two library functions: [basename] of
    [path] and [JSON.stringify]. *)
Variable filename : string.
Variable basename : string → string.
Variable JSON_stringify : string → string.

(** The problems reported for a [$$export] member. *)
Definition validateExport (export : ClassMember) : list Problem :=
  match value export with
  | Some v =>
      if String.eqb (valueType v) "ObjectExpression" then
        let moduleName := List.find (isPropertyNamed "moduleName") (properties v) in
        let exportName := List.find (isPropertyNamed "exportName") (properties v) in
        let isSafe := safe (properties v) in
        (if isSafe && negb (bool_decide (is_Some moduleName))
         then [{| node := OnMember export;
                  message := "$$export specifier doesn't explicitly specify 'moduleName'";
                  suggest := [] |}]
         else [])
        ++ (if isSafe && negb (bool_decide (is_Some exportName))
            then [{| node := OnMember export;
                     message := "$$export specifier doesn't explicitly specify 'exportName'";
                     suggest := [] |}]
            else [])
        ++ match moduleName, exportName with
           | Some m, Some e =>
               (if notStringLiteral m
                then [{| node := OnMember export;
                         message := "$$export has invalid value for 'moduleName' - expected a string literal.";
                         suggest := [] |}]
                else [])
               ++ (if notStringLiteral e
                   then [{| node := OnMember export;
                            message := "$$export has invalid value for 'exportName' - expected a string literal.";
                            suggest := [] |}]
                   else [])
           | _, _ => []
           end
      else []
  | None => []
  end.

Definition convertToImportable (declaration : ClassDeclaration) (name : string)
    : Suggestion :=
  {| desc := "convert to importable";
     fix_ := [{| replacedRange := ((bodyRange declaration).1 + 1, (bodyRange declaration).1 + 1);
                replacementText :=
                  lineFeed ++ "  static $$export = { moduleName: /* TODO! */ "
                    ++ JSON_stringify ("./" ++ basename filename)
                    ++ ", exportName: " ++ doubleQuote ++ name ++ doubleQuote
                    ++ " };" ++ lineFeed |}] |}.

Definition convertToExportable (declaration : ClassDeclaration) (name : string)
    : Suggestion :=
  {| desc := "convert to exportable";
     fix_ := [{| replacedRange := ((range declaration).1, (range declaration).1);
                replacementText := "const " ++ name ++ " = EXPORTABLE(() => " |};
             {| replacedRange := ((range declaration).2, (range declaration).2);
                replacementText :=
                  ", []);"
                    ++ (if isTypeScriptFile filename
                        then lineFeed ++ "type " ++ name ++ " = InstanceType<typeof "
                               ++ name ++ ">;"
                        else "") |}] |}.

Definition exportExample (name : string) : string :=
  "static $$export = { moduleName: " ++ doubleQuote ++ ".../path/to/module.js"
    ++ doubleQuote ++ ", exportName: " ++ doubleQuote ++ name ++ doubleQuote ++ " }".

(** The [ClassDeclaration] listener: the problems it reports, in order. *)
Definition ClassDeclaration_listener (declaration : ClassDeclaration) : list Problem :=
  match superClass declaration with
  | None => []
  | Some super =>
      if negb (String.eqb (superClassType super) "Identifier") then []
      else
        let superClassIdentifier := superClassName super in
        if String.eqb superClassIdentifier "" then []
        else
          let possibles :=
            List.filter (λ tuple, String.eqb tuple.2 superClassIdentifier) KNOWN_IMPORTS in
          if (length possibles =? 0)%nat then []
          else
            match className declaration with
            | None => []
            | Some name =>
                if String.eqb name "" then []
                else
                  match List.find isExportMember (body declaration) with
                  | Some export => validateExport export
                  | None =>
                      if typeParameters declaration then
                        [{| node := OnClass declaration;
                            message :=
                              "Generic class '" ++ name ++ "' extending '"
                                ++ superClassIdentifier
                                ++ "' cannot be safely exported. Because it's generic we cannot make it EXPORTABLE, instead make it importable by putting it in its own module and declaring a '"
                                ++ exportExample name ++ "' property.";
                            suggest := [convertToImportable declaration name] |}]
                      else
                        [{| node := OnClass declaration;
                            message :=
                              "Class '" ++ name ++ "' extends '" ++ superClassIdentifier
                                ++ "' but cannot be safely exported. Either make it EXPORTABLE or make it importable and add a '"
                                ++ exportExample name ++ "' property to indicate this.";
                            suggest := [convertToExportable declaration name;
                                        convertToImportable declaration name] |}]
                  end
            end
  end.

End WithContext.

(** A property named by an identifier, with a value of the given node
    type. *)
Definition propertyOfType (name type : string) : ObjectMember :=
  {| memberType := "Property";
     propertyKey := {| keyType := "Identifier"; keyName := name |};
     propertyValueType := Some type |}.

(** A property whose value is a string literal, as an ESTree parser gives
    it: the node type of the value is [Literal]. *)
Definition literalProperty (name : string) : ObjectMember :=
  propertyOfType name "Literal".

Definition exportMember (members : list ObjectMember) : ClassMember :=
  {| definitionType := "PropertyDefinition"; static := true;
     key := {| keyType := "Identifier"; keyName := "$$export" |};
     value := Some {| valueType := "ObjectExpression"; properties := members |} |}.

(** The class declaration of [PgPolymorphicPlan], as a parser hands it to
    the rule: a generic class that extends [ExecutablePlan] and whose
    static [$$export] is an object of two string literals. *)
Definition PgPolymorphicPlan_declaration : ClassDeclaration :=
  {| superClass := Some {| superClassType := "Identifier"; superClassName := "ExecutablePlan" |};
     className := Some "PgPolymorphicPlan";
     typeParameters := true;
     body := [exportMember [literalProperty "moduleName"; literalProperty "exportName"]];
     range := (0, 100)%nat;
     bodyRange := (40, 100)%nat |}.

(** The declarations the listener goes on to examine: named classes whose
    superclass is one of the three known names, given as an identifier. *)
Definition extendsKnownImport (declaration : ClassDeclaration) : Prop :=
  ∃ super name,
    superClass declaration = Some super ∧
    superClassType super = "Identifier" ∧
    superClassName super ∈ ["BasePlan"; "ExecutablePlan"; "ModifierPlan"] ∧
    className declaration = Some name ∧ name ≠ "".

(** The [$$export] members the rule has nothing to say about. *)
Definition acceptedExport (export : ClassMember) : Prop :=
  ∀ v, value export = Some v → valueType v = "ObjectExpression" →
    let moduleName := List.find (isPropertyNamed "moduleName") (properties v) in
    let exportName := List.find (isPropertyNamed "exportName") (properties v) in
    (safe (properties v) = true → is_Some moduleName ∧ is_Some exportName) ∧
    (∀ m e, moduleName = Some m → exportName = Some e →
       propertyValueType m = Some "StringLiteral" ∧
       propertyValueType e = Some "StringLiteral").

(** The same declaration without its [$$export] member. *)
Definition undeclaredSubclass : ClassDeclaration :=
  {| superClass := superClass PgPolymorphicPlan_declaration;
     className := className PgPolymorphicPlan_declaration;
     typeParameters := true;
     body := [];
     range := (0, 100)%nat;
     bodyRange := (40, 100)%nat |}.

End ExportSubclasses.

(** ** The step graph, deduplication and execution order

    The engine proper (step class, operation plan, deduplication pass,
    executor) is not among the source files; this module follows
    sections 3, 4.1 and 4.3 of the specification. *)

Module Engine.

(** Modelled from the spec: the Step of section 3, which the source files
    do not contain -- its integer id, its ordered dependency ids, its
    layer plan and [hasSideEffects], together with the two things section
    4.1 groups by besides the dependencies: the constructor identity and
    the step-defined structural-equality key. *)
Record Step : Type := {
  id : nat;
  constructorId : string;
  dependencies : list nat;
  equalityKey : string;
  layerPlan : nat;
  hasSideEffects : bool
}.

#[export] Instance Step_eq_dec : EqDecision Step.
Proof. solve_decision. Defined.

(** Modelled from the spec: the step graph the builder of section 4.1
    accumulates, as the list of its steps in creation order. *)
Definition StepGraph : Type := list Step.

(** Modelled from the spec: the construction-time checks of sections 3 and
    4.1 -- ids are unique, and every dependency is the id of a step
    created before (so no step depends on a later one and there is no
    cycle).  [known] holds the ids of the steps created so far. *)
Fixpoint wellFormedAfter (known : list nat) (g : StepGraph) : bool :=
  match g with
  | [] => true
  | s :: g' =>
      negb (bool_decide (id s ∈ known))
      && forallb (λ d, bool_decide (d ∈ known)) (dependencies s)
      && wellFormedAfter (id s :: known) g'
  end.

Definition wellFormed (g : StepGraph) : bool := wellFormedAfter [] g.

(** Modelled from the spec: the grouping criterion of section 4.1 -- same
    constructor, same dependency id sequence, same equality key, same
    layer plan, and neither step has side effects.  (Section 4.1 would
    also allow merging a step with an ancestor-injected copy of it; the
    model never does.) *)
Definition interchangeable (a b : Step) : bool :=
  negb (hasSideEffects a) && negb (hasSideEffects b)
  && bool_decide (constructorId a = constructorId b)
  && bool_decide (dependencies a = dependencies b)
  && bool_decide (equalityKey a = equalityKey b)
  && bool_decide (layerPlan a = layerPlan b).

(** Modelled from the spec: the step a dependency id points at once
    removed steps have been replaced (section 4.1: every dependent is
    rewritten to point at the survivor).  [replaced] maps the id of a
    removed step to the id of its group's survivor. *)
Definition survivorOf (replaced : gmap nat nat) (d : nat) : nat :=
  default d (replaced !! d).

(** Modelled from the spec: a step with every dependency rewritten to
    point at the survivor (section 4.1). *)
Definition redirect (replaced : gmap nat nat) (s : Step) : Step :=
  {| id := id s;
     constructorId := constructorId s;
     dependencies := survivorOf replaced <$> dependencies s;
     equalityKey := equalityKey s;
     layerPlan := layerPlan s;
     hasSideEffects := hasSideEffects s |}.

(** Modelled from the spec: the deduplication pass of section 4.1.  Steps
    are visited in creation order, each with its dependencies already
    rewritten; a step that is interchangeable with a step kept before
    joins that step's group and is removed, the first step of a group is
    its survivor.  [kept] are the steps kept so far; the result is the
    steps kept from [todo] and the final replacement map. *)
Fixpoint deduplicateAfter (kept : list Step) (replaced : gmap nat nat)
    (todo : list Step) : list Step * gmap nat nat :=
  match todo with
  | [] => ([], replaced)
  | s :: todo' =>
      let s' := redirect replaced s in
      match find (interchangeable s') kept with
      | Some survivor =>
          deduplicateAfter kept (<[id s := id survivor]> replaced) todo'
      | None =>
          let '(rest, replaced') := deduplicateAfter (kept ++ [s']) replaced todo' in
          (s' :: rest, replaced')
      end
  end.

(** Modelled from the spec: the graph the deduplication pass of section
    4.1 leaves. *)
Definition deduplicate (g : StepGraph) : StepGraph :=
  (deduplicateAfter [] ∅ g).1.

(** Modelled from the spec: which survivor stands for each removed step
    (section 4.1). *)
Definition replacements (g : StepGraph) : gmap nat nat :=
  (deduplicateAfter [] ∅ g).2.

(** No step of [l] is interchangeable with a step before it, or with one
    of [kept]. *)
Fixpoint canonicalAfter (kept : list Step) (l : list Step) : Prop :=
  match l with
  | [] => True
  | r :: l' =>
      find (interchangeable r) kept = None ∧ canonicalAfter (kept ++ [r]) l'
  end.

Section Execution.

(** Modelled from the spec: the batched operation of a step (section 3,
    execution mode).  [Value] holds success values and error markers
    alike.  Structurally equivalent steps compute the same thing, so the
    operation is given by constructor and equality key; it receives the
    bucket size and one list of values per dependency. *)
Variable Value : Type.
Variable operation : string → string → nat → list (list Value) → list Value.

(** Modelled from the spec: one call of a batched operation (section
    4.3), with the aligned value lists it was given. *)
Record Invocation : Type := {
  invoked : nat;
  withSideEffects : bool;
  inputs : list (list Value)
}.

(** Modelled from the spec: a bucket of section 3 -- one column per
    executed step -- with the calls made so far. *)
Record Bucket : Type := {
  columns : gmap nat (list Value);
  invocations : list Invocation
}.

(** Modelled from the spec: the two fatal outcomes of executing a step --
    a dependency column that is not there yet (the order broke the
    contract of section 4.3), and a result list of the wrong length (a
    contract violation of section 7). *)
Inductive ExecutionError : Type :=
| MissingDependency (step dependency : nat)
| LengthMismatch (step : nat).

(** Modelled from the spec: collecting, for each dependency, its aligned
    value list (section 4.3). *)
Fixpoint collect (cols : gmap nat (list Value)) (step : nat) (deps : list nat)
    : ExecutionError + list (list Value) :=
  match deps with
  | [] => inr []
  | d :: deps' =>
      match cols !! d with
      | None => inl (MissingDependency step d)
      | Some c =>
          match collect cols step deps' with
          | inl e => inl e
          | inr cs => inr (c :: cs)
          end
      end
  end.

(** Modelled from the spec: execution of one step over one bucket
    (section 4.3) -- collect the dependency columns, invoke the batched
    operation, write the result list into a new column. *)
Definition executeStep (size : nat) (b : Bucket) (s : Step)
    : ExecutionError + Bucket :=
  match collect (columns b) (id s) (dependencies s) with
  | inl e => inl e
  | inr ins =>
      let results := operation (constructorId s) (equalityKey s) size ins in
      if bool_decide (length results = size) then
        inr {| columns := <[id s := results]> (columns b);
               invocations := invocations b
                 ++ [{| invoked := id s; withSideEffects := hasSideEffects s;
                        inputs := ins |}] |}
      else inl (LengthMismatch (id s))
  end.

(** Modelled from the spec: executing steps one after the other over a
    bucket (section 4.3); a fatal error stops the run. *)
Fixpoint executeFrom (size : nat) (b : Bucket) (order : list Step)
    : ExecutionError + Bucket :=
  match order with
  | [] => inr b
  | s :: order' =>
      match executeStep size b s with
      | inl e => inl e
      | inr b' => executeFrom size b' order'
      end
  end.

(** Modelled from the spec: the executor of section 4.3 for one bucket --
    the steps are executed in the given order over a fresh bucket of
    [size] rows. *)
Definition execute (size : nat) (order : list Step) : ExecutionError + Bucket :=
  executeFrom size {| columns := ∅; invocations := [] |} order.

(** Modelled from the spec: the observable behaviour of section 3's
    [hasSideEffects] -- the calls of side-effecting steps, in the order
    they were made. *)
Definition sideEffects (b : Bucket) : list Invocation :=
  filter (λ i, withSideEffects i = true) (invocations b).

(** Modelled from the spec: a column is fully populated (section 8) when
    it has one entry per row of the bucket. *)
Definition populated (size : nat) (b : Bucket) (i : nat) : Prop :=
  ∃ col, columns b !! i = Some col ∧ length col = size.

(** A call that received one fully populated column per dependency. *)
Definition wellFed (size : nat) (s : Step) (inv : Invocation) : Prop :=
  invoked inv = id s ∧
  length (inputs inv) = length (dependencies s) ∧
  Forall (λ col, length col = size) (inputs inv).

(** How the bucket [b] of the original graph and the bucket [b'] of the
    deduplicated graph correspond after the steps with ids [known] have
    been visited, [kept] of them kept. *)
Record related (size : nat) (known : list nat) (kept : list Step)
    (replaced : gmap nat nat) (b b' : Bucket) : Prop := {
  related_known : ∀ i, i ∈ known ↔ is_Some (columns b !! i);
  related_columns : ∀ i, i ∈ known →
    columns b !! i = columns b' !! survivorOf replaced i;
  related_known' : ∀ i, is_Some (columns b' !! i) → i ∈ known;
  related_length : ∀ i col, columns b' !! i = Some col → length col = size;
  related_kept : ∀ r, r ∈ kept →
    ∃ ins, collect (columns b') (id r) (dependencies r) = inr ins ∧
           columns b' !! id r
           = Some (operation (constructorId r) (equalityKey r) size ins);
  related_replaced : ∀ i, i ∉ known → replaced !! i = None;
  related_self : ∀ r, r ∈ kept → survivorOf replaced (id r) = id r;
  related_effects : sideEffects b = sideEffects b'
}.

End Execution.

Arguments invoked {Value} i.
Arguments withSideEffects {Value} i.
Arguments inputs {Value} i.
Arguments columns {Value} b.
Arguments invocations {Value} b.
Arguments execute {Value} operation size order.
Arguments executeFrom {Value} operation size b order.
Arguments executeStep {Value} operation size b s.
Arguments collect {Value} cols step deps.
Arguments sideEffects {Value} b.
Arguments populated {Value} size b i.
Arguments wellFed {Value} size s inv.
Arguments related {Value} operation size known kept replaced b b'.
Arguments related_known {Value operation size known kept replaced b b'} _ i.
Arguments related_columns {Value operation size known kept replaced b b'} _ i _.
Arguments related_known' {Value operation size known kept replaced b b'} _ i _.
Arguments related_length {Value operation size known kept replaced b b'} _ i col _.
Arguments related_kept {Value operation size known kept replaced b b'} _ r _.
Arguments related_replaced {Value operation size known kept replaced b b'} _ i _.
Arguments related_self {Value operation size known kept replaced b b'} _ r _.
Arguments related_effects {Value operation size known kept replaced b b'} _.

(** Modelled from the spec: direct dependency between steps of a graph,
    and mutual independence (section 5: steps with no dependency
    relationship), which is the absence of a chain of dependencies in
    either direction. *)
Definition dependsOn (g : StepGraph) (s r : Step) : Prop :=
  s ∈ g ∧ r ∈ g ∧ id r ∈ dependencies s.

(** Modelled from the spec: mutually independent steps (sections 5 and 8). *)
Definition independent (g : StepGraph) (a b : Step) : Prop :=
  ¬ tc (dependsOn g) a b ∧ ¬ tc (dependsOn g) b a.

(** Modelled from the spec: [order] lists every dependency of a step
    before the step (section 4.3); [placed] holds the steps that come
    before [order]. *)
Fixpoint dependenciesFirstAfter (g : StepGraph) (placed : list Step)
    (order : list Step) : Prop :=
  match order with
  | [] => True
  | s :: order' =>
      (s ∉ placed) ∧ (∀ r, dependsOn g s r → r ∈ placed)
      ∧ dependenciesFirstAfter g (s :: placed) order'
  end.

(** Modelled from the spec: a topological execution order of a graph
    (section 8) -- all its steps, each after its dependencies. *)
Definition topologicalOrder (g : StepGraph) (order : list Step) : Prop :=
  order ≡ₚ g ∧ dependenciesFirstAfter g [] order.

(** Modelled from the spec: reordering of mutually independent steps
    (section 8), one exchange of two neighbours at a time. *)
Inductive swapIndependent (g : StepGraph) : list Step → list Step → Prop :=
| swap_neighbours before a b after :
    independent g a b →
    swapIndependent g (before ++ a :: b :: after) (before ++ b :: a :: after).

(** Graphs to evaluate on.  [diamond]: two roots' worth of work sharing
    one source; [duplicated]: the same chain declared twice. *)
Definition step (i : nat) (ctor : string) (deps : list nat) (key : string)
    (effects : bool) : Step :=
  {| id := i; constructorId := ctor; dependencies := deps; equalityKey := key;
     layerPlan := 0; hasSideEffects := effects |}.

Definition diamond : StepGraph :=
  [step 0 "Constant" [] "1" false;
   step 1 "Double" [0] "" false;
   step 2 "Negate" [0] "" false;
   step 3 "Add" [1; 2] "" false].

Definition duplicated : StepGraph :=
  [step 0 "Constant" [] "1" false;
   step 1 "Constant" [] "1" false;
   step 2 "Double" [0] "" false;
   step 3 "Double" [1] "" false;
   step 4 "Log" [2] "" true;
   step 5 "Log" [3] "" true].

(** Operations on integer rows for the examples. *)
Definition exampleOperation (ctor key : string) (size : nat)
    (ins : list (list Z)) : list Z :=
  if String.eqb ctor "Constant" then replicate size 1%Z
  else if String.eqb ctor "Double" then (λ v, 2 * v)%Z <$> default [] (ins !! 0)
  else if String.eqb ctor "Negate" then (λ v, - v)%Z <$> default [] (ins !! 0)
  else if String.eqb ctor "Add"
       then zip_with Z.add (default [] (ins !! 0)) (default [] (ins !! 1))
  else default [] (ins !! 0).

End Engine.

(** * Properties *)

(** ** PgPolymorphicPlan: resolution and batch execution *)

Module PgPolymorphicProps.
Import PgPolymorphic.

Lemma outcome_bind {A B} (m : M A) (f : A → M B) :
  outcome (m ≫= f) =
  match outcome m with
  | Returned a => outcome (f a)
  | Thrown e => Thrown e
  end.
Proof.
  destruct m as [l [a|e]]; simpl; [|reflexivity].
  destruct (f a); reflexivity.
Qed.

Lemma trace_bind {A B} (m : M A) (f : A → M B) :
  trace (m ≫= f) =
  trace m ++ match outcome m with
             | Returned a => trace (f a)
             | Thrown _ => []
             end.
Proof.
  destruct m as [l [a|e]]; simpl.
  - destruct (f a); reflexivity.
  - symmetry; apply app_nil_r.
Qed.

Lemma outcome_mapM_cons {A B} (f : A → M B) a l :
  outcome (mapM f (a :: l)) =
  match outcome (f a) with
  | Returned b =>
      match outcome (mapM f l) with
      | Returned bs => Returned (b :: bs)
      | Thrown e => Thrown e
      end
  | Thrown e => Thrown e
  end.
Proof.
  simpl. rewrite outcome_bind. destruct (outcome (f a)); [|reflexivity].
  rewrite outcome_bind. destruct (outcome (mapM f l)); reflexivity.
Qed.

(** [map] returns exactly when every callback returns, and then row by row. *)
Lemma outcome_mapM_Returned {A B} (f : A → M B) l rs :
  outcome (mapM f l) = Returned rs ↔
  Forall2 (λ a r, outcome (f a) = Returned r) l rs.
Proof.
  revert rs; induction l as [|a l IH]; intros rs.
  - simpl. split.
    + intros [= <-]. constructor.
    + intros H; inversion H; reflexivity.
  - rewrite outcome_mapM_cons. split.
    + destruct (outcome (f a)) as [b|e] eqn:Ha; [|discriminate].
      destruct (outcome (mapM f l)) as [bs|e] eqn:Hl; [|discriminate].
      intros [= <-]. constructor; [assumption|]. by apply IH.
    + intros H; inversion H as [|? r ? rs' Ha Hl]; subst.
      rewrite Ha. apply IH in Hl. by rewrite Hl.
Qed.

(** [map] throws exactly the error of the first callback that throws. *)
Lemma outcome_mapM_Thrown {A B} (f : A → M B) l e :
  outcome (mapM f l) = Thrown e ↔
  ∃ i a, l !! i = Some a ∧ outcome (f a) = Thrown e ∧
         ∀ j a', j < i → l !! j = Some a' → isReturned (outcome (f a')) = true.
Proof.
  induction l as [|a l IH].
  - simpl. split; [discriminate|]. intros (i & a & Hi & _); by destruct i.
  - rewrite outcome_mapM_cons. split.
    + destruct (outcome (f a)) as [b|e'] eqn:Ha.
      * destruct (outcome (mapM f l)) as [bs|e'] eqn:Hl; [discriminate|].
        intros [= ->]. destruct IH as [IH _].
        destruct (IH eq_refl) as (i & a' & Hi & He & Hlt).
        exists (S i), a'. split_and!; [done|done|].
        intros [|j] a'' Hj Hl'; simpl in Hl'.
        -- injection Hl' as <-. by rewrite Ha.
        -- apply (Hlt j); [lia|done].
      * intros [= ->]. exists 0, a. split_and!; [done|done|]. intros; lia.
    + intros (i & a' & Hi & He & Hlt). destruct i as [|i]; simpl in Hi.
      * injection Hi as <-. by rewrite He.
      * specialize (Hlt 0 a ltac:(lia) eq_refl) as Ha.
        destruct (outcome (f a)) as [b|e'] eqn:Ha'; [|discriminate].
        assert (outcome (mapM f l) = Thrown e) as ->; [|reflexivity].
        apply IH. exists i, a'. split_and!; [done|done|].
        intros j a'' Hj Hl'. apply (Hlt (S j)); [lia|done].
Qed.

Lemma length_mapM {A B} (f : A → M B) l rs :
  outcome (mapM f l) = Returned rs → length rs = length l.
Proof.
  intros H%outcome_mapM_Returned. symmetry. by eapply Forall2_length.
Qed.

Section Resolution.

Context {PolymorphicData : Type} (polymorphicWrap : string → PolymorphicData).
Context (isDev : bool) (inspect : JsValue → string).

Abbreviation getTypeNameFromSpecifier := (getTypeNameFromSpecifier isDev inspect).
Abbreviation executeRow := (executeRow polymorphicWrap isDev inspect).
Abbreviation execute := (execute polymorphicWrap isDev inspect).

Lemma getProperty_Some_key o t spec :
  getProperty o t = Some spec → t ∈ Object_keys o.
Proof.
  induction o as [|[k v] o IH]; simpl; [discriminate|].
  destruct (String.eqb k t) eqn:E.
  - apply String.eqb_eq in E as ->. intros _. apply list_elem_of_here.
  - intros H. apply list_elem_of_further. by apply IH.
Qed.

Lemma getProperty_key o t :
  t ∈ Object_keys o → is_Some (getProperty o t).
Proof.
  induction o as [|[k v] o IH]; simpl.
  - intros H; by apply not_elem_of_nil in H.
  - intros H. destruct (String.eqb k t) eqn:E; [by eexists|].
    apply IH. apply elem_of_cons in H as [->|H]; [|done].
    simpl in E. by rewrite String.eqb_refl in E.
Qed.

(** [find] over keys that all name properties: it never throws, and it
    yields the first accepted key if there is one. *)
Lemma findType_spec o specifier ts :
  (∀ t, t ∈ ts → is_Some (getProperty o t)) →
  ∃ r, outcome (findType o specifier ts) = Returned r ∧
    match r with
    | Some T =>
        ∃ k spec, ts !! k = Some T ∧ getProperty o T = Some spec ∧
          match_ spec specifier = true ∧
          ∀ j T' spec', j < k → ts !! j = Some T' →
            getProperty o T' = Some spec' → match_ spec' specifier = false
    | None =>
        ∀ T spec, T ∈ ts → getProperty o T = Some spec →
          match_ spec specifier = false
    end.
Proof.
  induction ts as [|t ts IH]; intros Hts; cbn [findType].
  - exists None. split; [done|]. intros T spec H; by apply not_elem_of_nil in H.
  - destruct (Hts t) as [spec Hspec]; [apply list_elem_of_here|].
    rewrite Hspec, outcome_bind. cbn [emit outcome snd].
    destruct (match_ spec specifier) eqn:Hm.
    + exists (Some t). split; [done|]. exists 0, spec. split_and!; try done.
      intros; lia.
    + destruct IH as (r & Hr & Hspec').
      { intros t' Ht'. apply Hts. by apply list_elem_of_further. }
      exists r. split; [done|]. destruct r as [T|].
      * destruct Hspec' as (k & spec' & Hk & Hp & Hacc & Hfirst).
        exists (S k), spec'. split_and!; try done.
        intros [|j] T' spec'' Hj HT' Hp'; simpl in HT'.
        -- injection HT' as <-. congruence.
        -- apply (Hfirst j T'); [lia|done|done].
      * intros T spec' [->|HT]%elem_of_cons Hp; [congruence|].
        by eapply Hspec'.
Qed.

Lemma outcome_noMatchingType {A} specifier :
  outcome (noMatchingType isDev inspect (A:=A) specifier) = Thrown (Error cannotDetermine).
Proof. unfold noMatchingType. rewrite outcome_bind. by destruct isDev. Qed.

(** What [getTypeNameFromSpecifier] does on an instance built by the
    constructor: it returns the first accepted key unless that key is the
    empty string, and throws the fixed error otherwise. *)
Lemma getTypeNameFromSpecifier_spec a b o specifier :
  let plan := new_PgPolymorphicPlan a b o in
  (∃ T, outcome (getTypeNameFromSpecifier plan specifier) = Returned T ∧
        T ≠ "" ∧ firstAccepting o specifier T) ∨
  (outcome (getTypeNameFromSpecifier plan specifier) = Thrown (Error cannotDetermine) ∧
   (noneAccepts o specifier ∨ firstAccepting o specifier "")).
Proof.
  intros plan. unfold getTypeNameFromSpecifier, PgPolymorphic.getTypeNameFromSpecifier.
  rewrite outcome_bind. simpl.
  destruct (findType_spec o specifier (Object_keys o)) as (r & -> & Hr).
  { intros t. apply getProperty_key. }
  destruct r as [T|]; simpl.
  - destruct (String.eqb T "") eqn:E.
    + apply String.eqb_eq in E as ->. right.
      split; [apply outcome_noMatchingType|]. right. exact Hr.
    + left. exists T. split_and!; [done| |exact Hr].
      intros ->. by rewrite String.eqb_refl in E.
  - right. split; [apply outcome_noMatchingType|]. left.
    intros T spec Hp. eapply Hr; [|done]. by eapply getProperty_Some_key.
Qed.

Lemma firstAccepting_not_none o specifier T :
  firstAccepting o specifier T → noneAccepts o specifier → False.
Proof.
  intros (k & spec & _ & Hp & Hacc & _) Hnone.
  specialize (Hnone T spec Hp). congruence.
Qed.

Lemma firstAccepting_unique o specifier T1 T2 :
  firstAccepting o specifier T1 → firstAccepting o specifier T2 → T1 = T2.
Proof.
  intros (k1 & s1 & Hk1 & Hp1 & Ha1 & Hf1) (k2 & s2 & Hk2 & Hp2 & Ha2 & Hf2).
  destruct (lt_eq_lt_dec k1 k2) as [[Hlt|Heq]|Hgt].
  - specialize (Hf2 k1 T1 s1 Hlt Hk1 Hp1). congruence.
  - subst. congruence.
  - specialize (Hf1 k2 T2 s2 Hgt Hk2 Hp2). congruence.
Qed.

Lemma outcome_executeRow plan specifier :
  outcome (executeRow plan specifier) =
  if truthy specifier then
    match outcome (getTypeNameFromSpecifier plan specifier) with
    | Returned T => Returned (Some (polymorphicWrap T))
    | Thrown e => Thrown e
    end
  else Returned None.
Proof.
  unfold executeRow, PgPolymorphic.executeRow. destruct (truthy specifier); [|done].
  rewrite outcome_bind. by destruct (outcome _).
Qed.

Lemma executeRow_falsy plan specifier :
  truthy specifier = false → executeRow plan specifier = ([], Returned None).
Proof. intros H. unfold executeRow, PgPolymorphic.executeRow. by rewrite H. Qed.

(** A row's callback throws only for a truthy specifier, and then the
    fixed error. *)
Lemma executeRow_Thrown a b o specifier e :
  outcome (executeRow (new_PgPolymorphicPlan a b o) specifier) = Thrown e →
  truthy specifier = true ∧ e = Error cannotDetermine ∧
  (noneAccepts o specifier ∨ firstAccepting o specifier "").
Proof.
  rewrite outcome_executeRow. destruct (truthy specifier); [|discriminate].
  destruct (getTypeNameFromSpecifier_spec a b o specifier)
    as [(T & -> & _)|[-> Hwhy]]; [discriminate|].
  intros [= <-]. done.
Qed.

Lemma executeRow_Returned a b o specifier r :
  outcome (executeRow (new_PgPolymorphicPlan a b o) specifier) = Returned r →
  if truthy specifier
  then ∃ T, r = Some (polymorphicWrap T) ∧ T ≠ "" ∧ firstAccepting o specifier T
  else r = None.
Proof.
  rewrite outcome_executeRow. destruct (truthy specifier); [|by intros [= <-]].
  destruct (getTypeNameFromSpecifier_spec a b o specifier)
    as [(T & -> & Hne & HT)|[-> _]]; [|discriminate].
  intros [= <-]. by exists T.
Qed.

Lemma outcome_execute plan values specifiers :
  values !! typeSpecifierPlanId plan = Some specifiers →
  execute plan values = mapM (executeRow plan) specifiers.
Proof. intros H. unfold execute, PgPolymorphic.execute. by rewrite H. Qed.

Lemma trace_mapM_elem {A B} (f : A → M B) l ev :
  ev ∈ trace (mapM f l) → ∃ a, a ∈ l ∧ ev ∈ trace (f a).
Proof.
  induction l as [|a l IH]; cbn [mapM].
  - intros H; by apply not_elem_of_nil in H.
  - rewrite trace_bind. intros [H|H]%elem_of_app.
    + exists a. split; [apply list_elem_of_here|done].
    + destruct (outcome (f a)); [|by apply not_elem_of_nil in H].
      rewrite trace_bind in H. apply elem_of_app in H as [H|H].
      * destruct (IH H) as (a' & Ha' & Hev). exists a'.
        split; [by apply list_elem_of_further|done].
      * destruct (outcome (mapM f l)); by apply not_elem_of_nil in H.
Qed.

Lemma trace_findType_elem o specifier ts t s :
  MatchCalled t s ∈ trace (findType o specifier ts) → s = specifier.
Proof.
  induction ts as [|t' ts IH]; cbn [findType].
  - intros H; by apply not_elem_of_nil in H.
  - destruct (getProperty o t') as [spec|]; [|intros H; by apply not_elem_of_nil in H].
    rewrite trace_bind. cbn [emit trace outcome fst snd].
    intros [H|H]%elem_of_app.
    + apply list_elem_of_singleton in H. by injection H as _ <-.
    + destruct (match_ spec specifier); [by apply not_elem_of_nil in H|by apply IH].
Qed.

(** Every consultation of a [match] predicate logged by a row's callback is
    for that row's specifier, which is then truthy. *)
Lemma trace_executeRow_elem plan specifier t s :
  MatchCalled t s ∈ trace (executeRow plan specifier) →
  s = specifier ∧ truthy specifier = true.
Proof.
  unfold executeRow, PgPolymorphic.executeRow.
  destruct (truthy specifier); [|intros H; by apply not_elem_of_nil in H].
  rewrite trace_bind. intros [H|H]%elem_of_app.
  - split; [|done]. revert H.
    unfold getTypeNameFromSpecifier, PgPolymorphic.getTypeNameFromSpecifier.
    rewrite trace_bind. intros [H|H]%elem_of_app.
    + by eapply trace_findType_elem.
    + exfalso. destruct (outcome (findType _ _ _)) as [r|]; [|by apply not_elem_of_nil in H].
      assert (∀ A, MatchCalled t s ∈ trace (noMatchingType isDev inspect (A:=A) specifier) → False) as Hno.
      { intros A. unfold noMatchingType. rewrite trace_bind.
        destruct isDev; cbn [emit trace outcome fst snd throw mret M_ret];
          rewrite ?app_nil_r; intros Hin;
          [apply list_elem_of_singleton in Hin; discriminate|by apply not_elem_of_nil in Hin]. }
      destruct (notFound r); [by eapply Hno|].
      destruct r; [by apply not_elem_of_nil in H|by eapply Hno].
  - exfalso. destruct (outcome _); by apply not_elem_of_nil in H.
Qed.

(** C1 (as amended).  [execute] computes each row from that row's specifier
    alone, but it does not isolate failures: it returns exactly when every
    row's callback returns, and then row by row; as soon as one row's
    callback throws -- a truthy specifier that no type accepts, or whose
    first accepting type is named by the empty string -- the whole call
    throws the error of the first such row and no row of the batch gets a
    value. *)
Theorem execute_aborts_on_first_failing_row a b o values specifiers :
  values !! b = Some specifiers →
  let plan := new_PgPolymorphicPlan a b o in
  (∀ rs, outcome (execute plan values) = Returned rs ↔
         Forall2 (λ s r, outcome (executeRow plan s) = Returned r) specifiers rs) ∧
  (∀ e, outcome (execute plan values) = Thrown e ↔
        ∃ i s, specifiers !! i = Some s ∧ outcome (executeRow plan s) = Thrown e ∧
               ∀ j s', j < i → specifiers !! j = Some s' →
                       isReturned (outcome (executeRow plan s')) = true) ∧
  (∀ s, isReturned (outcome (executeRow plan s)) = false ↔
        truthy s = true ∧ (noneAccepts o s ∨ firstAccepting o s "")).
Proof.
  intros Hv plan; subst plan.
  rewrite (outcome_execute (new_PgPolymorphicPlan a b o) values specifiers Hv).
  split_and!.
  - intros rs. apply outcome_mapM_Returned.
  - intros e. apply outcome_mapM_Thrown.
  - intros s. split.
    + destruct (outcome (executeRow _ s)) as [r|e] eqn:E; [discriminate|].
      intros _. apply executeRow_Thrown in E. tauto.
    + intros [Ht Hwhy]. rewrite outcome_executeRow, Ht.
      destruct (getTypeNameFromSpecifier_spec a b o s)
        as [(T & _ & Hne & HT)|[-> _]]; [|done].
      exfalso. destruct Hwhy as [Hnone|Hempty].
      * by eapply firstAccepting_not_none.
      * apply Hne. by eapply firstAccepting_unique.
Qed.

(** C2 (as amended).  [execute] either throws or returns exactly one result
    per row of the type-specifier list: it returns when every truthy
    specifier has a first accepting type with a non-empty name, and throws
    (returning no list at all) otherwise. *)
Theorem execute_one_result_per_row_or_throw a b o values :
  let plan := new_PgPolymorphicPlan a b o in
  match values !! b with
  | None => isReturned (outcome (execute plan values)) = false
  | Some specifiers =>
      match outcome (execute plan values) with
      | Returned rs =>
          length rs = length specifiers ∧
          Forall (λ s, truthy s = true → ∃ T, T ≠ "" ∧ firstAccepting o s T) specifiers
      | Thrown e =>
          e = Error cannotDetermine ∧
          ∃ s, s ∈ specifiers ∧ truthy s = true ∧
               (noneAccepts o s ∨ firstAccepting o s "")
      end
  end.
Proof.
  intros plan; subst plan. destruct (values !! b) as [specifiers|] eqn:Hv.
  - rewrite (outcome_execute (new_PgPolymorphicPlan a b o) values specifiers Hv).
    destruct (outcome (mapM _ specifiers)) as [rs|e] eqn:E.
    + split; [by eapply length_mapM|].
      apply outcome_mapM_Returned in E. apply Forall_forall. intros s Hs Ht.
      apply list_elem_of_lookup in Hs as [i Hi].
      destruct (Forall2_lookup_l _ _ _ _ _ E Hi) as (r & _ & Hr).
      apply executeRow_Returned in Hr. rewrite Ht in Hr.
      destruct Hr as (T & _ & Hne & HT). by exists T.
    + apply outcome_mapM_Thrown in E as (i & s & Hi & He & _).
      apply executeRow_Thrown in He as (Ht & -> & Hwhy).
      split; [done|]. exists s. split_and!; try done.
      apply list_elem_of_lookup. by exists i.
  - unfold execute, PgPolymorphic.execute. cbn [typeSpecifierPlanId new_PgPolymorphicPlan].
    by rewrite Hv.
Qed.

(** C3 (as amended).  For a row whose specifier is truthy: a type name
    assigned to the row is the first key of [possibleTypes], in key order,
    whose [match] accepts the specifier, so never one that rejects it; and
    when no [match] accepts the specifier the resolution, the row's
    callback and the whole [execute] call throw. *)
Theorem truthy_row_resolves_to_first_accepting_type
    a b o values specifiers i specifier :
  values !! b = Some specifiers →
  specifiers !! i = Some specifier →
  truthy specifier = true →
  let plan := new_PgPolymorphicPlan a b o in
  (∀ T, outcome (getTypeNameFromSpecifier plan specifier) = Returned T →
        firstAccepting o specifier T) ∧
  (∀ rs, outcome (execute plan values) = Returned rs →
         ∃ T, rs !! i = Some (Some (polymorphicWrap T)) ∧
              firstAccepting o specifier T) ∧
  (noneAccepts o specifier →
     outcome (getTypeNameFromSpecifier plan specifier) = Thrown (Error cannotDetermine) ∧
     outcome (executeRow plan specifier) = Thrown (Error cannotDetermine) ∧
     outcome (execute plan values) = Thrown (Error cannotDetermine)).
Proof.
  intros Hv Hi Ht plan; subst plan.
  pose proof (getTypeNameFromSpecifier_spec a b o specifier) as Hres.
  cbv zeta in Hres. split_and!.
  - intros T HT. destruct Hres as [(T' & HT' & _ & Hfirst)|[Hthrow _]]; congruence.
  - intros rs Hrs. rewrite (outcome_execute (new_PgPolymorphicPlan a b o) values specifiers Hv) in Hrs.
    apply outcome_mapM_Returned in Hrs.
    destruct (Forall2_lookup_l _ _ _ _ _ Hrs Hi) as (r & Hr & Hrow).
    apply executeRow_Returned in Hrow. rewrite Ht in Hrow.
    destruct Hrow as (T & -> & _ & HT). by exists T.
  - intros Hnone.
    assert (outcome (getTypeNameFromSpecifier (new_PgPolymorphicPlan a b o) specifier)
            = Thrown (Error cannotDetermine)) as Hget.
    { destruct Hres as [(T & _ & _ & HT)|[Hthrow _]]; [|done].
      exfalso. by eapply firstAccepting_not_none. }
    assert (outcome (executeRow (new_PgPolymorphicPlan a b o) specifier)
            = Thrown (Error cannotDetermine)) as Hrow.
    { by rewrite outcome_executeRow, Ht, Hget. }
    split_and!; [done|done|].
    rewrite (outcome_execute (new_PgPolymorphicPlan a b o) values specifiers Hv).
    destruct (outcome (mapM _ specifiers)) as [rs|e] eqn:E.
    + apply outcome_mapM_Returned in E.
      destruct (Forall2_lookup_l _ _ _ _ _ E Hi) as (r & _ & Hr). congruence.
    + apply outcome_mapM_Thrown in E as (j & s & _ & He & _).
      by apply executeRow_Thrown in He as (_ & -> & _).
Qed.


(** Running [m] and then [k] on its result, as a pair of log and outcome. *)
Lemma M_bind_unfold {A B} (m : M A) (f : A → M B) :
  m ≫= f =
  match m with
  | (l, Returned a) => (l ++ trace (f a), outcome (f a))
  | (l, Thrown e) => (l, Thrown e)
  end.
Proof. destruct m as [l [a|e]]; [|done]. unfold mbind, M_bind. by destruct (f a). Qed.

Lemma mapM_app {A B} (f : A → M B) l1 l2 :
  mapM f (l1 ++ l2) =
  match mapM f l1 with
  | (t1, Returned r1) =>
      match mapM f l2 with
      | (t2, Returned r2) => (t1 ++ t2, Returned (r1 ++ r2))
      | (t2, Thrown e) => (t1 ++ t2, Thrown e)
      end
  | (t1, Thrown e) => (t1, Thrown e)
  end.
Proof.
  induction l1 as [|a l1 IH].
  - simpl. by destruct (mapM f l2) as [t2 [r2|e]].
  - rewrite <- app_comm_cons. cbn [mapM]. rewrite !M_bind_unfold.
    destruct (f a) as [ta [b|e]]; [|done].
    rewrite !M_bind_unfold, IH.
    destruct (mapM f l1) as [t1 [r1|e]]; [|done].
    destruct (mapM f l2) as [t2 [r2|e]]; cbn; by rewrite ?app_assoc, ?app_nil_r.
Qed.

(** X1.  [execute] on a batch that is the concatenation of two batches
    does what [execute] on the first and then on the second do: the event
    logs are concatenated, and so are the results when both calls return;
    when the first call throws, the second batch is not looked at. *)
Theorem execute_concatenated_batches plan values1 values2 values first second :
  values1 !! typeSpecifierPlanId plan = Some first →
  values2 !! typeSpecifierPlanId plan = Some second →
  values !! typeSpecifierPlanId plan = Some (first ++ second) →
  execute plan values =
  match execute plan values1 with
  | (log1, Returned results1) =>
      match execute plan values2 with
      | (log2, Returned results2) => (log1 ++ log2, Returned (results1 ++ results2))
      | (log2, Thrown e) => (log1 ++ log2, Thrown e)
      end
  | (log1, Thrown e) => (log1, Thrown e)
  end.
Proof.
  intros H1 H2 H.
  rewrite (outcome_execute _ _ _ H1), (outcome_execute _ _ _ H2),
    (outcome_execute _ _ _ H).
  apply mapM_app.
Qed.

Lemma noMatchingType_eq {A} specifier :
  noMatchingType isDev inspect (A:=A) specifier = (devLog isDev inspect specifier, Thrown (Error cannotDetermine)).
Proof. unfold noMatchingType, devLog. by destruct isDev. Qed.

Lemma findType_accepting o specifier ts : ∀ k T spec,
  ts !! k = Some T → getProperty o T = Some spec → match_ spec specifier = true →
  (∀ j T', j < k → ts !! j = Some T' →
     ∃ spec', getProperty o T' = Some spec' ∧ match_ spec' specifier = false) →
  findType o specifier ts = (matchCalls specifier (take (S k) ts), Returned (Some T)).
Proof.
  induction ts as [|t ts IH]; intros k T spec Hk Hp Hacc Hrej; [done|].
  cbn [findType]. destruct k as [|k].
  - injection Hk as ->. rewrite Hp, M_bind_unfold. cbn. by rewrite Hacc.
  - destruct (Hrej 0 t) as (spec' & Hp' & Hrej'); [lia|done|].
    rewrite Hp', M_bind_unfold. cbn. rewrite Hrej'.
    rewrite (IH k T spec) by (try done; intros j T' Hj; apply (Hrej (S j)); lia).
    done.
Qed.

Lemma findType_rejecting o specifier ts :
  (∀ t, t ∈ ts → ∃ spec, getProperty o t = Some spec ∧ match_ spec specifier = false) →
  findType o specifier ts = (matchCalls specifier ts, Returned None).
Proof.
  induction ts as [|t ts IH]; intros Hrej; [done|].
  cbn [findType]. destruct (Hrej t) as (spec & Hp & Hr); [apply list_elem_of_here|].
  rewrite Hp, M_bind_unfold. cbn. rewrite Hr, IH; [done|].
  intros t' Ht'. apply Hrej. by apply list_elem_of_further.
Qed.

(** X2.  [getTypeNameFromSpecifier] consults the [match] predicates in
    the order of [Object.keys(possibleTypes)] and stops at the first one
    that accepts: with the first accepting key at index [k], exactly the
    first [k + 1] keys are consulted, once each, and the key is returned
    unless it is the empty string, in which case the call throws after the
    development message; when no type accepts, every key is consulted
    once, in order, before the development message and the throw. *)
Theorem resolution_consults_types_in_key_order a b o specifier :
  let plan := new_PgPolymorphicPlan a b o in
  (∀ k T spec,
     Object_keys o !! k = Some T → getProperty o T = Some spec →
     match_ spec specifier = true →
     (∀ j T' spec', j < k → Object_keys o !! j = Some T' →
        getProperty o T' = Some spec' → match_ spec' specifier = false) →
     getTypeNameFromSpecifier plan specifier
     = if String.eqb T ""
       then (matchCalls specifier (take (S k) (Object_keys o)) ++ devLog isDev inspect specifier,
             Thrown (Error cannotDetermine))
       else (matchCalls specifier (take (S k) (Object_keys o)), Returned T)) ∧
  (noneAccepts o specifier →
     getTypeNameFromSpecifier plan specifier
     = (matchCalls specifier (Object_keys o) ++ devLog isDev inspect specifier,
        Thrown (Error cannotDetermine))).
Proof.
  intros plan; subst plan. unfold getTypeNameFromSpecifier, PgPolymorphic.getTypeNameFromSpecifier.
  cbn [possibleTypes types new_PgPolymorphicPlan]. split.
  - intros k T spec Hk Hp Hacc Hrej.
    rewrite (findType_accepting o specifier (Object_keys o) k T spec Hk Hp Hacc).
    + rewrite M_bind_unfold. cbn [notFound].
      destruct (String.eqb T ""); [by rewrite noMatchingType_eq|].
      cbn. by rewrite app_nil_r.
    + intros j T' Hj HT'.
      destruct (getProperty_key o T') as [spec' Hp']; [by eapply list_elem_of_lookup_2|].
      exists spec'. split; [done|]. by eapply Hrej.
  - intros Hnone. rewrite findType_rejecting.
    + rewrite M_bind_unfold. cbn [notFound]. by rewrite noMatchingType_eq.
    + intros t Ht. destruct (getProperty_key o t Ht) as [spec Hp].
      exists spec. split; [done|]. by eapply Hnone.
Qed.

Lemma Forall_isMatchCalled_matchCalls specifier ts :
  Forall isMatchCalled (matchCalls specifier ts).
Proof. apply Forall_fmap, Forall_true. intros t. by exists t, specifier. Qed.

Lemma findType_log o specifier ts :
  Forall isMatchCalled (trace (findType o specifier ts)).
Proof.
  induction ts as [|t ts IH]; cbn [findType]; [constructor|].
  destruct (getProperty o t) as [spec|]; [|constructor].
  rewrite trace_bind. cbn [emit trace outcome fst snd].
  constructor; [by exists t, specifier|].
  destruct (match_ spec specifier); [constructor|exact IH].
Qed.

Lemma getTypeNameFromSpecifier_log a b o specifier :
  match getTypeNameFromSpecifier (new_PgPolymorphicPlan a b o) specifier with
  | (log, Returned _) => Forall isMatchCalled log
  | (log, Thrown e) => ∃ pre, log = pre ++ devLog isDev inspect specifier ∧ Forall isMatchCalled pre
  end.
Proof.
  unfold getTypeNameFromSpecifier, PgPolymorphic.getTypeNameFromSpecifier.
  cbn [possibleTypes types new_PgPolymorphicPlan].
  pose proof (findType_log o specifier (Object_keys o)) as Hlog.
  destruct (findType_spec o specifier (Object_keys o)) as (r & Hr & _).
  { apply getProperty_key. }
  destruct (findType o specifier (Object_keys o)) as [log c]. cbn in Hr, Hlog. subst c.
  rewrite M_bind_unfold.
  destruct (notFound r) eqn:E.
  - rewrite noMatchingType_eq. cbn. by exists log.
  - destruct r as [T|]; [|discriminate]. cbn. by rewrite app_nil_r.
Qed.

Lemma executeRow_log a b o specifier :
  match executeRow (new_PgPolymorphicPlan a b o) specifier with
  | (log, Returned _) => Forall isMatchCalled log
  | (log, Thrown e) =>
      truthy specifier = true ∧
      ∃ pre, log = pre ++ devLog isDev inspect specifier ∧ Forall isMatchCalled pre
  end.
Proof.
  unfold executeRow, PgPolymorphic.executeRow.
  destruct (truthy specifier); [|constructor].
  pose proof (getTypeNameFromSpecifier_log a b o specifier) as H.
  rewrite M_bind_unfold.
  destruct (getTypeNameFromSpecifier _ specifier) as [log [T|e]].
  - cbn. by rewrite app_nil_r.
  - done.
Qed.

(** X3.  [execute] writes to the console at most once per call.  When it
    returns, its log holds [match] consultations only; when it throws, the
    log is made of [match] consultations followed by what
    [getTypeNameFromSpecifier] writes for one truthy specifier of the
    batch: one message in development mode, nothing otherwise. *)
Theorem execute_writes_console_once_before_throwing a b o values specifiers :
  values !! b = Some specifiers →
  match execute (new_PgPolymorphicPlan a b o) values with
  | (log, Returned _) => Forall isMatchCalled log
  | (log, Thrown e) =>
      ∃ pre specifier,
        specifier ∈ specifiers ∧ truthy specifier = true ∧
        log = pre ++ devLog isDev inspect specifier ∧ Forall isMatchCalled pre
  end.
Proof.
  intros Hv. rewrite (outcome_execute (new_PgPolymorphicPlan a b o) _ _ Hv).
  clear Hv. induction specifiers as [|s specifiers IH]; [constructor|].
  cbn [mapM]. rewrite M_bind_unfold.
  pose proof (executeRow_log a b o s) as Hrow.
  destruct (executeRow _ s) as [log [r|e]].
  - rewrite M_bind_unfold.
    destruct (mapM _ specifiers) as [log' [rs|e]].
    + cbn. rewrite app_nil_r. by apply Forall_app.
    + destruct IH as (pre & s' & Hin & Ht & -> & Hpre).
      exists (log ++ pre), s'. split_and!; [by apply list_elem_of_further|done| |].
      * cbn. by rewrite <- app_assoc.
      * by apply Forall_app.
  - destruct Hrow as (Ht & pre & -> & Hpre).
    exists pre, s. split_and!; [apply list_elem_of_here|done..].
Qed.


End Resolution.

(** Evaluation of the example instance. *)

Ltac solve_noneAccepts :=
  let H := fresh in
  intros ? ? H; cbn in H;
  repeat match type of H with
         | (if ?c then _ else _) = _ => destruct c; [by injection H as <-|]
         end;
  discriminate H.

Example exampleExecute_resolves :
  outcome (exampleExecute [[JsNull; JsNull; JsNull];
                           [JsString "post"; JsNull; JsString "person"]])
  = Returned [Some "Post"; None; Some "Person"].
Proof. reflexivity. Qed.

Example exampleExecute_throws :
  outcome (exampleExecute [[JsNull; JsNull]; [JsString "person"; JsString "comment"]])
  = Thrown (Error cannotDetermine).
Proof. reflexivity. Qed.

(** C1, as stated, fails: row 0 is accepted by [Person], row 1 by no type,
    and [execute] throws instead of returning a list in which row 0 has its
    value. *)
Lemma per_row_isolation_fails :
  let values := [[JsNull; JsNull]; [JsString "person"; JsString "comment"]] in
  outcome (executeRow (λ T, T) false exampleInspect examplePlan (JsString "person"))
    = Returned (Some "Person") ∧
  noneAccepts examplePossibleTypes (JsString "comment") ∧
  ¬ ∃ rs, outcome (exampleExecute values) = Returned rs ∧
          rs !! 0 = Some (Some "Person").
Proof.
  split_and!.
  - reflexivity.
  - solve_noneAccepts.
  - intros (rs & Hrs & _). discriminate Hrs.
Qed.

(** C1 at the example batch: the whole call throws the error of row 1. *)
Lemma execute_aborts_witness :
  let values := [[JsNull; JsNull]; [JsString "person"; JsString "comment"]] in
  outcome (exampleExecute values) = Thrown (Error cannotDetermine) ↔
  ∃ i s, [JsString "person"; JsString "comment"] !! i = Some s ∧
         outcome (executeRow (λ T, T) false exampleInspect examplePlan s)
           = Thrown (Error cannotDetermine) ∧
         ∀ j s', j < i → [JsString "person"; JsString "comment"] !! j = Some s' →
                 isReturned (outcome (executeRow (λ T, T) false exampleInspect examplePlan s')) = true.
Proof.
  intros values.
  exact (proj1 (proj2 (execute_aborts_on_first_failing_row (λ T, T) false exampleInspect
                  0 1 examplePossibleTypes values _ eq_refl)) (Error cannotDetermine)).
Defined.

(** C2, as stated, fails: on a one-row batch whose specifier no type accepts
    [execute] returns no list, so not one of the input's length. *)
Lemma one_result_per_row_fails :
  let specifiers := [JsString "comment"] in
  ¬ ∃ rs, outcome (exampleExecute [[JsNull]; specifiers]) = Returned rs ∧
          length rs = length specifiers.
Proof. intros specifiers (rs & Hrs & _). discriminate Hrs. Qed.

(** C3, as stated, fails: the specifier [0] is not [null], no type accepts
    it, and the row is given [null] rather than an error. *)
Lemma non_null_falsy_specifier_yields_null :
  nonNull (JsNumber 0) = true ∧
  noneAccepts examplePossibleTypes (JsNumber 0) ∧
  exampleExecute [[JsNull]; [JsNumber 0]] = ([], Returned [None]).
Proof.
  split_and!; [reflexivity|solve_noneAccepts|reflexivity].
Qed.

(** C3 at the example batch: row 1 is given the first type that accepts
    its specifier. *)
Lemma truthy_row_witness :
  outcome (exampleExecute [[JsNull; JsNull]; [JsNull; JsString "post"]])
    = Returned [None; Some "Post"] ∧
  ∃ T, [None; Some "Post"] !! 1 = Some (Some T) ∧
       firstAccepting examplePossibleTypes (JsString "post") T.
Proof.
  split; [reflexivity|].
  exact (proj1 (proj2 (truthy_row_resolves_to_first_accepting_type (λ T, T) false
           exampleInspect 0 1 examplePossibleTypes
           [[JsNull; JsNull]; [JsNull; JsString "post"]] [JsNull; JsString "post"]
           1 (JsString "post") eq_refl eq_refl eq_refl))
         [None; Some "Post"] eq_refl).
Defined.


(** X1 at the example plan: a batch of two rows and its two halves. *)
Lemma execute_concatenated_batches_witness :
  exampleExecute [[JsNull; JsNull]; [JsString "post"; JsNull]]
  = match exampleExecute [[JsNull]; [JsString "post"]] with
    | (log1, Returned results1) =>
        match exampleExecute [[JsNull]; [JsNull]] with
        | (log2, Returned results2) => (log1 ++ log2, Returned (results1 ++ results2))
        | (log2, Thrown e) => (log1 ++ log2, Thrown e)
        end
    | (log1, Thrown e) => (log1, Thrown e)
    end.
Proof.
  apply (execute_concatenated_batches (λ T, T) false exampleInspect examplePlan
           [[JsNull]; [JsString "post"]] [[JsNull]; [JsNull]]
           [[JsNull; JsNull]; [JsString "post"; JsNull]]
           [JsString "post"] [JsNull]); reflexivity.
Defined.

Example getTypeNameFromSpecifier_stops_at_first_match :
  getTypeNameFromSpecifier false exampleInspect examplePlan (JsString "person")
  = ([MatchCalled "Person" (JsString "person")], Returned "Person").
Proof. reflexivity. Qed.

(** X2 at the example plan: [Post], the second key, is the first to
    accept, and both keys are consulted. *)
Lemma resolution_consults_types_witness :
  getTypeNameFromSpecifier false exampleInspect examplePlan (JsString "post")
  = (matchCalls (JsString "post") (take 2 (Object_keys examplePossibleTypes)),
     Returned "Post").
Proof.
  apply (proj1 (resolution_consults_types_in_key_order false exampleInspect 0 1
                  examplePossibleTypes (JsString "post"))
               1 "Post" (acceptsString "post")); [reflexivity..|].
  intros j T' spec' Hj HT' Hspec'. destruct j as [|j]; [|lia].
  injection HT' as <-. injection Hspec' as <-. reflexivity.
Defined.

(** X3 at the example plan: a batch whose only row no type accepts. *)
Lemma execute_writes_console_witness :
  match exampleExecute [[JsNull]; [JsString "comment"]] with
  | (log, Returned _) => Forall isMatchCalled log
  | (log, Thrown e) =>
      ∃ pre specifier,
        specifier ∈ [JsString "comment"] ∧ truthy specifier = true ∧
        log = pre ++ devLog false exampleInspect specifier ∧ Forall isMatchCalled pre
  end.
Proof.
  apply (execute_writes_console_once_before_throwing (λ T, T) false exampleInspect
           0 1 examplePossibleTypes [[JsNull]; [JsString "comment"]]
           [JsString "comment"]); reflexivity.
Defined.

End PgPolymorphicProps.

(** ** Behavior: last match wins *)

Module BehaviorProps.
Import Behavior.

Lemma nonEmpty_splitWhiteSpace_from_true s :
  filter (λ fragment, fragment ≠ "") (splitWhiteSpace_from true "" s)
  = filter (λ fragment, fragment ≠ "") (splitWhiteSpace_from false "" s).
Proof.
  destruct s as [|c s]; [done|]. cbn [splitWhiteSpace_from].
  destruct (isWhiteSpace c); [|done].
  by rewrite filter_cons_False by (by intros H; apply H).
Qed.

(** Joining two behavior strings with a space joins their non-empty
    fragments. *)
Lemma nonEmpty_splitWhiteSpace_from_app a : ∀ inRun piece b,
  (inRun = true → piece = "") →
  filter (λ fragment, fragment ≠ "")
    (splitWhiteSpace_from inRun piece (a ++ " " ++ b))
  = filter (λ fragment, fragment ≠ "") (splitWhiteSpace_from inRun piece a)
    ++ nonEmptyFragments b.
Proof.
  unfold nonEmptyFragments, splitWhiteSpace.
  induction a as [|c a IH]; intros inRun piece b Hrun.
  - change ("" ++ " " ++ b)%string with (String " " b). cbn [splitWhiteSpace_from].
    change (isWhiteSpace " ") with true. cbv iota.
    destruct inRun.
    + rewrite (Hrun eq_refl). rewrite filter_cons_False by (by intros H; apply H).
      rewrite filter_nil. apply nonEmpty_splitWhiteSpace_from_true.
    + rewrite !filter_cons, filter_nil, nonEmpty_splitWhiteSpace_from_true.
      by case_decide.
  - change (String c a ++ " " ++ b)%string with (String c (a ++ " " ++ b)%string).
    cbn [splitWhiteSpace_from]. destruct (isWhiteSpace c).
    + destruct inRun; [by apply IH|].
      rewrite !filter_cons, IH by done. by case_decide.
    + by apply IH.
Qed.

Lemma nonEmptyFragments_app a b :
  nonEmptyFragments (a ++ " " ++ b) = nonEmptyFragments a ++ nonEmptyFragments b.
Proof. by apply nonEmpty_splitWhiteSpace_from_app. Qed.

(** The backwards loop finds the last matching spec of a list given in
    source order. *)
Lemma matches_loop_reverse specs filterScope :
  match matches_loop (reverse specs) filterScope with
  | Some p => ∃ i spec, lastMatchAt specs filterScope i spec ∧ positive spec = p
  | None => ∀ spec, spec ∈ specs →
      scopeMatches (scope spec) filterScope (positive spec) = false
  end.
Proof.
  induction specs as [|spec specs IH] using rev_ind.
  - simpl. intros spec H. by apply not_elem_of_nil in H.
  - rewrite reverse_snoc. cbn [matches_loop].
    destruct (scopeMatches (scope spec) filterScope (positive spec)) eqn:Hm.
    + exists (length specs), spec. split; [|done]. split_and!.
      * by rewrite lookup_app_r, Nat.sub_diag.
      * done.
      * intros j spec' Hj Hl. apply lookup_lt_Some in Hl.
        rewrite length_app in Hl. simpl in Hl. lia.
    + destruct (matches_loop (reverse specs) filterScope) as [p|].
      * destruct IH as (i & spec0 & (Hi & Hm0 & Hlast) & Hp).
        exists i, spec0. split; [|done]. split_and!.
        -- by apply lookup_app_l_Some.
        -- done.
        -- intros j spec' Hj Hl. apply lookup_app_Some in Hl as [Hl|[Hlen Hl]].
           ++ by eapply Hlast.
           ++ apply list_lookup_singleton_Some in Hl as [_ <-]. done.
      * intros spec' [H|H]%elem_of_app; [by apply IH|].
        apply list_elem_of_singleton in H as ->. done.
Qed.

(** [matches] answers with the sign of the last matching spec of the list
    [parseSpecs] returns, in which the empty fragments are specs too. *)
Lemma matches_last_match self localBehaviorSpecsString filter defaultBehavior :
  let specs :=
    parseSpecs (defaultBehavior ++ " " ++ globalBehaviorDefaults self ++ " "
                  ++ specStringOrEmpty localBehaviorSpecsString) in
  let filterScope := parseScope filter in
  (∀ p, matches self localBehaviorSpecsString filter defaultBehavior = Some p ↔
        ∃ i spec, lastMatchAt specs filterScope i spec ∧ positive spec = p) ∧
  (matches self localBehaviorSpecsString filter defaultBehavior = None ↔
   ∀ spec, spec ∈ specs →
     scopeMatches (scope spec) filterScope (positive spec) = false).
Proof.
  intros specs filterScope.
  unfold matches, finalBehaviorSpecsString. fold specs filterScope.
  pose proof (matches_loop_reverse specs filterScope) as H.
  assert (∀ i j s1 s2, lastMatchAt specs filterScope i s1 →
                       lastMatchAt specs filterScope j s2 → s1 = s2) as Huniq.
  { intros i j s1 s2 (Hi & Hm1 & Hl1) (Hj & Hm2 & Hl2).
    destruct (lt_eq_lt_dec i j) as [[Hlt|Heq]|Hgt].
    - specialize (Hl1 j s2 Hlt Hj). congruence.
    - subst. congruence.
    - specialize (Hl2 i s1 Hgt Hi). congruence. }
  destruct (matches_loop (reverse specs) filterScope) as [p|]; split.
  - intros p'. split.
    + intros [= <-]. exact H.
    + intros (i & s1 & H1 & <-). destruct H as (j & s2 & H2 & <-).
      by rewrite (Huniq _ _ _ _ H1 H2).
  - split; [discriminate|]. intros Hnone.
    destruct H as (i & spec & (Hi & Hm & _) & _).
    rewrite Hnone in Hm; [discriminate|]. apply list_elem_of_lookup. by exists i.
  - intros p'. split; [discriminate|].
    intros (i & spec & (Hi & Hm & _) & _).
    rewrite H in Hm; [discriminate|]. apply list_elem_of_lookup. by exists i.
  - done.
Qed.

Example matches_local_overrides_default :
  matches new_Behavior (SpecsString "-list") "list" "+list" = Some false.
Proof. reflexivity. Qed.

Example matches_no_spec_applies :
  matches new_Behavior SpecsNull "query:connection" "-list" = None.
Proof. reflexivity. Qed.

Example matches_global_between_default_and_local :
  matches (addDefaultBehavior (addDefaultBehavior new_Behavior "-a") "b")
          (SpecsArray ["+a"; "-b"]) "b" "" = Some false
  ∧ matches (addDefaultBehavior new_Behavior "-a") SpecsUndefined "a" "+a" = Some false.
Proof. split; reflexivity. Qed.

Lemma append_cons x (a b : string) : (String x a ++ b = String x (a ++ b))%string.
Proof. reflexivity. Qed.

Lemma append_assoc (a b c : string) : ((a ++ b) ++ c = a ++ b ++ c)%string.
Proof.
  induction a as [|x a IH]; [done|]. by rewrite !append_cons, IH.
Qed.

Lemma append_nil_r (a : string) : (a ++ "" = a)%string.
Proof. induction a as [|x a IH]; [done|]. by rewrite append_cons, IH. Qed.

Lemma append_snoc piece c s : ((piece ++ String c "") ++ s = piece ++ String c s)%string.
Proof. by rewrite append_assoc. Qed.

Lemma splitOn_from_nonempty sep piece s : splitOn_from sep piece s ≠ [].
Proof.
  revert piece. induction s as [|c s IH]; intros piece; simpl; [done|].
  destruct (Ascii.eqb c sep); [done|apply IH].
Qed.

Lemma join_cons sep x a : a ≠ [] → join sep (x :: a) = (x ++ sep ++ join sep a)%string.
Proof. by destruct a. Qed.

Lemma join_splitOn_from sep piece s :
  join (String sep "") (splitOn_from sep piece s) = (piece ++ s)%string.
Proof.
  revert piece. induction s as [|c s IH]; intros piece; simpl.
  - by rewrite append_nil_r.
  - destruct (Ascii.eqb c sep) eqn:E.
    + apply Ascii.eqb_eq in E as ->.
      rewrite join_cons by apply splitOn_from_nonempty. by rewrite IH.
    + rewrite IH. apply append_snoc.
Qed.

Lemma list_ascii_of_string_app (a b : string) :
  list_ascii_of_string (a ++ b) = list_ascii_of_string a ++ list_ascii_of_string b.
Proof.
  induction a as [|x a IH]; [done|]. rewrite append_cons. simpl. by rewrite IH.
Qed.

Lemma pieces_splitOn_from sep piece s seg :
  sep ∉ list_ascii_of_string piece →
  seg ∈ splitOn_from sep piece s → sep ∉ list_ascii_of_string seg.
Proof.
  revert piece. induction s as [|c s IH]; intros piece Hp; simpl.
  - by intros ->%list_elem_of_singleton.
  - destruct (Ascii.eqb c sep) eqn:E.
    + intros [->|H]%elem_of_cons; [done|]. eapply IH; [|done]. apply not_elem_of_nil.
    + apply IH. apply Ascii.eqb_neq in E.
      rewrite list_ascii_of_string_app. simpl.
      intros [H|H]%elem_of_app; [done|].
      apply list_elem_of_singleton in H. congruence.
Qed.

(** X4.  [parseScope] always yields at least one segment, no segment
    holds a colon, and joining the segments with colons gives back the
    scope string. *)
Theorem parseScope_join_round_trip scopeString :
  join ":" (parseScope scopeString) = scopeString ∧
  parseScope scopeString ≠ [] ∧
  ∀ segment, segment ∈ parseScope scopeString →
    ":"%char ∉ list_ascii_of_string segment.
Proof.
  unfold parseScope, splitOn. split_and!.
  - apply (join_splitOn_from ":"%char "").
  - apply splitOn_from_nonempty.
  - intros segment. apply pieces_splitOn_from. apply not_elem_of_nil.
Qed.

Lemma scopeMatches_loop_plain filters : ∀ rules positive,
  length rules = length filters → "*" ∉ rules → "*" ∉ filters →
  scopeMatches_loop rules filters positive = bool_decide (rules = filters).
Proof.
  induction filters as [|f filters IH]; intros rules positive Hlen Hr Hf.
  - destruct rules; [done|discriminate].
  - destruct rules as [|r rules]; [discriminate|].
    cbn [scopeMatches_loop head tail].
    assert (String.eqb f "*" = false) as ->.
    { apply String.eqb_neq. intros ->. apply Hf, list_elem_of_here. }
    assert (bool_decide (Some r = Some "*") = false) as ->.
    { apply bool_decide_eq_false. intros [= ->]. apply Hr, list_elem_of_here. }
    cbn [andb orb negb].
    rewrite IH.
    + repeat case_bool_decide; simplify_eq; try done.
    + simpl in Hlen. lia.
    + intros H. apply Hr. by apply list_elem_of_further.
    + intros H. apply Hf. by apply list_elem_of_further.
Qed.

(** X5.  When neither scope holds a wildcard segment, [scopeMatches]
    holds exactly when the specified scope is a suffix of the filter
    scope, whatever the sign. *)
Theorem scopeMatches_without_wildcards_is_suffix specifiedScope filterScope positive :
  "*" ∉ specifiedScope → "*" ∉ filterScope →
  scopeMatches specifiedScope filterScope positive = true ↔
  specifiedScope `suffix_of` filterScope.
Proof.
  intros Hs Hf. unfold scopeMatches.
  destruct (Nat.ltb_spec (length filterScope) (length specifiedScope)) as [Hlt|Hge].
  - split; [discriminate|]. intros [k ->]. rewrite length_app in Hlt. lia.
  - assert ((if (length specifiedScope =? length filterScope)%nat then filterScope
             else drop (length filterScope - length specifiedScope) filterScope)
            = drop (length filterScope - length specifiedScope) filterScope) as ->.
    { destruct (Nat.eqb_spec (length specifiedScope) (length filterScope)) as [E|E]; [|done].
      by rewrite E, Nat.sub_diag. }
    rewrite scopeMatches_loop_plain.
    + rewrite bool_decide_eq_true. split.
      * set (n := length filterScope - length specifiedScope).
        intros H. exists (take n filterScope). rewrite H. symmetry. apply take_drop.
      * intros [k ->]. rewrite length_app.
        replace (length k + length specifiedScope - length specifiedScope) with (length k) by lia.
        by rewrite drop_app_length.
    + rewrite length_drop. lia.
    + done.
    + intros H. apply Hf. by eapply subseteq_drop.
Qed.

Lemma scopeMatches_loop_positive filters : ∀ rules,
  scopeMatches_loop rules filters false = true →
  scopeMatches_loop rules filters true = true.
Proof.
  induction filters as [|f filters IH]; intros rules; [done|].
  cbn [scopeMatches_loop].
  destruct (String.eqb f "*"), (bool_decide (head rules = Some "*")),
    (bool_decide (head rules = Some f)); cbn [andb orb negb]; try done; apply IH.
Qed.

Lemma scopeMatches_loop_sign filters : ∀ rules,
  "*" ∉ filters →
  scopeMatches_loop rules filters false = scopeMatches_loop rules filters true.
Proof.
  induction filters as [|f filters IH]; intros rules Hf; [done|].
  cbn [scopeMatches_loop].
  assert (String.eqb f "*" = false) as ->.
  { apply String.eqb_neq. intros ->. apply Hf, list_elem_of_here. }
  cbn [andb orb negb]. rewrite IH; [done|].
  intros H. apply Hf. by apply list_elem_of_further.
Qed.

(** X6.  Whatever [scopeMatches] accepts for a negative spec it accepts
    for a positive spec of the same scope; the sign makes a difference for
    filter scopes with a wildcard segment only. *)
Theorem scopeMatches_negative_implies_positive specifiedScope filterScope :
  (scopeMatches specifiedScope filterScope false = true →
   scopeMatches specifiedScope filterScope true = true) ∧
  ("*" ∉ filterScope →
   scopeMatches specifiedScope filterScope false
   = scopeMatches specifiedScope filterScope true).
Proof.
  unfold scopeMatches. split.
  - destruct (length filterScope <? length specifiedScope)%nat; [done|].
    apply scopeMatches_loop_positive.
  - intros Hf. destruct (length filterScope <? length specifiedScope)%nat; [done|].
    apply scopeMatches_loop_sign.
    destruct (length specifiedScope =? length filterScope)%nat; [done|].
    intros H. apply Hf. by eapply subseteq_drop.
Qed.

Lemma matches_loop_app a b filterScope :
  matches_loop (a ++ b) filterScope =
  match matches_loop a filterScope with
  | Some p => Some p
  | None => matches_loop b filterScope
  end.
Proof.
  induction a as [|spec a IH]; [done|]. simpl.
  by destruct (scopeMatches _ _ _).
Qed.

(** Specs whose scope does not match can be dropped from the list. *)
Lemma matches_loop_filter (keep : BehaviorSpec → bool) specs filterScope :
  (∀ spec, spec ∈ specs → keep spec = false →
     scopeMatches (scope spec) filterScope (positive spec) = false) →
  matches_loop (List.filter keep specs) filterScope = matches_loop specs filterScope.
Proof.
  induction specs as [|spec specs IH]; intros H; [done|]. simpl.
  destruct (keep spec) eqn:E; simpl.
  - rewrite IH; [done|]. intros s Hs. apply H. by apply list_elem_of_further.
  - rewrite (H spec (list_elem_of_here _ _) E). apply IH.
    intros s Hs. apply H. by apply list_elem_of_further.
Qed.

Lemma drop_last {A} (l : list A) x :
  last l = Some x → drop (length l - 1) l = [x].
Proof.
  intros H. apply last_Some in H as [l' ->].
  rewrite length_app. simpl.
  replace (length l' + 1 - 1) with (length l') by lia.
  by rewrite drop_app_length.
Qed.

(** The spec an empty fragment parses to matches a filter scope exactly
    when the last segment of that scope is a wildcard or empty. *)
Lemma scopeMatches_empty_fragment filterScope segment :
  last filterScope = Some segment →
  scopeMatches (scope (parseSpec "")) filterScope (positive (parseSpec ""))
  = bool_decide (segment = "*" ∨ segment = "").
Proof.
  intros Hlast. change (parseSpec "") with {| positive := true; scope := [""] |}.
  cbn [scope positive]. unfold scopeMatches.
  pose proof (drop_last _ _ Hlast) as Hdrop.
  apply last_Some in Hlast as [l' ->]. rewrite length_app in *.
  change (length [""]) with 1 in *. change (length [segment]) with 1 in *.
  destruct (Nat.ltb_spec (length l' + 1) 1) as [|_]; [lia|].
  match goal with
  | |- scopeMatches_loop _ ?t _ = _ => assert (t = [segment]) as ->
  end.
  { destruct (Nat.eqb_spec 1 (length l' + 1)) as [E|E]; [|done].
    destruct l'; [done|simpl in E; lia]. }
  cbn [scopeMatches_loop head tail negb andb].
  rewrite andb_false_r. cbn [orb].
  assert (bool_decide (Some "" = Some "*") = false) as -> by done.
  cbn [orb]. destruct (String.eqb_spec segment "*") as [->|Hne].
  - by rewrite bool_decide_eq_true_2 by (by left).
  - case_bool_decide as E1; case_bool_decide as E2; simpl; try done.
    + destruct E2. right. congruence.
    + destruct E2 as [?|E3]; [done|]. subst. by destruct E1.
Qed.

Lemma matches_loop_nonEmpty fragments filterScope :
  scopeMatches (scope (parseSpec "")) filterScope (positive (parseSpec "")) = false →
  matches_loop (reverse (parseSpec <$> fragments)) filterScope
  = matches_loop
      (reverse (parseSpec <$> filter (λ fragment, fragment ≠ "") fragments))
      filterScope.
Proof.
  intros Hempty. induction fragments as [|fragment fragments IH] using rev_ind; [done|].
  rewrite filter_app, !fmap_app, !reverse_app, !matches_loop_app.
  rewrite <- IH. destruct (decide (fragment = "")) as [->|Hne].
  - rewrite filter_cons_False by (by intros H; apply H). rewrite filter_nil.
    cbn [fmap list_fmap reverse rev_append matches_loop]. by rewrite Hempty.
  - rewrite filter_cons_True by done. by rewrite filter_nil.
Qed.

(** Unless the filter ends in a wildcard or an empty segment, [matches]
    sees the non-empty fragments only, layer after layer. *)
Lemma matches_layers self localBehaviorSpecsString filter defaultBehavior segment :
  last (parseScope filter) = Some segment → segment ≠ "*" → segment ≠ "" →
  matches self localBehaviorSpecsString filter defaultBehavior
  = matches_loop
      (reverse (parseSpec <$>
         (nonEmptyFragments defaultBehavior
          ++ nonEmptyFragments (globalBehaviorDefaults self)
          ++ nonEmptyFragments (specStringOrEmpty localBehaviorSpecsString))))
      (parseScope filter).
Proof.
  intros Hlast Hstar Hempty. unfold matches, parseSpecs, finalBehaviorSpecsString.
  rewrite matches_loop_nonEmpty.
  - fold (nonEmptyFragments (defaultBehavior ++ " " ++ globalBehaviorDefaults self ++ " "
                               ++ specStringOrEmpty localBehaviorSpecsString)).
    by rewrite !nonEmptyFragments_app.
  - rewrite (scopeMatches_empty_fragment _ segment Hlast).
    apply bool_decide_eq_false. intros [?|?]; done.
Qed.

Lemma last_splitWhiteSpace_from_space a : ∀ inRun piece,
  last (splitWhiteSpace_from inRun piece (a ++ " ")) = Some "".
Proof.
  induction a as [|c a IH]; intros inRun piece.
  - change ("" ++ " ")%string with (String " " ""). cbn [splitWhiteSpace_from].
    change (isWhiteSpace " ") with true. by destruct inRun.
  - rewrite append_cons. cbn [splitWhiteSpace_from].
    destruct (isWhiteSpace c); [destruct inRun|]; try apply IH.
    rewrite last_cons. by rewrite IH.
Qed.

Lemma nonEmptyFragments_addDefaultBehavior self behavior :
  nonEmptyFragments (globalBehaviorDefaults (addDefaultBehavior self behavior))
  = nonEmptyFragments (globalBehaviorDefaults self) ++ nonEmptyFragments behavior.
Proof.
  unfold addDefaultBehavior.
  destruct (String.eqb_spec (globalBehaviorDefaults self) "") as [->|_]; [done|].
  cbn [negb globalBehaviorDefaults]. apply nonEmptyFragments_app.
Qed.

Lemma nonEmptyFragments_addDefaultBehaviors behaviors : ∀ self,
  nonEmptyFragments (globalBehaviorDefaults (foldl addDefaultBehavior self behaviors))
  = nonEmptyFragments (globalBehaviorDefaults self)
    ++ (behaviors ≫= nonEmptyFragments).
Proof.
  induction behaviors as [|behavior behaviors IH]; intros self.
  - simpl. by rewrite app_nil_r.
  - cbn [foldl]. rewrite IH, nonEmptyFragments_addDefaultBehavior.
    by rewrite bind_cons, <- app_assoc.
Qed.

(** X7.  For a filter whose last segment is neither a wildcard nor
    empty, [matches] on an instance built by successive
    [addDefaultBehavior] calls answers with the last matching spec among
    the non-empty fragments of [defaultBehavior], then of each registered
    default in registration order, then of the entity's own specs. *)
Theorem matches_priority_layers behaviors localBehaviorSpecsString filter
    defaultBehavior segment :
  last (parseScope filter) = Some segment → segment ≠ "*" → segment ≠ "" →
  matches (foldl addDefaultBehavior new_Behavior behaviors)
    localBehaviorSpecsString filter defaultBehavior
  = matches_loop
      (reverse (parseSpec <$>
         (nonEmptyFragments defaultBehavior
          ++ (behaviors ≫= nonEmptyFragments)
          ++ nonEmptyFragments (specStringOrEmpty localBehaviorSpecsString))))
      (parseScope filter).
Proof.
  intros Hlast Hstar Hempty.
  rewrite (matches_layers _ _ _ _ segment) by done.
  by rewrite nonEmptyFragments_addDefaultBehaviors.
Qed.

(** X8.  When the entity has no specs of its own ([null], [undefined],
    the empty string or an empty array), the string [matches] parses ends
    with a space, so its last fragment is empty and parses to a positive
    spec whose scope is one empty segment; for a filter whose last segment
    is a wildcard or empty, that spec matches and [matches] answers
    [true], whatever the defaults say. *)
Theorem matches_wildcard_filter_without_local_specs
    self localBehaviorSpecsString filter defaultBehavior segment :
  specStringOrEmpty localBehaviorSpecsString = "" →
  last (parseScope filter) = Some segment →
  segment = "*" ∨ segment = "" →
  matches self localBehaviorSpecsString filter defaultBehavior = Some true.
Proof.
  intros Hlocal Hlast Hseg. unfold matches, parseSpecs, finalBehaviorSpecsString.
  rewrite Hlocal.
  replace (defaultBehavior ++ " " ++ globalBehaviorDefaults self ++ " " ++ "")%string
    with ((defaultBehavior ++ " " ++ globalBehaviorDefaults self) ++ " ")%string
    by (by rewrite !append_assoc).
  pose proof (last_splitWhiteSpace_from_space
                (defaultBehavior ++ " " ++ globalBehaviorDefaults self) false "") as Hl.
  apply last_Some in Hl as [fragments Hl]. unfold splitWhiteSpace. rewrite Hl.
  rewrite fmap_app, reverse_app. cbn [fmap list_fmap reverse rev_append app matches_loop].
  rewrite (scopeMatches_empty_fragment _ segment Hlast).
  by rewrite bool_decide_eq_true_2.
Qed.


(** C10 (defect of the code).  With no specs of the entity ([null]), the
    filter [a:*] and the default [-a:*], the string that is parsed is the
    default followed by two spaces; its only non-empty fragment is the
    negative spec of the default, whose scope matches the filter, so the
    answer that is due is [false].  But [split] leaves an empty last
    fragment, [parseSpecs] reads it as a positive spec of one empty
    segment, [scopeMatches] accepts that spec for a filter that ends in a
    wildcard, and [matches] answers [true].  Likewise with the specs [-b]
    and no default: the one spec that was written does not match [a:*],
    [undefined] is due, and [matches] answers [true] because of the empty
    first fragment. *)
Theorem matches_reads_empty_fragments_as_specs :
  finalBehaviorSpecsString new_Behavior SpecsNull "-a:*" = "-a:*  " ∧
  nonEmptyFragments "-a:*  " = ["-a:*"] ∧
  parseSpec "-a:*" = {| positive := false; scope := ["a"; "*"] |} ∧
  scopeMatches ["a"; "*"] (parseScope "a:*") false = true ∧
  parseSpecs "-a:*  "
  = [{| positive := false; scope := ["a"; "*"] |}; {| positive := true; scope := [""] |}] ∧
  scopeMatches [""] (parseScope "a:*") true = true ∧
  matches new_Behavior SpecsNull "a:*" "-a:*" = Some true ∧
  finalBehaviorSpecsString new_Behavior (SpecsString "-b") "" = "  -b" ∧
  nonEmptyFragments "  -b" = ["-b"] ∧
  parseSpec "-b" = {| positive := false; scope := ["b"] |} ∧
  scopeMatches ["b"] (parseScope "a:*") false = false ∧
  parseSpecs "  -b"
  = [{| positive := true; scope := [""] |}; {| positive := false; scope := ["b"] |}] ∧
  matches new_Behavior (SpecsString "-b") "a:*" "" = Some true.
Proof. repeat split; reflexivity. Qed.

(** X5 at a scope and a filter without wildcards. *)
Lemma scopeMatches_suffix_witness :
  scopeMatches ["filterBy"] ["proc"; "filterBy"] false = true ↔
  ["filterBy"] `suffix_of` ["proc"; "filterBy"].
Proof.
  apply (scopeMatches_without_wildcards_is_suffix ["filterBy"] ["proc"; "filterBy"] false);
    compute_done.
Defined.

(** X7 with two registered defaults and an entity that overrides one. *)
Lemma matches_priority_layers_witness :
  matches (foldl addDefaultBehavior new_Behavior ["-a"; "b"])
    (SpecsArray ["+a"; "-b"]) "b" ""
  = matches_loop
      (reverse (parseSpec <$>
         (nonEmptyFragments ""
          ++ (["-a"; "b"] ≫= nonEmptyFragments)
          ++ nonEmptyFragments (specStringOrEmpty (SpecsArray ["+a"; "-b"])))))
      (parseScope "b").
Proof.
  apply (matches_priority_layers ["-a"; "b"] (SpecsArray ["+a"; "-b"]) "b" "" "b");
    [reflexivity|discriminate|discriminate].
Defined.

(** X8 with a negative default for the very scope that is asked for. *)
Lemma matches_wildcard_filter_witness :
  matches new_Behavior SpecsNull "a:*" "-a:*" = Some true.
Proof.
  apply (matches_wildcard_filter_without_local_specs new_Behavior SpecsNull
           "a:*" "-a:*" "*"); [reflexivity|reflexivity|by left].
Defined.

End BehaviorProps.

(** ** PgConditionCustomFieldsPlugin: which functions become conditions *)

Module PgConditionCustomFieldsProps.
Import Behavior BehaviorProps PgConditionCustomFields.

Lemma existsb_imap_ext {A} (f : A → bool) l : ∀ g : nat → A → bool,
  (∀ i p, g i p = f p) →
  existsb (λ b : bool, b) (imap g l) = existsb f l.
Proof.
  induction l as [|y l IH]; intros g Hg; [done|].
  cbn [imap existsb]. rewrite Hg. f_equal. apply IH. intros i p. apply Hg.
Qed.

Lemma existsb_imap_later {A} (f : A → bool) x l :
  existsb (λ b : bool, b) (imap (λ i p, (0 <? i)%nat && f p) (x :: l)) = existsb f l.
Proof.
  cbn [imap existsb]. change (0 <? 0)%nat with false. cbn [andb orb].
  by apply existsb_imap_ext.
Qed.

Section Plugin.

Context (getBehavior : PgSource → LocalBehaviorSpecs).

Lemma matches_proc_filterBy self localBehaviorSpecsString :
  matches self localBehaviorSpecsString "proc:filterBy" "-proc:filterBy"
  = Some (default false
      (matches_loop
         (reverse (parseSpec <$>
            (nonEmptyFragments (globalBehaviorDefaults self)
             ++ nonEmptyFragments (specStringOrEmpty localBehaviorSpecsString))))
         ["proc"; "filterBy"])).
Proof.
  rewrite (matches_layers _ _ _ _ "filterBy") by done.
  change (nonEmptyFragments "-proc:filterBy") with ["-proc:filterBy"].
  change (parseScope "proc:filterBy") with ["proc"; "filterBy"].
  rewrite fmap_app, reverse_app, matches_loop_app.
  by destruct (matches_loop _ _).
Qed.

Lemma matches_loop_Some_true specs filterScope :
  matches_loop specs filterScope = Some true →
  ∃ spec, spec ∈ specs ∧ positive spec = true ∧
          scopeMatches (scope spec) filterScope true = true.
Proof.
  induction specs as [|spec specs IH]; [discriminate|]. simpl.
  destruct (scopeMatches (scope spec) filterScope (positive spec)) eqn:E.
  - intros [= Hp]. exists spec. rewrite Hp in E. split_and!; [apply list_elem_of_here|done..].
  - intros (s & Hs & H)%IH. exists s. split; [by apply list_elem_of_further|done].
Qed.

(** X9.  A source is kept by the filter of the plugin only if its first
    parameter has the codec of the condition, no later parameter is
    required, the source is unique, and some non-empty fragment of the
    global defaults or of the source's own behavior is a positive spec
    that matches [proc:filterBy]: the default the plugin passes is
    negative.  A kept source never has the codec of the condition when
    that codec has columns. *)
Theorem function_source_needs_positive_behavior behavior pgCodec source :
  isFunctionSource getBehavior behavior pgCodec source = true →
  (∃ first rest,
     parameters source = Some (first :: rest) ∧
     codecRef (parameterCodec first) = codecRef pgCodec ∧
     Forall (λ p, required p = false) rest) ∧
  isUnique source = true ∧
  (hasColumns pgCodec = true → codec source ≠ pgCodec) ∧
  ∃ fragment,
    fragment ∈ nonEmptyFragments (globalBehaviorDefaults behavior)
               ++ nonEmptyFragments (specStringOrEmpty (getBehavior source)) ∧
    positive (parseSpec fragment) = true ∧
    scopeMatches (scope (parseSpec fragment)) ["proc"; "filterBy"] true = true.
Proof.
  unfold isFunctionSource.
  destruct (hasColumns (codec source)) eqn:Hcols; [discriminate|].
  destruct (hasArrayOfCodec (codec source)); [discriminate|].
  destruct (hasRangeOfCodec (codec source)); [discriminate|].
  destruct (parameters source) as [[|first rest]|]; [discriminate| |discriminate].
  cbn [length]. change (S (length rest) <? 1)%nat with false. cbv iota.
  rewrite existsb_imap_later.
  destruct (existsb required rest) eqn:Hreq; [discriminate|].
  cbn [lookup list_lookup].
  destruct (Nat.eqb_spec (codecRef (parameterCodec first)) (codecRef pgCodec)) as [Href|];
    [|discriminate].
  cbn [negb]. destruct (isUnique source); [|discriminate]. cbn [negb].
  rewrite matches_proc_filterBy. cbn [default].
  destruct (matches_loop _ _) as [[|]|] eqn:Hloop; [|discriminate..]. intros _.
  split_and!.
  - exists first, rest. split_and!; [done..|].
    apply Forall_forall. intros p Hp. apply not_true_is_false. intros Hr.
    assert (existsb required rest = true) as Habs; [|congruence].
    apply existsb_exists. exists p. split; [by apply list_elem_of_In|done].
  - done.
  - intros Hc Heq. congruence.
  - apply matches_loop_Some_true in Hloop as (spec & Hin & Hp & Hm).
    apply elem_of_reverse, list_elem_of_fmap in Hin as (fragment & -> & Hin).
    by exists fragment.
Qed.

End Plugin.

(** X9 for a function that opts in through its own behavior. *)
Lemma function_source_witness :
  ∃ fragment,
    fragment ∈ nonEmptyFragments (globalBehaviorDefaults new_Behavior)
               ++ nonEmptyFragments
                    (specStringOrEmpty (SpecsString "+proc:filterBy")) ∧
    positive (parseSpec fragment) = true ∧
    scopeMatches (scope (parseSpec fragment)) ["proc"; "filterBy"] true = true.
Proof.
  apply (function_source_needs_positive_behavior (λ _, SpecsString "+proc:filterBy")
           new_Behavior exampleTableCodec exampleFunctionSource).
  reflexivity.
Defined.

Example function_source_off_by_default :
  isFunctionSource (λ _, SpecsNull) new_Behavior exampleTableCodec exampleFunctionSource
  = false.
Proof. reflexivity. Qed.

End PgConditionCustomFieldsProps.

(** ** Middlewares: synchronous activities *)

Module MiddlewareProps.
Import Middleware.

Section Frames.

Context {Value Arg : Type} (isPromiseLike : Value → bool).
Context (promiseThen : Value → (Value → MW Value) → (JsError → MW Value) → Value).

Abbreviation makeNext := (makeNext isPromiseLike promiseThen).
Abbreviation checked := (checked isPromiseLike).
Abbreviation nextOf := (nextOf isPromiseLike promiseThen).
Abbreviation executeMiddleware := (executeMiddleware (Arg:=Arg) isPromiseLike promiseThen).
Abbreviation executeMiddleware_from :=
  (executeMiddleware_from (Arg:=Arg) isPromiseLike promiseThen).
Abbreviation runSync := (runSync (Arg:=Arg) isPromiseLike promiseThen).
Abbreviation run := (run (Arg:=Arg) isPromiseLike promiseThen).

Lemma MW_bind_unfold {A B} (m : MW A) (f : A → MW B) st :
  (m ≫= f) st =
  match m st with
  | (Returned a, st') => f a st'
  | (Thrown e, st') => (Thrown e, st')
  end.
Proof. reflexivity. Qed.

Lemma makeNext_alloc fn st :
  makeNext fn st = (Returned (nextOf st fn), st ++ [false]).
Proof. reflexivity. Qed.

Lemma call_nextOf st fn : call (nextOf st fn) = fn.
Proof. reflexivity. Qed.

Lemma executeMiddleware_from_cons activityName allowAsync activity arg maxIdx
    middleware rest idx st :
  executeMiddleware_from activityName allowAsync activity arg maxIdx
    (middleware :: rest) idx st =
  checked activityName allowAsync idx
    (middleware
       (nextOf st
          (if (idx =? maxIdx)%Z then activity arg
           else executeMiddleware_from activityName allowAsync activity arg maxIdx
                  rest (idx + 1)))
       arg (st ++ [false])).
Proof.
  cbn [Middleware.executeMiddleware_from]. rewrite MW_bind_unfold, makeNext_alloc.
  rewrite MW_bind_unfold. unfold checked.
  destruct (middleware _ arg (st ++ [false])) as [[result|e] st']; [|reflexivity].
  by destruct (negb allowAsync && isPromiseLike result).
Qed.

Lemma executeMiddleware_from_nil activityName allowAsync activity arg maxIdx idx st :
  executeMiddleware_from activityName allowAsync activity arg maxIdx [] idx st =
  (Thrown (TypeError "middleware is not a function"), st ++ [false]).
Proof. reflexivity. Qed.

Lemma checked_Returned activityName idx r v st :
  checked activityName false idx r = (Returned v, st) → isPromiseLike v = false.
Proof.
  destruct r as [[result|e] st']; simpl; [|discriminate].
  destruct (isPromiseLike result) eqn:E; [discriminate|]. by intros [= <- _].
Qed.

(** The frame at a valid index, unfolded once. *)
Lemma executeMiddleware_frame activityName allowAsync middlewares activity arg
    maxIdx (idx : nat) (middleware : RealActivityFn Value Arg) st :
  middlewares !! idx = Some middleware →
  executeMiddleware activityName allowAsync middlewares activity arg
    (Z.of_nat idx) maxIdx st =
  checked activityName allowAsync (Z.of_nat idx)
    (middleware
       (nextOf st
          (if (Z.of_nat idx =? maxIdx)%Z then activity arg
           else executeMiddleware activityName allowAsync middlewares activity arg
                  (Z.of_nat idx + 1) maxIdx))
       arg (st ++ [false])).
Proof.
  intros Hidx. unfold executeMiddleware, Middleware.executeMiddleware.
  rewrite Nat2Z.id.
  replace (Z.to_nat (Z.of_nat idx + 1)) with (S idx) by lia.
  rewrite (drop_S (A:=RealActivityFn Value Arg) _ _ _ Hidx).
  apply executeMiddleware_from_cons.
Qed.

(** C9 (as amended).  With no middleware registered for the activity,
    [runSync] is the activity itself, whatever it returns.  With
    middlewares registered, [runSync] never returns a promise-like value,
    and every frame of [executeMiddleware] (with [allowAsync = false])
    passes on what its middleware returns or throws, except that it throws
    the error naming the activity and the index exactly when that
    middleware returns a promise-like value. *)
Theorem runSync_rejects_promises_of_registered_middlewares
    (self : Middlewares Value Arg) activityName arg activity :
  match self !! activityName with
  | None => runSync self activityName arg activity = activity arg
  | Some middlewares =>
      let maxIdx := (Z.of_nat (length middlewares) - 1)%Z in
      (∀ st v st',
         runSync self activityName arg activity st = (Returned v, st') →
         isPromiseLike v = false) ∧
      (∀ (idx : nat) (middleware : RealActivityFn Value Arg) st,
         middlewares !! idx = Some middleware →
         let next :=
           nextOf st
             (if (Z.of_nat idx =? maxIdx)%Z then activity arg
              else executeMiddleware activityName false middlewares activity arg
                     (Z.of_nat idx + 1) maxIdx) in
         executeMiddleware activityName false middlewares activity arg
           (Z.of_nat idx) maxIdx st =
         match middleware next arg (st ++ [false]) with
         | (Returned result, st') =>
             if isPromiseLike result
             then (Thrown (Error (synchronousActivityMessage activityName (Z.of_nat idx))), st')
             else (Returned result, st')
         | (Thrown e, st') => (Thrown e, st')
         end)
  end.
Proof.
  unfold runSync, Middleware.runSync.
  destruct (self !! activityName) as [middlewares|]; [|reflexivity].
  cbv beta iota zeta. split.
  - intros st v st'. destruct middlewares as [|middleware rest].
    + unfold Middleware.executeMiddleware. simpl. discriminate.
    + rewrite (executeMiddleware_frame activityName false (middleware :: rest)
                 activity arg _ 0 middleware st eq_refl).
      apply checked_Returned.
  - intros idx middleware st Hidx.
    rewrite (executeMiddleware_frame activityName false middlewares activity arg
               _ idx middleware st Hidx).
    reflexivity.
Qed.

End Frames.

Section Chains.

Context {Value Arg : Type} (isPromiseLike : Value → bool).
Context (promiseThen : Value → (Value → MW Value) → (JsError → MW Value) → Value).

Abbreviation makeNext := (makeNext isPromiseLike promiseThen).
Abbreviation checked := (checked isPromiseLike).
Abbreviation nextOf := (nextOf isPromiseLike promiseThen).
Abbreviation executeMiddleware := (executeMiddleware (Arg:=Arg) isPromiseLike promiseThen).
Abbreviation executeMiddleware_from :=
  (executeMiddleware_from (Arg:=Arg) isPromiseLike promiseThen).
Abbreviation runSync := (runSync (Arg:=Arg) isPromiseLike promiseThen).
Abbreviation run := (run (Arg:=Arg) isPromiseLike promiseThen).

Lemma lookup_register_eq (self : Middlewares Value Arg) event fn :
  register self event fn !! event = Some (default [] (self !! event) ++ [fn]).
Proof.
  unfold register, Middlewares in *.
  destruct (lookup event self) as [list|] eqn:E; by rewrite lookup_insert_eq.
Qed.

Lemma lookup_register_ne (self : Middlewares Value Arg) e event fn :
  e ≠ event → register self e fn !! event = self !! event.
Proof.
  intros Hne. unfold register, Middlewares in *.
  destruct (lookup e self) as [list|] eqn:E; by rewrite lookup_insert_ne.
Qed.

Lemma registerAll_lookup registrations : ∀ (self : Middlewares Value Arg) event,
  registerAll self registrations !! event =
  match self !! event, registeredFor event registrations with
  | None, [] => None
  | None, fns => Some fns
  | Some list, fns => Some (list ++ fns)
  end.
Proof.
  unfold registerAll, registeredFor.
  induction registrations as [|[e fn] registrations IH]; intros self event.
  - simpl. destruct (self !! event); [by rewrite app_nil_r|done].
  - cbn [foldl]. rewrite IH. rewrite filter_cons. cbn [fst snd].
    destruct (decide (e = event)) as [->|Hne].
    + rewrite lookup_register_eq. cbn [fmap list_fmap snd].
      destruct (self !! event) as [list|]; [|done].
      cbn [default]. by rewrite <- app_assoc.
    + by rewrite lookup_register_ne.
Qed.

(** X10.  After any sequence of [register] calls on a new instance, the
    list stored for an event holds the functions registered for that
    event, in registration order; for an event nothing was registered for
    the property is [undefined], so no stored list is empty. *)
Theorem register_keeps_order_per_event
    (registrations : list (string * RealActivityFn Value Arg)) event :
  registerAll new_Middlewares registrations !! event =
  match registeredFor event registrations with
  | [] => None
  | fns => Some fns
  end.
Proof.
  rewrite registerAll_lookup.
  assert ((new_Middlewares : Middlewares Value Arg) !! event = None) as ->; [|done].
  apply (lookup_empty (M:=gmap string)).
Qed.
Lemma checked_idempotent activityName idx idx' r :
  checked activityName false idx (checked activityName false idx' r)
  = checked activityName false idx' r.
Proof.
  destruct r as [[result|e] st]; [|done]. simpl.
  destruct (isPromiseLike result) eqn:E; simpl; [done|]. by rewrite E.
Qed.

Lemma replicate_snoc_cons {A} (x : A) n : [x] ++ replicate n x = replicate n x ++ [x].
Proof. induction n as [|n IH]; [done|]. simpl. f_equal. exact IH. Qed.

(** A chain of middlewares that only pass on [next()], from any index to
    the last one. *)
Lemma executeMiddleware_from_passesThrough activityName allowAsync activity arg
    (rest : list (RealActivityFn Value Arg)) : ∀ idx st,
  rest ≠ [] → Forall passesThrough rest →
  executeMiddleware_from activityName allowAsync activity arg
    (idx + Z.of_nat (length rest) - 1) rest idx st
  = checked activityName allowAsync (idx + Z.of_nat (length rest) - 1)
      (activity arg (st ++ replicate (length rest) false)).
Proof.
  induction rest as [|middleware rest IH]; intros idx st Hne Hall; [done|].
  apply Forall_cons in Hall as [Hm Hall].
  rewrite executeMiddleware_from_cons, Hm, call_nextOf.
  destruct rest as [|middleware' rest].
  - cbn [length replicate]. replace (idx + Z.of_nat 1 - 1)%Z with idx by lia.
    by rewrite Z.eqb_refl.
  - assert ((idx =? idx + Z.of_nat (length (middleware :: middleware' :: rest)) - 1)%Z = false)
      as -> by (apply Z.eqb_neq; cbn [length]; lia).
    replace (idx + Z.of_nat (length (middleware :: middleware' :: rest)) - 1)%Z
      with ((idx + 1) + Z.of_nat (length (middleware' :: rest)) - 1)%Z
      by (cbn [length]; lia).
    rewrite IH by done.
    replace ((st ++ [false]) ++ replicate (length (middleware' :: rest)) false)
      with (st ++ replicate (length (middleware :: middleware' :: rest)) false)
      by (rewrite <- app_assoc; f_equal).
    destruct allowAsync.
    + by destruct (activity arg _) as [[result|e] st'].
    + apply checked_idempotent.
Qed.

(** X11.  When every middleware registered for an activity only returns
    [next()], [run] is the activity itself (run once one [called]
    variable per middleware has been allocated), and [runSync] is the
    activity except that a promise-like result becomes the error that
    names the last middleware. *)
Theorem pass_through_middlewares_are_transparent
    (self : Middlewares Value Arg) activityName arg activity middlewares st :
  self !! activityName = Some middlewares →
  middlewares ≠ [] →
  Forall passesThrough middlewares →
  let fresh := replicate (length middlewares) false in
  run self activityName arg activity st = activity arg (st ++ fresh) ∧
  runSync self activityName arg activity st
  = match activity arg (st ++ fresh) with
    | (Returned result, st') =>
        if isPromiseLike result
        then (Thrown (Error (synchronousActivityMessage activityName
                               (Z.of_nat (length middlewares) - 1))), st')
        else (Returned result, st')
    | (Thrown e, st') => (Thrown e, st')
    end.
Proof.
  intros Hself Hne Hall fresh. unfold run, runSync, Middleware.run, Middleware.runSync.
  rewrite Hself. cbv zeta.
  unfold executeMiddleware, Middleware.executeMiddleware.
  change (Z.to_nat 0) with 0%nat. rewrite drop_0.
  pose proof (executeMiddleware_from_passesThrough activityName) as H.
  split.
  - pose proof (H true activity arg middlewares 0%Z st Hne Hall) as H'.
    rewrite Z.add_0_l in H'. rewrite H'.
    by destruct (activity arg _) as [[result|e] st'].
  - pose proof (H false activity arg middlewares 0%Z st Hne Hall) as H'.
    rewrite Z.add_0_l in H'. rewrite H'. reflexivity.
Qed.

(** X12.  [next.callback] runs the wrapped function at most once: after
    one call of it, made where its [called] variable is still [false] and
    with a function and a callback that do not reset that variable, any
    further [next.callback] throws the fixed error and leaves the store as
    it is.  The plain call [next()] is the wrapped function itself and is
    not guarded. *)
Theorem next_callback_runs_at_most_once fn st0 handler handler' st1 r st2 :
  let next := nextOf st0 fn in
  let called := length st0 in
  keepsCalled called fn →
  (∀ params, keepsCalled called (handler params)) →
  st1 !! called = Some false →
  callback next handler st1 = (r, st2) →
  callback next handler' st2 = (Thrown (Error alreadyCalled), st2) ∧
  call next = fn.
Proof.
  intros next called Hfn Hhandler Hst1 Hcall. split; [|reflexivity].
  assert (st2 !! called = Some true) as Hst2.
  { revert Hcall. subst next. cbn [callback nextOf Middleware.nextOf Middleware.makeNext].
    fold called. rewrite Hst1. change (default false (Some false)) with false. cbv iota.
    assert (<[called:=true]> st1 !! called = Some true) as Hset.
    { apply list_lookup_insert_eq. by eapply lookup_lt_Some. }
    pose proof (Hfn _ Hset) as Hfn'.
    destruct (fn (<[called:=true]> st1)) as [[result|e] st3]; cbn [snd] in Hfn'.
    - destruct (isPromiseLike result).
      + by intros [= _ <-].
      + intros Hh. pose proof (Hhandler (ResultParams result) _ Hfn') as H.
        by rewrite Hh in H.
    - intros Hh. pose proof (Hhandler (ErrorParams e) _ Hfn') as H.
      by rewrite Hh in H. }
  subst next. cbn [callback nextOf Middleware.nextOf Middleware.makeNext].
  fold called. by rewrite Hst2.
Qed.

End Chains.

(** Evaluation on the example values. *)

Example runSync_passes_plain_results :
  exampleRunSync (register new_Middlewares "validate" passThrough)
                 (λ _, mret (Plain 3))
  = (Returned (Plain 3), [false]).
Proof. reflexivity. Qed.

Example runSync_throws_on_promise :
  exampleRunSync (register (register new_Middlewares "validate" passThrough)
                           "validate" returnsPromise)
                 (λ _, mret (Plain 3))
  = (Thrown (Error "'validate' is a synchronous activity, all middlewares must be synchronous but the middleware at index 1 returned a promise."),
     [false; false]).
Proof. vm_compute. reflexivity. Qed.

(** The error of an inner frame can be caught by an outer middleware, and
    then [runSync] returns normally. *)
Example runSync_outer_middleware_may_catch :
  exampleRunSync (register (register new_Middlewares "validate" swallowsErrors)
                           "validate" returnsPromise)
                 (λ _, mret (Plain 3))
  = (Returned (Plain 0), [true; false]).
Proof. vm_compute. reflexivity. Qed.

(** C9, as stated, fails: with no middleware registered, [runSync] returns
    the promise the activity returns. *)
Lemma runSync_returns_promise_when_nothing_registered :
  exampleRunSync new_Middlewares (λ _, mret (Promise 1)) = (Returned (Promise 1), []) ∧
  exampleIsPromiseLike (Promise 1) = true.
Proof. split; reflexivity. Qed.

(** C9 with one middleware registered: what [runSync] returns is not
    promise-like. *)
Lemma runSync_registered_witness :
  exampleRunSync (register new_Middlewares "validate" passThrough)
                 (λ _, mret (Plain 3))
    = (Returned (Plain 3), [false]) ∧
  exampleIsPromiseLike (Plain 3) = false.
Proof.
  split; [reflexivity|].
  exact (proj1 (runSync_rejects_promises_of_registered_middlewares
                  exampleIsPromiseLike examplePromiseThen
                  (register new_Middlewares "validate" passThrough) "validate" tt
                  (λ _, mret (Plain 3)))
               [] (Plain 3) [false] eq_refl).
Defined.

(** X11 with one pass-through middleware registered. *)
Lemma pass_through_witness :
  run exampleIsPromiseLike examplePromiseThen
    (register new_Middlewares "validate" passThrough) "validate" tt
    (λ _, mret (Promise 1)) []
  = (Returned (Promise 1), [false]) ∧
  exampleRunSync (register new_Middlewares "validate" passThrough)
    (λ _, mret (Promise 1))
  = (Thrown (Error (synchronousActivityMessage "validate" 0)), [false]).
Proof.
  assert (Forall (passesThrough (Value:=ExampleValue) (Arg:=unit)) [passThrough])
    as Hall by (repeat constructor).
  exact (pass_through_middlewares_are_transparent exampleIsPromiseLike examplePromiseThen
           (register new_Middlewares "validate" passThrough) "validate" tt
           (λ _, mret (Promise 1)) [passThrough] [] eq_refl
           ltac:(discriminate) Hall).
Defined.

(** X12 for a [next] built on an empty store and called back once. *)
Lemma next_callback_witness :
  callback (nextOf exampleIsPromiseLike examplePromiseThen [] (mret (Plain 1)))
    (λ _, mret (Plain 2)) [true]
  = (Thrown (Error alreadyCalled), [true]) ∧
  call (nextOf exampleIsPromiseLike examplePromiseThen [] (mret (Plain 1)))
  = mret (Plain 1).
Proof.
  apply (next_callback_runs_at_most_once exampleIsPromiseLike examplePromiseThen
           (mret (Plain 1)) [] (λ _, mret (Plain 0)) (λ _, mret (Plain 2))
           [false] (Returned (Plain 0)) [true]).
  - intros st Hst. exact Hst.
  - intros params st Hst. exact Hst.
  - reflexivity.
  - reflexivity.
Defined.

End MiddlewareProps.

(** ** Node id codecs and handlers *)

Module NodeIdProps.
Import Behavior BehaviorProps NodeId.

(** Splitting a string that holds no separator. *)
Lemma splitOn_from_plain sep piece s :
  sep ∉ list_ascii_of_string s →
  splitOn_from sep piece s = [(piece ++ s)%string].
Proof.
  revert piece. induction s as [|c s IH]; intros piece Hs; simpl.
  - by rewrite append_nil_r.
  - destruct (Ascii.eqb_spec c sep) as [->|Hne].
    + exfalso. apply Hs. simpl. apply list_elem_of_here.
    + rewrite IH; [by rewrite append_snoc|].
      intros H. apply Hs. simpl. by apply list_elem_of_further.
Qed.

Lemma splitOn_from_app sep piece a b :
  sep ∉ list_ascii_of_string a →
  splitOn_from sep piece (a ++ String sep b)
  = (piece ++ a)%string :: splitOn_from sep "" b.
Proof.
  revert piece. induction a as [|c a IH]; intros piece Ha.
  - change ("" ++ String sep b)%string with (String sep b). cbn [splitOn_from].
    by rewrite Ascii.eqb_refl, append_nil_r.
  - rewrite append_cons. cbn [splitOn_from].
    destruct (Ascii.eqb_spec c sep) as [->|Hne].
    + exfalso. apply Ha. simpl. apply list_elem_of_here.
    + rewrite IH; [by rewrite append_snoc|].
      intros H. apply Ha. simpl. by apply list_elem_of_further.
Qed.

Lemma splitOn_join sep parts :
  parts ≠ [] →
  Forall (λ part, sep ∉ list_ascii_of_string part) parts →
  splitOn sep (join (String sep "") parts) = parts.
Proof.
  unfold splitOn. intros Hne Hall. induction Hall as [|part parts Hpart Hall IH]; [done|].
  destruct parts as [|part' parts].
  - cbn [join]. by rewrite splitOn_from_plain.
  - rewrite join_cons by done.
    change (part ++ String sep "" ++ join (String sep "") (part' :: parts))%string
      with (part ++ String sep (join (String sep "") (part' :: parts)))%string.
    rewrite splitOn_from_app by done. by rewrite IH.
Qed.

Section Codecs.

Context (ToString : JsValue → string).
Context (base64JSONEncode base64JSONDecode : JsValue → completion JsValue).

Lemma elementString_JsString (parts : list string) :
  elementString ToString <$> (JsString <$> parts) = parts.
Proof. induction parts as [|part parts IH]; [done|]. cbn. by rewrite IH. Qed.

(** X13.  [pipeStringEncode(pipeStringDecode(s))] is [s] for every
    string [s]. *)
Theorem pipeString_encode_after_decode s :
  pipeStringEncode ToString (pipeStringDecode (JsString s)) = JsString s.
Proof.
  unfold pipeStringDecode, pipeStringEncode. f_equal.
  rewrite elementString_JsString.
  apply (join_splitOn_from "|"%char "").
Qed.

(** X14.  [pipeStringDecode(pipeStringEncode(a))] is [a] for every
    non-empty array [a] of strings that hold no pipe character. *)
Theorem pipeString_decode_after_encode parts :
  parts ≠ [] →
  Forall (λ part, "|"%char ∉ list_ascii_of_string part) parts →
  pipeStringDecode (pipeStringEncode ToString (JsArray (JsString <$> parts)))
  = JsArray (JsString <$> parts).
Proof.
  intros Hne Hall. unfold pipeStringDecode, pipeStringEncode. do 2 f_equal.
  rewrite elementString_JsString.
  by apply (splitOn_join "|"%char).
Qed.

(** X15.  The function [specForHandler] builds never throws: it returns
    [null] or the decoded specifier, and it returns the decoded specifier
    whenever the codec decodes the node id without throwing and the
    [match] of the handler accepts the result. *)
Theorem specForHandler_swallows_errors handler nodeId :
  ∃ result,
    specForHandler handler nodeId = Returned result ∧
    (result = JsNull ∨
     decode (codec handler) nodeId = Returned result ∧
     match_ handler result = Returned true) ∧
    (∀ specifier,
       decode (codec handler) nodeId = Returned specifier →
       match_ handler specifier = Returned true → result = specifier).
Proof.
  unfold specForHandler.
  destruct (decode (codec handler) nodeId) as [specifier|e] eqn:Hd; cbn.
  - destruct (match_ handler specifier) as [[|]|e] eqn:Hm; cbn.
    + exists specifier. split_and!; [done|by right|]. by intros ? [= <-] _.
    + exists JsNull. split_and!; [done|by left|]. intros ? [= <-] ?. congruence.
    + exists JsNull. split_and!; [done|by left|]. intros ? [= <-] ?. congruence.
  - exists JsNull. split_and!; [done|by left|]. discriminate.
Qed.

(** X16.  For the [Query] handler the specifier function returns its
    argument when that is the string [query] and [null] otherwise.  For
    the [Network] handler a result other than [null] is what
    [base64JSONDecode] returned, and it is an array whose first element,
    or an object whose property [0], is the string [networks]. *)
Theorem specForHandler_of_the_two_handlers nodeId :
  specForHandler handler nodeId
  = Returned (if strictEqualsString nodeId "query" then nodeId else JsNull) ∧
  ∀ result,
    specForHandler (networkHandler base64JSONEncode base64JSONDecode) nodeId
    = Returned result →
    result ≠ JsNull →
    base64JSONDecode nodeId = Returned result ∧
    ((∃ rest, result = JsArray (JsString "networks" :: rest)) ∨
     (∃ properties, result = JsObject properties ∧
        snd <$> List.find (λ p, String.eqb p.1 "0") properties
        = Some (JsString "networks"))).
Proof.
  split.
  - unfold specForHandler. cbn.
    destruct nodeId as [| | | | |s| |]; try done. cbn.
    by destruct (String.eqb s "query").
  - intros result. unfold specForHandler. cbn.
    destruct (base64JSONDecode nodeId) as [specifier|e]; cbn; [|intros [= <-] Hnull; by destruct Hnull].
    destruct (getIndex0 specifier) as [first|e] eqn:Hfirst; cbn; [|intros [= <-] Hnull; by destruct Hnull].
    destruct (strictEqualsString first "networks") eqn:Heq; cbn; [|intros [= <-] Hnull; by destruct Hnull].
    intros [= <-] _. split; [done|].
    destruct first as [| | | | |s| |]; try discriminate.
    cbn in Heq. apply String.eqb_eq in Heq as ->.
    destruct specifier as [| |b|n| |s|items|properties]; try discriminate.
    + destruct s as [|c s]; discriminate.
    + left. destruct items as [|item items]; [discriminate|].
      injection Hfirst as ->. by eexists.
    + right. exists properties. split; [done|]. cbn in Hfirst.
      destruct (List.find _ properties) as [[k v]|]; [|discriminate].
      cbn in *. congruence.
Qed.

End Codecs.

(** X14 on the specifier of a network node. *)
Lemma pipeString_decode_after_encode_witness :
  pipeStringDecode
    (pipeStringEncode (λ _, "") (JsArray (JsString <$> ["networks"; "1"])))
  = JsArray (JsString <$> ["networks"; "1"]).
Proof.
  apply (pipeString_decode_after_encode (λ _, "") ["networks"; "1"]).
  - discriminate.
  - repeat constructor; compute_done.
Defined.

(** X16 for a decoder that knows the node id of one network. *)
Lemma specForHandler_network_witness :
  exampleBase64JSONDecode (JsString "WyJuZXR3b3JrcyIsMV0=")
  = Returned (JsArray [JsString "networks"; JsNumber 1]) ∧
  ((∃ rest, JsArray [JsString "networks"; JsNumber 1]
            = JsArray (JsString "networks" :: rest)) ∨
   (∃ properties, JsArray [JsString "networks"; JsNumber 1] = JsObject properties ∧
      snd <$> List.find (λ p, String.eqb p.1 "0") properties
      = Some (JsString "networks"))).
Proof.
  apply (proj2 (specForHandler_of_the_two_handlers
                  (λ v, Returned v) exampleBase64JSONDecode
                  (JsString "WyJuZXR3b3JrcyIsMV0="))
               (JsArray [JsString "networks"; JsNumber 1])); [reflexivity|discriminate].
Defined.

Example specForHandler_swallows_decode_errors :
  specForHandler (networkHandler (λ v, Returned v) exampleBase64JSONDecode)
    (JsString "not a node id")
  = Returned JsNull.
Proof. reflexivity. Qed.

(** The empty array is not decoded back: its encoding is the empty
    string, which decodes to one empty part. *)
Example pipeString_empty_array :
  pipeStringDecode (pipeStringEncode (λ _, "") (JsArray [])) = JsArray [JsString ""].
Proof. reflexivity. Qed.

End NodeIdProps.

(** ** Ordering a connection *)

Module OrderByProps.
Import OrderBy.

Section Orders.

Context {Select : Type} (applyPlanOf : JsValue → string + ApplyPlan Select).

Lemma applyOrders_valid orders : ∀ plans select rest,
  Forall2 (λ order plan, applyPlanOf order = inr plan) orders plans →
  applyOrders applyPlanOf (orders ++ rest) select
  = match applyAll plans select with
    | (select', None) => applyOrders applyPlanOf rest select'
    | (select', Some e) =>
        {| console := []; selectAfter := select'; thrown := Some (JsFailure e) |}
    end.
Proof.
  induction orders as [|order orders IH]; intros plans select rest Hplans.
  - apply Forall2_nil_inv_l in Hplans as ->. reflexivity.
  - apply Forall2_cons_inv_l in Hplans as (plan & plans' & Hplan & Hplans & ->).
    cbn [app applyOrders applyAll]. rewrite Hplan.
    destruct (plan select) as [select' [e|]]; [reflexivity|].
    by apply IH.
Qed.

(** X26.  [applyOrderToPlan] does nothing for [null] and [undefined];
    throws the error [Invalid!] for any other value that is not an array,
    leaving the step alone; and for an array applies the plans of its
    elements from left to right.  It stops at the first plan that throws,
    and at the first element for which no function is configured: then it
    writes one message to the console and throws a [SafeError], the plans
    of the earlier elements having been applied and staying so. *)
Theorem applyOrderToPlan_applies_in_order_without_rollback select val :
  (val = JsNull ∨ val = JsUndefined →
   applyOrderToPlan applyPlanOf select val
   = {| console := []; selectAfter := select; thrown := None |}) ∧
  ((∀ orders, val ≠ JsArray orders) → val ≠ JsNull → val ≠ JsUndefined →
   applyOrderToPlan applyPlanOf select val
   = {| console := []; selectAfter := select;
        thrown := Some (JsFailure (Error "Invalid!")) |}) ∧
  (∀ orders plans,
     val = JsArray orders →
     Forall2 (λ order plan, applyPlanOf order = inr plan) orders plans →
     applyOrderToPlan applyPlanOf select val
     = {| console := [];
          selectAfter := (applyAll plans select).1;
          thrown := JsFailure <$> (applyAll plans select).2 |}) ∧
  (∀ valid plans invalid inspected rest select',
     val = JsArray (valid ++ invalid :: rest) →
     Forall2 (λ order plan, applyPlanOf order = inr plan) valid plans →
     applyAll plans select = (select', None) →
     applyPlanOf invalid = inl inspected →
     applyOrderToPlan applyPlanOf select val
     = {| console := [invalidConfiguration inspected];
          selectAfter := select';
          thrown := Some (SafeError "Internal server error: invalid orderBy configuration") |}).
Proof.
  split_and!.
  - by intros [-> | ->].
  - intros Harray Hnull Hundef. destruct val; try done. by destruct (Harray items).
  - intros orders plans -> Hplans. cbn [applyOrderToPlan].
    rewrite <- (app_nil_r orders), (applyOrders_valid orders plans select [] Hplans).
    by destruct (applyAll plans select) as [select' [e|]].
  - intros valid plans invalid inspected rest select' -> Hplans Hall Hinvalid.
    cbn [applyOrderToPlan].
    rewrite (applyOrders_valid valid plans select _ Hplans), Hall.
    cbn [applyOrders]. by rewrite Hinvalid.
Qed.

End Orders.

(** X26 on a value whose second element has no plan. *)
Lemma applyOrderToPlan_witness :
  applyOrderToPlan exampleApplyPlanOf []
    (JsArray ([JsString "ID_DESC"] ++ JsString "NAME_ASC" :: [JsString "ID_ASC"]))
  = {| console := [invalidConfiguration "undefined"];
       selectAfter := ["id DESC"];
       thrown := Some (SafeError "Internal server error: invalid orderBy configuration") |}.
Proof.
  apply (proj2 (proj2 (proj2 (applyOrderToPlan_applies_in_order_without_rollback
                                exampleApplyPlanOf []
                                (JsArray ([JsString "ID_DESC"] ++ JsString "NAME_ASC"
                                            :: [JsString "ID_ASC"])))))
               [JsString "ID_DESC"] [λ select, (select ++ ["id DESC"], None)]
               (JsString "NAME_ASC") "undefined" [JsString "ID_ASC"] ["id DESC"]);
    [reflexivity| |reflexivity|reflexivity].
  repeat constructor.
Defined.

Example applyOrderToPlan_keeps_earlier_orders :
  applyOrderToPlan exampleApplyPlanOf []
    (JsArray [JsString "ID_DESC"; JsString "NAME_ASC"; JsString "ID_ASC"])
  = {| console := [invalidConfiguration "undefined"];
       selectAfter := ["id DESC"];
       thrown := Some (SafeError "Internal server error: invalid orderBy configuration") |}.
Proof. reflexivity. Qed.

End OrderByProps.

(** ** Mermaid: what a step node shows *)

Module MermaidProps.
Import Mermaid.

Lemma inert_digit c : (48 ≤ c ≤ 57)%N → inert c.
Proof.
  intros [H1 H2]. unfold inert, isTrimmed, lookAlike.
  assert ((c <=? 13) = false)%N as -> by (apply N.leb_gt; lia).
  assert ((8192 <=? c) = false)%N as -> by (apply N.leb_gt; lia).
  repeat match goal with
         | |- context [(c =? ?b)%N] =>
             replace (c =? b)%N with false by (symmetry; apply N.eqb_neq; lia)
         end.
  rewrite andb_false_r. simpl. repeat split; lia.
Qed.

Lemma Forall_digit_string_of_uint d :
  Forall (λ c, (48 ≤ c ≤ 57)%N) (str (NilEmpty.string_of_uint d)).
Proof.
  induction d; simpl; constructor; try done; lia.
Qed.

Lemma Forall_inert_decimal n : Forall inert (decimal n).
Proof.
  unfold decimal. eapply Forall_impl; [apply Forall_digit_string_of_uint|].
  apply inert_digit.
Qed.

Lemma Forall_inert_idAndLayerPlan plan : Forall inert (idAndLayerPlan plan).
Proof.
  unfold idAndLayerPlan. simpl.
  assert (inert 91%N) by (repeat split; [vm_compute; reflexivity..|lia|lia]).
  assert (inert 93%N) by (repeat split; [vm_compute; reflexivity..|lia|lia]).
  assert (inert 8712%N) by (repeat split; [vm_compute; reflexivity..|lia|lia]).
  constructor; [done|]. apply Forall_app. split; [apply Forall_inert_decimal|].
  constructor; [done|]. apply Forall_app. split; [apply Forall_inert_decimal|].
  by constructor.
Qed.

Lemma trimStart_app_keep a c b :
  isTrimmed c = false → trimStart (a ++ c :: b) = trimStart a ++ c :: b.
Proof.
  intros Hc. induction a as [|x a IH]; simpl.
  - by rewrite Hc.
  - destruct (isTrimmed x); [exact IH|reflexivity].
Qed.

Lemma trimEnd_app_keep a c b :
  isTrimmed c = false → trimEnd (a ++ c :: b) = a ++ c :: trimEnd b.
Proof.
  intros Hc. unfold trimEnd.
  rewrite reverse_app, reverse_cons, <- app_assoc. simpl.
  rewrite trimStart_app_keep by done.
  rewrite reverse_app, reverse_cons, reverse_involutive. simpl.
  by rewrite <- app_assoc.
Qed.

Lemma replaceSpecial_inert s :
  Forall inert s → replaceSpecial s = s.
Proof.
  induction 1 as [|c s (_ & Hc & _) _ IH]; [done|].
  unfold replaceSpecial in *. cbn [map]. rewrite Hc. simpl. f_equal. exact IH.
Qed.

Lemma replaceSpecial_app a b :
  replaceSpecial (a ++ b) = replaceSpecial a ++ replaceSpecial b.
Proof. apply map_app. Qed.

Lemma replaceNewlines_inert_app s b :
  Forall inert s → replaceNewlines (s ++ b) = s ++ replaceNewlines b.
Proof.
  induction 1 as [|c s (_ & _ & H10 & H13) _ IH]; [done|].
  rewrite <- app_comm_cons. cbn [replaceNewlines].
  apply N.eqb_neq in H10, H13. by rewrite H10, H13, IH.
Qed.

(** A line break is never split between the two parts when the second
    part does not start with a line feed. *)
Lemma replaceNewlines_app a c b :
  c ≠ 10%N →
  replaceNewlines (a ++ c :: b) = replaceNewlines a ++ replaceNewlines (c :: b).
Proof.
  intros Hc. induction a as [|x a IH]; [done|].
  rewrite <- app_comm_cons.
  destruct a as [|y a].
  - simpl app. cbn [replaceNewlines]. apply N.eqb_neq in Hc. rewrite Hc.
    destruct (x =? 10)%N; [done|]. destruct (x =? 13)%N; done.
  - rewrite <- app_comm_cons in *.
    change (replaceNewlines (x :: y :: a ++ c :: b)) with
      (if (x =? 10)%N then str "<br />" ++ replaceNewlines (y :: a ++ c :: b)
       else if (x =? 13)%N then
              if (y =? 10)%N then str "<br />" ++ replaceNewlines (a ++ c :: b)
              else x :: replaceNewlines (y :: a ++ c :: b)
            else x :: replaceNewlines (y :: a ++ c :: b)).
    change (replaceNewlines (x :: y :: a)) with
      (if (x =? 10)%N then str "<br />" ++ replaceNewlines (y :: a)
       else if (x =? 13)%N then
              if (y =? 10)%N then str "<br />" ++ replaceNewlines a
              else x :: replaceNewlines (y :: a)
            else x :: replaceNewlines (y :: a)).
    rewrite IH.
    destruct (x =? 10)%N; [by rewrite <- app_assoc|].
    destruct (x =? 13)%N; [|done].
    destruct (y =? 10)%N eqn:Hy; [|done].
    rewrite <- app_assoc. f_equal.
    cbn [replaceNewlines] in IH. rewrite Hy in IH.
    rewrite <- app_assoc in IH. by apply app_inv_head in IH.
Qed.

Lemma isPlain_false c s : c ∈ s → isAlnumOrSpace c = false → isPlain s = false.
Proof.
  intros Hin Hc. unfold isPlain. destruct s as [|x s]; [done|].
  apply not_true_is_false. intros Hall.
  rewrite forallb_forall in Hall. apply list_elem_of_In in Hin.
  specialize (Hall c Hin). congruence.
Qed.

Lemma trim_around_inert a m b :
  m ≠ [] → Forall inert m →
  trim (a ++ m ++ b) = trimStart a ++ m ++ trimEnd b.
Proof.
  intros Hne Hm. unfold trim.
  destruct m as [|c m']; [done|].
  assert (isTrimmed c = false) as Hc by (by apply Forall_cons in Hm as [(? & _) _]).
  rewrite <- (app_comm_cons m' b c), trimStart_app_keep by done.
  rewrite (app_comm_cons m' b c).
  destruct (exists_last Hne) as (m'' & d & Hlast). rewrite Hlast in *.
  assert (isTrimmed d = false) as Hd.
  { apply Forall_app in Hm as [_ Hd]. by apply Forall_cons in Hd as [(? & _) _]. }
  rewrite <- (app_assoc m'' [d] b). simpl.
  rewrite (app_assoc (trimStart a) m'' (d :: b)).
  rewrite trimEnd_app_keep by done.
  by rewrite <- !app_assoc.
Qed.

Section WithStripAnsi.

Context (stripAnsi : JsString → JsString).

(** A non-empty run of inert characters in a string that is not plain
    survives [mermaidEscape] verbatim, provided [stripAnsi] has nothing to
    strip from the trimmed string. *)
Lemma mermaidEscape_keeps_inert a m b :
  m ≠ [] → Forall inert m →
  isPlain (a ++ m ++ b) = false →
  stripAnsi (trim (a ++ m ++ b)) = trim (a ++ m ++ b) →
  occursIn m (mermaidEscape stripAnsi (a ++ m ++ b)).
Proof.
  intros Hne Hm Hplain Hstrip. unfold mermaidEscape.
  rewrite Hplain, Hstrip, trim_around_inert by done.
  rewrite !replaceSpecial_app, (replaceSpecial_inert m) by done.
  destruct m as [|c m'] eqn:Em; [done|].
  assert (c ≠ 10%N) as Hc by (by apply Forall_cons in Hm as [(_ & _ & ? & _) _]).
  rewrite <- (app_comm_cons m' _ c), replaceNewlines_app by done.
  rewrite (app_comm_cons m' _ c), replaceNewlines_inert_app by done.
  exists (quote ++ replaceNewlines (replaceSpecial (trimStart a))),
         (replaceNewlines (replaceSpecial (trimEnd b)) ++ quote).
  by rewrite <- !app_assoc.
Qed.

Lemma planString_split concise plan :
  planString stripAnsi concise plan =
  planName plan ++ idAndLayerPlan plan
    ++ (match planMeta stripAnsi concise plan with
        | Some m => if bool_decide (m = []) then []
                    else str (String "010" "<") ++ m ++ str ">"
        | None => []
        end ++ polyPathsIfDifferent plan).
Proof.
  unfold planString, idAndLayerPlan. by rewrite <- !app_assoc.
Qed.

Lemma planString_not_plain concise plan :
  isPlain (planString stripAnsi concise plan) = false.
Proof.
  apply (isPlain_false 91%N); [|reflexivity].
  rewrite planString_split. unfold idAndLayerPlan. simpl.
  apply elem_of_app. right. apply list_elem_of_here.
Qed.

Lemma polyPathsIfDifferent_spec plan :
  (pathsSuppressed plan ∧ polyPathsIfDifferent plan = []) ∨
  (¬ pathsSuppressed plan ∧
   polyPathsIfDifferent plan = [10%N] ++ pp (polymorphicPaths plan)).
Proof.
  unfold polyPathsIfDifferent, pathsSuppressed.
  destruct (dependencies plan) as [|dep [|dep' deps]].
  - right. split; [|done]. by intros (dep & ? & _).
  - case_bool_decide as E.
    + left. split; [|done]. by exists dep.
    + right. split; [|done]. intros (dep' & [= <-] & ?). done.
  - right. split; [|done]. by intros (dep0 & ? & _).
Qed.

Lemma decimal_nonempty n : decimal n ≠ [].
Proof.
  unfold decimal.
  assert (Nat.to_uint n ≠ Decimal.Nil) as Hnil.
  { rewrite <- (DecimalNat.Unsigned.of_to n), DecimalNat.Unsigned.to_of.
    apply DecimalFacts.unorm_nonnil. }
  by destruct (Nat.to_uint n).
Qed.

(** [planId] pushes the line of a step the first time it sees the step's
    id and only then. *)
Lemma planId_pushes_node_line_once concise plan r :
  planIdMap r !! id plan = None →
  let r1 := (planId stripAnsi concise plan r).2 in
  (planId stripAnsi concise plan r).1 = planNode plan ∧
  graph r1 = graph r ++ [planNodeLine stripAnsi concise plan] ∧
  planId stripAnsi concise plan r1 = (planNode plan, r1).
Proof.
  intros Hnew. cbv zeta.
  assert (planId stripAnsi concise plan r
          = (planNode plan,
             {| graph := graph r ++ [planNodeLine stripAnsi concise plan];
                planIdMap := <[id plan := planNode plan]> (planIdMap r) |})) as ->.
  { unfold planId, JsString in *. by rewrite Hnew. }
  cbn [fst snd]. split_and!; [done|done|].
  unfold planId, JsString in *. cbn [planIdMap]. rewrite lookup_insert_eq.
  destruct (planNode plan) as [|c node] eqn:E; [|done].
  exfalso. unfold planNode in E. apply app_eq_nil in E as [_ E].
  by apply decimal_nonempty in E.
Qed.


End WithStripAnsi.

Example planNodeLine_userStep :
  planNodeLine (λ s, s) false userStep
  = str "    Access2[" ++ quote ++ str "Access[2" ++ [8712%N] ++ str "3]" ++ quote
      ++ str "]:::plan".
Proof. vm_compute. reflexivity. Qed.



Lemma elem_of_replaceSpecial c s :
  c ∈ replaceSpecial s → lookAlike c = None.
Proof.
  unfold replaceSpecial. intros (x & -> & _)%list_elem_of_fmap.
  unfold lookAlike.
  destruct (N.eqb_spec x 35) as [->|?]; [done|].
  destruct (N.eqb_spec x 34) as [->|?]; [done|].
  destruct (N.eqb_spec x 60) as [->|?]; [done|].
  destruct (N.eqb_spec x 62) as [->|?]; [done|].
  simpl.
  destruct (N.eqb_spec x 35); [done|].
  destruct (N.eqb_spec x 34); [done|].
  destruct (N.eqb_spec x 60); [done|].
  destruct (N.eqb_spec x 62); [done|]. done.
Qed.

Lemma elem_of_replaceNewlines c : ∀ n s, (length s ≤ n)%nat →
  c ∈ replaceNewlines s → c ≠ 10%N ∧ (c ∈ s ∨ c ∈ str "<br />").
Proof.
  induction n as [|n IH]; intros s Hlen.
  - destruct s; [|simpl in Hlen; lia]. intros H; by apply not_elem_of_nil in H.
  - destruct s as [|x s]; [intros H; by apply not_elem_of_nil in H|].
    simpl in Hlen. cbn [replaceNewlines].
    assert (∀ s', (length s' ≤ n)%nat → c ∈ str "<br />" ++ replaceNewlines s' →
                  c ≠ 10%N ∧ (c ∈ s' ∨ c ∈ str "<br />")) as Hbr.
    { intros s' Hs' [H|H]%elem_of_app.
      - split; [|by right]. intros ->. vm_compute in H.
        repeat (apply elem_of_cons in H as [H|H]; [discriminate|]).
        by apply not_elem_of_nil in H.
      - by apply IH. }
    destruct (N.eqb_spec x 10) as [->|Hx10].
    + intros H. apply Hbr in H as [? [?|?]]; [| |cbn [length] in *; lia]; split; try done.
      * left. by apply list_elem_of_further.
      * by right.
    + destruct (N.eqb_spec x 13) as [->|Hx13].
      * destruct s as [|y s].
        -- intros ->%list_elem_of_singleton. split; [done|]. left. apply list_elem_of_here.
        -- destruct (N.eqb_spec y 10) as [->|Hy].
           ++ intros H. apply Hbr in H as [? [?|?]]; [| |cbn [length] in *; lia]; split; try done.
              ** left. by do 2 apply list_elem_of_further.
              ** by right.
           ++ intros [->|H]%elem_of_cons.
              ** split; [done|]. left. apply list_elem_of_here.
              ** apply IH in H as [? [?|?]]; [| |cbn [length] in *; lia]; split; try done.
                 --- left. by apply list_elem_of_further.
                 --- by right.
      * intros [->|H]%elem_of_cons.
        -- split; [done|]. left. apply list_elem_of_here.
        -- apply IH in H as [? [?|?]]; [| |cbn [length] in *; lia]; split; try done.
           ++ left. by apply list_elem_of_further.
           ++ by right.
Qed.

Section Escaping.

Context (stripAnsi : JsString → JsString).

(** What [mermaidEscape] puts between the quotes. *)
Lemma mermaidEscape_quoted s :
  isPlain s = false →
  ∃ body,
    mermaidEscape stripAnsi s = quote ++ body ++ quote ∧
    (34%N ∉ body) ∧ (35%N ∉ body) ∧ (10%N ∉ body).
Proof.
  intros Hplain. unfold mermaidEscape. rewrite Hplain.
  eexists. split; [reflexivity|].
  set (t := replaceSpecial (stripAnsi (trim s))).
  assert (∀ c, c ∈ replaceNewlines t →
               c ≠ 10%N ∧ (lookAlike c = None ∨ c ∈ str "<br />")) as H.
  { intros c Hc.
    apply (elem_of_replaceNewlines c (length t) t) in Hc as [? [?|?]]; [| |lia].
    - split; [done|]. left. by eapply elem_of_replaceSpecial.
    - split; [done|]. by right. }
  split_and!; intros Hc; apply H in Hc as [? [?|Hbr]]; try done;
    vm_compute in Hbr;
    repeat (apply elem_of_cons in Hbr as [Hbr|Hbr]; [discriminate|]);
    by apply not_elem_of_nil in Hbr.
Qed.

(** X17.  [mermaidEscape] returns a string made of letters, digits and
    spaces unchanged; any other string is wrapped in double quotes, and
    between those quotes there is no double quote, no hash sign and no
    line feed. *)
Theorem mermaidEscape_leaves_no_quote_inside s :
  if isPlain s
  then mermaidEscape stripAnsi s = s ∧ Forall (λ c, isAlnumOrSpace c = true) s
  else ∃ body,
         mermaidEscape stripAnsi s = quote ++ body ++ quote ∧
         (34%N ∉ body) ∧ (35%N ∉ body) ∧ (10%N ∉ body).
Proof.
  destruct (isPlain s) eqn:Hplain.
  - unfold mermaidEscape. rewrite Hplain. split; [done|].
    unfold isPlain in Hplain. destruct s; [done|].
    apply Forall_forall. intros c Hc. rewrite forallb_forall in Hplain.
    by apply Hplain, list_elem_of_In.
  - by apply mermaidEscape_quoted.
Qed.

Lemma not_elem_of_decimal c n : ¬ (48 ≤ c ≤ 57)%N → c ∉ decimal n.
Proof.
  intros Hc Hin. unfold decimal in Hin.
  pose proof (Forall_digit_string_of_uint (Nat.to_uint n)) as Hdigits.
  rewrite Forall_forall in Hdigits. by apply Hdigits in Hin.
Qed.

Lemma elem_of_dropStepSuffix c name : c ∈ dropStepSuffix name → c ∈ name.
Proof.
  unfold dropStepSuffix. case_bool_decide; [|done]. apply subseteq_take.
Qed.

(** X25.  Whatever the constructor name, the meta and the polymorphic
    paths of a step hold, its node line carries the label between one
    pair of double quotes: provided the constructor name holds no double
    quote, there is none before the opening quote, none after the closing
    one and none in between, and the text in between holds no hash sign
    and no line feed either. *)
Theorem node_line_has_one_quoted_label concise plan :
  34%N ∉ constructorName plan →
  ∃ body,
    planNodeLine stripAnsi concise plan
    = (str "    " ++ planNode plan ++ (planBraces plan).1)
        ++ quote ++ body ++ quote
        ++ ((planBraces plan).2 ++ str ":::" ++ planClass plan) ∧
    (34%N ∉ str "    " ++ planNode plan ++ (planBraces plan).1) ∧
    (34%N ∉ body) ∧ (35%N ∉ body) ∧ (10%N ∉ body) ∧
    (34%N ∉ (planBraces plan).2 ++ str ":::" ++ planClass plan).
Proof.
  intros Hname.
  destruct (mermaidEscape_quoted (planString stripAnsi concise plan))
    as (body & Hbody & H34 & H35 & H10); [apply planString_not_plain|].
  exists body. unfold planNodeLine. rewrite Hbody.
  split_and!; try done.
  - by rewrite <- !app_assoc.
  - rewrite !elem_of_app. intros [Hin|[Hin|Hin]].
    + vm_compute in Hin.
      repeat (apply elem_of_cons in Hin as [Hin|Hin]; [discriminate|]).
      by apply not_elem_of_nil in Hin.
    + unfold planNode, planName in Hin. apply elem_of_app in Hin as [Hin|Hin].
      * by apply Hname, elem_of_dropStepSuffix.
      * revert Hin. apply not_elem_of_decimal. lia.
    + unfold planBraces in Hin.
      destruct (isItemStep plan), (isSyncAndSafe plan), (hasUnbatchedExecute plan);
        vm_compute in Hin;
        repeat (apply elem_of_cons in Hin as [Hin|Hin]; [discriminate|]);
        by apply not_elem_of_nil in Hin.
  - unfold planBraces, planClass.
    destruct (isItemStep plan), (isSyncAndSafe plan), (hasUnbatchedExecute plan),
      (hasSideEffects plan);
      intros Hin; vm_compute in Hin;
      repeat (apply elem_of_cons in Hin as [Hin|Hin]; [discriminate|]);
      by apply not_elem_of_nil in Hin.
Qed.

Lemma planNode_nonempty plan : planNode plan ≠ [].
Proof.
  unfold planNode. intros H. apply app_eq_nil in H as [_ H].
  by apply decimal_nonempty in H.
Qed.

Lemma planId_cases concise plan r :
  (∃ node, planIdMap r !! id plan = Some node ∧ node ≠ [] ∧
           planId stripAnsi concise plan r = (node, r)) ∨
  ((planIdMap r !! id plan = None ∨ planIdMap r !! id plan = Some []) ∧
   planId stripAnsi concise plan r
   = (planNode plan,
      {| graph := graph r ++ [planNodeLine stripAnsi concise plan];
         planIdMap := <[id plan := planNode plan]> (planIdMap r) |})).
Proof.
  unfold planId.
  destruct (planIdMap r !! id plan) as [[|c node]|] eqn:E.
  - right. split; [by right|reflexivity].
  - left. exists (c :: node). split_and!; [done..|reflexivity].
  - right. split; [by left|reflexivity].
Qed.

Lemma unseen_fresh plans : ∀ seen i, i ∈ seen → i ∉ id <$> unseen seen plans.
Proof.
  induction plans as [|p plans IH]; intros seen i Hin; [apply not_elem_of_nil|].
  cbn [unseen]. case_bool_decide as Hp.
  - by apply IH.
  - cbn [fmap list_fmap]. intros [E|H]%elem_of_cons.
    + apply Hp. by rewrite <- E.
    + revert H. apply IH. by apply list_elem_of_further.
Qed.

(** X18.  Mapping [planId] over a list of steps pushes one node line per
    step id that has no entry in [planIdMap] yet, in the order of first
    occurrence: a step whose id has an entry, or was met earlier in the
    list, pushes nothing.  One node name is returned per step. *)
Theorem planIds_render_each_id_once concise plans : ∀ r seen,
  (∀ i node, planIdMap r !! i = Some node → node ≠ []) →
  (∀ i, i ∈ seen ↔ is_Some (planIdMap r !! i)) →
  graph (planIds stripAnsi concise plans r).2
  = graph r ++ (planNodeLine stripAnsi concise <$> unseen seen plans) ∧
  NoDup (id <$> unseen seen plans) ∧
  length (planIds stripAnsi concise plans r).1 = length plans.
Proof.
  induction plans as [|plan plans IH]; intros r seen Hne Hseen.
  - simpl. rewrite app_nil_r. split_and!; [done|constructor|done].
  - cbn [planIds unseen].
    destruct (planId_cases concise plan r) as [(node & Hl & _ & ->)|[Hl ->]].
    + rewrite bool_decide_eq_true_2 by (apply Hseen; eexists; exact Hl).
      destruct (IH r seen Hne Hseen) as (Hg & Hnd & Hlen).
      destruct (planIds stripAnsi concise plans r) as [nodes r2]. cbn [fst snd] in *.
      split_and!; [done|done|cbn [length]; by f_equal].
    + assert (planIdMap r !! id plan = None) as Hnone.
      { destruct Hl as [?|Hl]; [done|]. by apply Hne in Hl. }
      rewrite bool_decide_eq_false_2
        by (intros Hin; apply Hseen in Hin as [node Hnode];
            discriminate (eq_trans (eq_sym Hnode) Hnone)).
      set (r1 := {| graph := graph r ++ [planNodeLine stripAnsi concise plan];
                    planIdMap := <[id plan := planNode plan]> (planIdMap r) |}).
      destruct (IH r1 (id plan :: seen)) as (Hg & Hnd & Hlen).
      * intros i node. cbn [planIdMap r1].
        intros [[_ <-]|[_ H]]%lookup_insert_Some; [apply planNode_nonempty|by eapply Hne].
      * intros i. cbn [planIdMap r1]. rewrite lookup_insert_is_Some, elem_of_cons, Hseen.
        destruct (decide (id plan = i)); intuition congruence.
      * destruct (planIds stripAnsi concise plans r1) as [nodes r2]. cbn [fst snd] in *.
        split_and!.
        -- rewrite Hg. cbn [graph r1 fmap list_fmap]. by rewrite <- app_assoc.
        -- cbn [fmap list_fmap]. apply NoDup_cons. split; [|done].
           apply unseen_fresh, list_elem_of_here.
        -- cbn [length]. by f_equal.
Qed.

Lemma length_squish s :
  (length (squish s) ≤ 20)%nat ∧ (length (squish s) ≤ length s)%nat ∧
  take 8 (squish s) = take 8 s ∧
  drop (length (squish s) - 8) (squish s) = drop (length s - 8) s.
Proof.
  unfold squish. destruct (Nat.ltb_spec (8 + 8 + 4) (length s)) as [Hlong|Hshort].
  - assert (length (take 8 s ++ str "..." ++ drop (length s - 8) s) = 19%nat) as Hlen.
    { rewrite !length_app, length_take, length_drop.
      change (length (str "...")) with 3%nat. lia. }
    rewrite Hlen. split_and!; [lia|lia| |].
    + rewrite take_app_le by (rewrite length_take; lia).
      rewrite take_take. by replace (8 `min` 8)%nat with 8%nat by lia.
    + change (19 - 8)%nat with (8 + 3)%nat.
      rewrite drop_app_ge by (rewrite length_take; lia).
      rewrite length_take. replace (8 + 3 - 8 `min` length s)%nat with 3%nat by lia.
      done.
  - split_and!; [simpl in Hshort; lia|done..].
Qed.

(** X19.  In concise mode the meta of a step is at most 20 code units
    long, never longer than the stripped meta, and has the same first 8
    and the same last 8 code units; otherwise it is the stripped meta. *)
Theorem concise_meta_is_squished plan meta :
  planMeta stripAnsi true plan = Some meta →
  ∃ raw, toStringMeta plan = Some raw ∧
    (length meta ≤ 20)%nat ∧ (length meta ≤ length (stripAnsi raw))%nat ∧
    take 8 meta = take 8 (stripAnsi raw) ∧
    drop (length meta - 8) meta = drop (length (stripAnsi raw) - 8) (stripAnsi raw) ∧
    planMeta stripAnsi false plan = Some (stripAnsi raw).
Proof.
  unfold planMeta. destruct (toStringMeta plan) as [raw|]; [|discriminate].
  cbn [fmap option_fmap option_map andb]. intros Hmeta. exists raw. split; [done|].
  case_bool_decide as Hempty; cbn [negb] in Hmeta; injection Hmeta as <-.
  - rewrite Hempty. split_and!; [simpl; lia|done..].
  - destruct (length_squish (stripAnsi raw)) as (?&?&?&?). by split_and!.
Qed.

End Escaping.

Lemma occursIn_refl s : occursIn s s.
Proof. exists [], []. by rewrite app_nil_r. Qed.

Lemma occursIn_app_l needle a b : occursIn needle a → occursIn needle (a ++ b).
Proof. intros (pre & post & ->). exists pre, (post ++ b). by rewrite <- !app_assoc. Qed.

Lemma occursIn_app_r needle a b : occursIn needle b → occursIn needle (a ++ b).
Proof. intros (pre & post & ->). exists (a ++ pre), post. by rewrite <- !app_assoc. Qed.

Lemma occursIn_trans a b c : occursIn a b → occursIn b c → occursIn a c.
Proof.
  intros (p1 & q1 & ->) (p2 & q2 & ->). exists (p2 ++ p1), (q1 ++ q2).
  by rewrite <- !app_assoc.
Qed.

Lemma occursIn_join sep x l : x ∈ l → occursIn x (join sep l).
Proof.
  induction l as [|y l IH]; [intros H; by apply not_elem_of_nil in H|].
  intros [->|H]%elem_of_cons.
  - destruct l; [apply occursIn_refl|]. cbn [join]. apply occursIn_app_l, occursIn_refl.
  - destruct l as [|z l]; [by apply not_elem_of_nil in H|].
    change (join sep (y :: z :: l)) with (y ++ sep ++ join sep (z :: l)).
    by apply occursIn_app_r, occursIn_app_r, IH.
Qed.

Lemma length_join_le sep (f g : ExecutableStep → JsString) steps :
  (∀ step, length (g step) ≤ length (f step))%nat →
  (length (join sep (g <$> steps)) ≤ length (join sep (f <$> steps)))%nat.
Proof.
  intros Hle. induction steps as [|x steps IH]; [done|].
  destruct steps as [|y steps]; [apply Hle|].
  change (join sep (?h <$> x :: y :: steps))
    with (h x ++ sep ++ join sep (h <$> y :: steps)).
  cbn [fmap list_fmap] in *.
  change (length (join sep (g x :: g y :: (g <$> steps)))
          ≤ length (join sep (f x :: f y :: (f <$> steps))))%nat.
  change (join sep (g x :: g y :: (g <$> steps)))
    with (g x ++ sep ++ join sep (g y :: (g <$> steps))).
  change (join sep (f x :: f y :: (f <$> steps)))
    with (f x ++ sep ++ join sep (f y :: (f <$> steps))).
  rewrite !length_app. specialize (Hle x). lia.
Qed.

Lemma occursIn_shortSteps steps step :
  step ∈ steps → occursIn (decimal (id step)) (shortSteps (Some steps)).
Proof.
  intros Hin. unfold shortSteps. cbv zeta.
  destruct (length (join (str ", ") (shortStep <$> steps)) <? 40)%nat.
  - apply (occursIn_trans _ (shortStep step)).
    + unfold shortStep. apply occursIn_app_r, occursIn_app_r, occursIn_app_l, occursIn_refl.
    + apply occursIn_join. by apply list_elem_of_fmap_2.
  - apply occursIn_join. by apply (list_elem_of_fmap_2 (λ step, decimal (id step))).
Qed.

(** X20.  The text of [shortSteps] holds the decimal id of every step of
    the list; it is the comma-separated list of labelled steps when that
    is shorter than 40 code units and the list of bare ids otherwise, and
    it is never longer than the list of labelled steps. *)
Theorem shortSteps_names_every_step steps step :
  step ∈ steps →
  occursIn (decimal (id step)) (shortSteps (Some steps)) ∧
  (length (shortSteps (Some steps))
   ≤ length (join (str ", ") (shortStep <$> steps)))%nat ∧
  ((length (shortSteps (Some steps)) < 40)%nat ∨
   shortSteps (Some steps) = join (str ", ") ((λ step, decimal (id step)) <$> steps)).
Proof.
  intros Hin. split; [by apply occursIn_shortSteps|].
  unfold shortSteps. cbv zeta.
  destruct (Nat.ltb_spec (length (join (str ", ") (shortStep <$> steps))) 40).
  - split; [done|by left].
  - split; [|by right].
    apply length_join_le. intros s. unfold shortStep. rewrite !length_app. lia.
Qed.

(** X21.  [startSteps] is empty for a layer plan with exactly one phase;
    otherwise its text holds the decimal id of every step of every phase,
    normal or unbatched. *)
Theorem startSteps_lists_every_phase phases :
  (length phases = 1%nat → startSteps phases = []) ∧
  (length phases ≠ 1%nat →
   ∀ phase steps step,
     phase ∈ phases →
     normalSteps phase = Some steps ∨ unbatchedSyncAndSafeSteps phase = Some steps →
     step ∈ steps →
     occursIn (decimal (id step)) (startSteps phases)).
Proof.
  unfold startSteps. split.
  - by intros ->.
  - intros Hlen phase steps step Hphase Hsteps Hstep.
    apply Nat.eqb_neq in Hlen. rewrite Hlen.
    apply list_elem_of_lookup in Hphase as [i Hi].
    apply occursIn_app_r.
    eapply occursIn_trans; [|apply occursIn_join, list_elem_of_lookup; exists i;
                              rewrite list_lookup_imap, Hi; reflexivity].
    pose proof (occursIn_shortSteps steps step Hstep) as Hocc.
    apply occursIn_app_r, occursIn_app_r.
    destruct Hsteps as [->| ->].
    + by apply occursIn_app_l.
    + by apply occursIn_app_r, occursIn_app_r, occursIn_app_r.
Qed.

(** X18 on two steps of one id: one line is pushed. *)
Lemma planIds_witness :
  graph (planIds (λ s, s) false [userStep; postStep] emptyRendering).2
  = graph emptyRendering
    ++ (planNodeLine (λ s, s) false <$> unseen [] [userStep; postStep]) ∧
  NoDup (id <$> unseen [] [userStep; postStep]) ∧
  length (planIds (λ s, s) false [userStep; postStep] emptyRendering).1
  = length [userStep; postStep].
Proof.
  apply (planIds_render_each_id_once (λ s, s) false [userStep; postStep]
           emptyRendering []).
  - intros i node H. discriminate H.
  - intros i. split.
    + intros H. by apply not_elem_of_nil in H.
    + intros [node H]. discriminate H.
Defined.

Example planIds_pushes_one_line :
  length (graph (planIds (λ s, s) false [userStep; postStep] emptyRendering).2) = 1%nat.
Proof. reflexivity. Qed.

(** X21 on a layer plan of two phases. *)
Lemma startSteps_witness :
  occursIn (decimal (id postStep))
    (startSteps [{| normalSteps := Some [userStep]; unbatchedSyncAndSafeSteps := None |};
                 {| normalSteps := None; unbatchedSyncAndSafeSteps := Some [postStep] |}]).
Proof.
  apply (proj2 (startSteps_lists_every_phase
                  [{| normalSteps := Some [userStep]; unbatchedSyncAndSafeSteps := None |};
                   {| normalSteps := None; unbatchedSyncAndSafeSteps := Some [postStep] |}])
               ltac:(discriminate)
               {| normalSteps := None; unbatchedSyncAndSafeSteps := Some [postStep] |}
               [postStep] postStep).
  - apply list_elem_of_further, list_elem_of_here.
  - by right.
  - apply list_elem_of_here.
Defined.

(** X25 on the step with a meta. *)
Lemma node_line_witness :
  ∃ body,
    planNodeLine (λ s, s) true metaStep
    = (str "    " ++ planNode metaStep ++ (planBraces metaStep).1)
        ++ quote ++ body ++ quote
        ++ ((planBraces metaStep).2 ++ str ":::" ++ planClass metaStep) ∧
    (34%N ∉ str "    " ++ planNode metaStep ++ (planBraces metaStep).1) ∧
    (34%N ∉ body) ∧ (35%N ∉ body) ∧ (10%N ∉ body) ∧
    (34%N ∉ (planBraces metaStep).2 ++ str ":::" ++ planClass metaStep).
Proof.
  apply (node_line_has_one_quoted_label (λ s, s) true metaStep). compute_done.
Defined.

(** X19 on a meta of 30 code units. *)
Lemma concise_meta_witness :
  ∃ raw, toStringMeta metaStep = Some raw ∧
    (length (str "forums w...is false") ≤ 20)%nat ∧
    (length (str "forums w...is false") ≤ length raw)%nat ∧
    take 8 (str "forums w...is false") = take 8 raw ∧
    drop (length (str "forums w...is false") - 8) (str "forums w...is false")
    = drop (length raw - 8) raw ∧
    planMeta (λ s, s) false metaStep = Some raw.
Proof.
  apply (concise_meta_is_squished (λ s, s) metaStep (str "forums w...is false")).
  reflexivity.
Defined.

(** X20 on a list of one step. *)
Lemma shortSteps_witness :
  occursIn (decimal (id userStep)) (shortSteps (Some [userStep])) ∧
  (length (shortSteps (Some [userStep]))
   ≤ length (join (str ", ") (shortStep <$> [userStep])))%nat ∧
  ((length (shortSteps (Some [userStep])) < 40)%nat ∨
   shortSteps (Some [userStep])
   = join (str ", ") ((λ step, decimal (id step)) <$> [userStep])).
Proof.
  apply (shortSteps_names_every_step [userStep] userStep).
  apply list_elem_of_here.
Defined.

End MermaidProps.

(** ** ExportSubclasses: what the rule reports *)

Module ExportSubclassesProps.
Import ExportSubclasses.

Section Rule.

Context (filename : string) (basename JSON_stringify : string → string).

Abbreviation listener := (ClassDeclaration_listener filename basename JSON_stringify).

Lemma known_import_names name :
  (length (List.filter (λ tuple : string * string, String.eqb tuple.2 name) KNOWN_IMPORTS) =? 0)%nat
  = negb (bool_decide (name ∈ ["BasePlan"; "ExecutablePlan"; "ModifierPlan"])).
Proof.
  unfold KNOWN_IMPORTS. cbn [List.filter snd].
  destruct (String.eqb_spec "BasePlan" name) as [<-|H1]; [done|].
  destruct (String.eqb_spec "ExecutablePlan" name) as [<-|H2]; [done|].
  destruct (String.eqb_spec "ModifierPlan" name) as [<-|H3]; [done|].
  cbn. symmetry. apply negb_true_iff, bool_decide_eq_false.
  intros H. repeat (apply elem_of_cons in H as [->|H]; [done|]).
  by apply not_elem_of_nil in H.
Qed.

(** Past its guards, the listener validates the [$$export] member it
    finds or reports the class. *)
Lemma listener_past_guards declaration :
  extendsKnownImport declaration →
  ∃ super name,
    superClass declaration = Some super ∧ className declaration = Some name ∧
    listener declaration =
    match List.find isExportMember (body declaration) with
    | Some export => validateExport export
    | None =>
        if typeParameters declaration then
          [{| node := OnClass declaration;
              message :=
                "Generic class '" ++ name ++ "' extending '" ++ superClassName super
                  ++ "' cannot be safely exported. Because it's generic we cannot make it EXPORTABLE, instead make it importable by putting it in its own module and declaring a '"
                  ++ exportExample name ++ "' property.";
              suggest := [convertToImportable filename basename JSON_stringify declaration name] |}]
        else
          [{| node := OnClass declaration;
              message :=
                "Class '" ++ name ++ "' extends '" ++ superClassName super
                  ++ "' but cannot be safely exported. Either make it EXPORTABLE or make it importable and add a '"
                  ++ exportExample name ++ "' property to indicate this.";
              suggest := [convertToExportable filename declaration name;
                          convertToImportable filename basename JSON_stringify declaration name] |}]
    end.
Proof.
  intros (super & name & Hsuper & Htype & Hknown & Hname & Hne).
  exists super, name. split_and!; [done..|].
  unfold ClassDeclaration_listener. rewrite Hsuper, Htype, Hname. cbn [String.eqb negb].
  change ("Identifier" =? "Identifier")%string with true. cbn [negb].
  rewrite known_import_names, (bool_decide_eq_true_2 _ Hknown). cbn [negb].
  assert (String.eqb (superClassName super) "" = false) as ->.
  { apply String.eqb_neq. intros E. rewrite E in Hknown.
    repeat (apply elem_of_cons in Hknown as [?|Hknown]; [done|]).
    by apply not_elem_of_nil in Hknown. }
  apply String.eqb_neq in Hne. by rewrite Hne.
Qed.

(** X22.  The rule reports nothing unless the class has a non-empty name
    and extends, by a plain identifier, [BasePlan], [ExecutablePlan] or
    [ModifierPlan]. *)
Theorem listener_reports_known_subclasses_only declaration :
  listener declaration ≠ [] → extendsKnownImport declaration.
Proof.
  unfold ClassDeclaration_listener, extendsKnownImport.
  destruct (superClass declaration) as [super|]; [|done].
  destruct (String.eqb_spec (superClassType super) "Identifier") as [Htype|]; [|done].
  cbn [negb]. destruct (String.eqb_spec (superClassName super) "") as [|Hsuper]; [done|].
  rewrite known_import_names.
  case_bool_decide as Hknown; [|done]. cbn [negb].
  destruct (className declaration) as [name|]; [|done].
  destruct (String.eqb_spec name "") as [|Hname]; [done|].
  intros _. by exists super, name.
Qed.

Lemma validateExport_nil export :
  validateExport export = [] ↔ acceptedExport export.
Proof.
  unfold validateExport, acceptedExport.
  destruct (value export) as [v|]; [|by split].
  destruct (String.eqb_spec (valueType v) "ObjectExpression") as [Hobj|Hobj];
    [|split; [intros _ ? [= <-] ?; done|done]].
  set (moduleName := List.find (isPropertyNamed "moduleName") (properties v)).
  set (exportName := List.find (isPropertyNamed "exportName") (properties v)).
  split.
  - intros H v' [= <-] _. cbv zeta. fold moduleName exportName.
    apply app_eq_nil in H as [H1 H].
    apply app_eq_nil in H as [H2 H3].
    split.
    + intros Hsafe. rewrite Hsafe in H1, H2. cbn [andb] in H1, H2.
      split.
      * destruct (bool_decide (is_Some moduleName)) eqn:E; [by apply bool_decide_eq_true in E|done].
      * destruct (bool_decide (is_Some exportName)) eqn:E; [by apply bool_decide_eq_true in E|done].
    + intros m e Hm He. rewrite Hm, He in H3.
      apply app_eq_nil in H3 as [H3 H4]. unfold notStringLiteral in *.
      split.
      * destruct (bool_decide (propertyValueType m = Some "StringLiteral")) eqn:E;
          [by apply bool_decide_eq_true in E|done].
      * destruct (bool_decide (propertyValueType e = Some "StringLiteral")) eqn:E;
          [by apply bool_decide_eq_true in E|done].
  - intros H. destruct (H v eq_refl Hobj) as [Hsafe Hlit]. fold moduleName exportName in Hsafe, Hlit.
    destruct (safe (properties v)).
    + destruct (Hsafe eq_refl) as [[m Hm] [e He]]. rewrite Hm, He.
      rewrite !bool_decide_eq_true_2 by done. cbn [andb negb app].
      destruct (Hlit m e Hm He) as [Hlm Hle]. unfold notStringLiteral.
      by rewrite !bool_decide_eq_true_2.
    + cbn [andb app]. destruct moduleName as [m|], exportName as [e|]; try done.
      destruct (Hlit m e eq_refl eq_refl) as [Hlm Hle]. unfold notStringLiteral.
      by rewrite !bool_decide_eq_true_2.
Qed.

Lemma validateExport_shape export :
  Forall (λ problem, node problem = OnMember export ∧ suggest problem = [])
    (validateExport export) ∧
  (length (validateExport export) ≤ 2)%nat.
Proof.
  unfold validateExport. destruct (value export) as [v|]; [|split; [by apply Forall_nil|cbn; lia]].
  destruct (String.eqb (valueType v) "ObjectExpression"); [|split; [by apply Forall_nil|cbn; lia]].
  assert (∀ (c : bool) text,
            Forall (λ problem, node problem = OnMember export ∧ suggest problem = [])
              (if c then [{| node := OnMember export; message := text; suggest := [] |}]
               else [])) as Hone.
  { intros [] text; by repeat constructor. }
  split.
  - repeat apply Forall_app_2; try apply Hone.
    destruct (List.find (isPropertyNamed "moduleName") (properties v));
      [|by apply Forall_nil].
    destruct (List.find (isPropertyNamed "exportName") (properties v));
      [|by apply Forall_nil].
    apply Forall_app_2; apply Hone.
  - destruct (List.find (isPropertyNamed "moduleName") (properties v)) as [m|],
      (List.find (isPropertyNamed "exportName") (properties v)) as [e|];
      rewrite ?bool_decide_eq_true_2 by (by eexists);
      cbn [negb]; rewrite ?andb_false_r; cbn [app];
      repeat match goal with
             | |- context [if ?c then _ else _] => destruct c
             end;
      cbn; lia.
Qed.

Lemma validateExport_literals export v m e :
  value export = Some v → valueType v = "ObjectExpression" →
  List.find (isPropertyNamed "moduleName") (properties v) = Some m →
  List.find (isPropertyNamed "exportName") (properties v) = Some e →
  propertyValueType m ≠ Some "StringLiteral" →
  propertyValueType e ≠ Some "StringLiteral" →
  message <$> validateExport export
  = ["$$export has invalid value for 'moduleName' - expected a string literal.";
     "$$export has invalid value for 'exportName' - expected a string literal."].
Proof.
  intros Hv Hobj Hm He Hlm Hle. unfold validateExport.
  rewrite Hv, Hobj. change ("ObjectExpression" =? "ObjectExpression")%string with true.
  cbv iota zeta. rewrite Hm, He.
  rewrite !bool_decide_eq_true_2 by (by eexists).
  cbn [negb]. rewrite !andb_false_r. unfold notStringLiteral.
  by rewrite !bool_decide_eq_false_2.
Qed.

(** X23.  For such a class with a static [$$export] member: every
    problem is reported on that member, without suggestion; there are at
    most two; and there is none exactly when the member is accepted, that
    is, when its value is not an object expression, or when both
    [moduleName] and [exportName] have a value of node type
    [StringLiteral] where both are given, and both are given unless the
    object holds a spread element or a computed key.  A value of any
    other node type is refused, the type [Literal] that ESTree parsers give
    to string literals included: when both keys are given with such
    values, exactly the two problems about an invalid value are
    reported. *)
Theorem declared_export_is_validated_in_place declaration export :
  extendsKnownImport declaration →
  List.find isExportMember (body declaration) = Some export →
  Forall (λ problem, node problem = OnMember export ∧ suggest problem = [])
    (listener declaration) ∧
  (length (listener declaration) ≤ 2)%nat ∧
  (listener declaration = [] ↔ acceptedExport export) ∧
  (∀ v m e,
     value export = Some v → valueType v = "ObjectExpression" →
     List.find (isPropertyNamed "moduleName") (properties v) = Some m →
     List.find (isPropertyNamed "exportName") (properties v) = Some e →
     propertyValueType m ≠ Some "StringLiteral" →
     propertyValueType e ≠ Some "StringLiteral" →
     message <$> listener declaration
     = ["$$export has invalid value for 'moduleName' - expected a string literal.";
        "$$export has invalid value for 'exportName' - expected a string literal."]).
Proof.
  intros Hknown Hfind.
  destruct (listener_past_guards declaration Hknown) as (super & name & _ & _ & ->).
  rewrite Hfind. destruct (validateExport_shape export) as [Hshape Hlen].
  split_and!; [done|done|apply validateExport_nil|apply validateExport_literals].
Qed.

(** X24.  For such a class without a static [$$export] member exactly one
    problem is reported, on the class; it suggests the conversion to
    importable, preceded by the conversion to exportable unless the class
    is generic; and every suggested fix only inserts text. *)
Theorem undeclared_export_is_reported_once declaration :
  extendsKnownImport declaration →
  List.find isExportMember (body declaration) = None →
  ∃ problem,
    listener declaration = [problem] ∧
    node problem = OnClass declaration ∧
    desc <$> suggest problem
    = (if typeParameters declaration then [] else ["convert to exportable"])
      ++ ["convert to importable"] ∧
    ∀ suggestion replacement,
      suggestion ∈ suggest problem → replacement ∈ fix_ suggestion →
      (replacedRange replacement).1 = (replacedRange replacement).2.
Proof.
  intros Hknown Hfind.
  destruct (listener_past_guards declaration Hknown) as (super & name & _ & _ & ->).
  rewrite Hfind. destruct (typeParameters declaration); eexists; (split; [reflexivity|]);
    cbn [node suggest]; (split_and!; [done..|]);
    intros suggestion replacement Hs Hr;
    repeat (apply elem_of_cons in Hs as [->|Hs];
            [cbn in Hr;
             repeat (apply elem_of_cons in Hr as [->|Hr]; [done|]);
             by apply not_elem_of_nil in Hr|]);
    by apply not_elem_of_nil in Hs.
Qed.

End Rule.

Lemma extendsKnownImport_PgPolymorphicPlan :
  extendsKnownImport PgPolymorphicPlan_declaration.
Proof.
  exists {| superClassType := "Identifier"; superClassName := "ExecutablePlan" |},
    "PgPolymorphicPlan".
  split_and!; [reflexivity|reflexivity|compute_done|reflexivity|discriminate].
Defined.

Lemma extendsKnownImport_undeclaredSubclass :
  extendsKnownImport undeclaredSubclass.
Proof.
  exists {| superClassType := "Identifier"; superClassName := "ExecutablePlan" |},
    "PgPolymorphicPlan".
  split_and!; [reflexivity|reflexivity|compute_done|reflexivity|discriminate].
Defined.

(** X22 on the declaration without [$$export]. *)
Lemma listener_reports_witness : extendsKnownImport undeclaredSubclass.
Proof.
  apply (listener_reports_known_subclasses_only "pgPolymorphic.ts" (λ s, s) (λ s, s)
           undeclaredSubclass).
  discriminate.
Defined.

(** X23 on the declaration of [PgPolymorphicPlan]: its two string
    literals have the node type [Literal], and two problems are
    reported. *)
Lemma declared_export_witness :
  message <$> ClassDeclaration_listener "pgPolymorphic.ts" (λ s, s) (λ s, s)
                PgPolymorphicPlan_declaration
  = ["$$export has invalid value for 'moduleName' - expected a string literal.";
     "$$export has invalid value for 'exportName' - expected a string literal."].
Proof.
  apply (proj2 (proj2 (proj2
           (declared_export_is_validated_in_place "pgPolymorphic.ts" (λ s, s) (λ s, s)
              PgPolymorphicPlan_declaration
              (exportMember [literalProperty "moduleName"; literalProperty "exportName"])
              extendsKnownImport_PgPolymorphicPlan eq_refl)))
           {| valueType := "ObjectExpression";
              properties := [literalProperty "moduleName"; literalProperty "exportName"] |}
           (literalProperty "moduleName") (literalProperty "exportName"));
    [reflexivity|reflexivity|reflexivity|reflexivity|discriminate|discriminate].
Defined.

Example PgPolymorphicPlan_is_reported_twice :
  length (ClassDeclaration_listener "pgPolymorphic.ts" (λ s, s) (λ s, s)
            PgPolymorphicPlan_declaration) = 2%nat.
Proof. reflexivity. Qed.

(** Values of node type [StringLiteral] are the ones the rule lets
    through. *)
Example StringLiteral_values_pass_the_rule :
  validateExport
    (exportMember [propertyOfType "moduleName" "StringLiteral";
                   propertyOfType "exportName" "StringLiteral"]) = [].
Proof. reflexivity. Qed.

(** X24 on the declaration without [$$export], which is generic. *)
Lemma undeclared_export_witness :
  ∃ problem,
    ClassDeclaration_listener "pgPolymorphic.ts" (λ s, s) (λ s, s) undeclaredSubclass
    = [problem] ∧
    node problem = OnClass undeclaredSubclass ∧
    desc <$> suggest problem
    = (if typeParameters undeclaredSubclass then [] else ["convert to exportable"])
      ++ ["convert to importable"] ∧
    ∀ suggestion replacement,
      suggestion ∈ suggest problem → replacement ∈ fix_ suggestion →
      (replacedRange replacement).1 = (replacedRange replacement).2.
Proof.
  apply (undeclared_export_is_reported_once "pgPolymorphic.ts" (λ s, s) (λ s, s)
           undeclaredSubclass).
  - exact extendsKnownImport_undeclaredSubclass.
  - reflexivity.
Defined.

End ExportSubclassesProps.

(** ** The step graph: execution order *)

Module EngineProps.
Import Engine.

Section Orders.

Context (g : StepGraph).

Lemma dependenciesFirstAfter_proper placed placed' order :
  (∀ s, s ∈ placed ↔ s ∈ placed') →
  dependenciesFirstAfter g placed order →
  dependenciesFirstAfter g placed' order.
Proof.
  revert placed placed'. induction order as [|s order IH]; intros p p' Hpp'; [done|].
  intros (Hs & Hdeps & Hrest). split_and!.
  - by rewrite <- Hpp'.
  - intros r Hr. apply Hpp'. by apply Hdeps.
  - eapply IH; [|exact Hrest]. intros x. rewrite !elem_of_cons, Hpp'. done.
Qed.

Lemma dependenciesFirstAfter_app placed o1 o2 :
  dependenciesFirstAfter g placed (o1 ++ o2) ↔
  dependenciesFirstAfter g placed o1 ∧
  dependenciesFirstAfter g (reverse o1 ++ placed) o2.
Proof.
  revert placed. induction o1 as [|s o1 IH]; intros placed; simpl.
  - tauto.
  - rewrite IH, reverse_cons, <- app_assoc. simpl. tauto.
Qed.

Lemma dependenciesFirstAfter_NoDup placed order :
  dependenciesFirstAfter g placed order →
  NoDup order ∧ ∀ s, s ∈ order → s ∉ placed.
Proof.
  revert placed. induction order as [|s order IH]; intros placed.
  - intros _. split; [constructor|]. intros s Hs. by apply not_elem_of_nil in Hs.
  - intros (Hs & _ & Hrest). destruct (IH _ Hrest) as [Hnd Hfresh]. split.
    + constructor; [|done]. intros Hin. apply (Hfresh s Hin). apply list_elem_of_here.
    + intros x [->|Hx]%elem_of_cons; [done|].
      intros Hp. apply (Hfresh x Hx). by apply list_elem_of_further.
Qed.

(** What comes before a point of the order contains all it depends on. *)
Lemma dependenciesFirstAfter_closed placed order s r :
  dependenciesFirstAfter g placed order →
  s ∈ order → dependsOn g s r → r ∈ order ∨ r ∈ placed.
Proof.
  revert placed. induction order as [|x order IH]; intros placed Hord Hs Hdep.
  - by apply not_elem_of_nil in Hs.
  - destruct Hord as (_ & Hdeps & Hrest). apply elem_of_cons in Hs as [->|Hs].
    + right. by apply Hdeps.
    + destruct (IH _ Hrest Hs Hdep) as [H|H].
      * left. by apply list_elem_of_further.
      * apply elem_of_cons in H as [->|H]; [left; apply list_elem_of_here|by right].
Qed.

Lemma prefix_closed prefix rest s r :
  dependenciesFirstAfter g [] (prefix ++ rest) →
  s ∈ prefix → tc (dependsOn g) s r → r ∈ prefix.
Proof.
  intros [Hp _]%dependenciesFirstAfter_app Hs Htc.
  induction Htc as [s r Hdep|s m r Hdep _ IH].
  - destruct (dependenciesFirstAfter_closed _ _ _ _ Hp Hs Hdep) as [H|H]; [done|].
    by apply not_elem_of_nil in H.
  - apply IH. destruct (dependenciesFirstAfter_closed _ _ _ _ Hp Hs Hdep) as [H|H]; [done|].
    by apply not_elem_of_nil in H.
Qed.

(** The first step of what is left depends, directly or not, only on
    what is already placed. *)
Lemma next_depends_on_prefix prefix s rest r :
  dependenciesFirstAfter g [] (prefix ++ s :: rest) →
  tc (dependsOn g) s r → r ∈ prefix.
Proof.
  intros Hord Htc.
  assert (∀ m, dependsOn g s m → m ∈ prefix) as Hdirect.
  { apply dependenciesFirstAfter_app in Hord as [_ (_ & Hdeps & _)].
    intros m Hm. specialize (Hdeps m Hm).
    rewrite app_nil_r, elem_of_reverse in Hdeps. exact Hdeps. }
  inversion Htc as [? ? Hdep|? m ? Hdep Hrest]; subst.
  - by apply Hdirect.
  - eapply prefix_closed; [exact Hord|by apply Hdirect|done].
Qed.

Lemma swap_keeps_dependenciesFirst placed before a b after :
  ¬ dependsOn g b a →
  dependenciesFirstAfter g placed (before ++ a :: b :: after) →
  dependenciesFirstAfter g placed (before ++ b :: a :: after).
Proof.
  intros Hba. rewrite !dependenciesFirstAfter_app. intros [Hbefore Hrest].
  split; [done|]. destruct Hrest as (Ha & Hadeps & Hb & Hbdeps & Hafter).
  cbn [dependenciesFirstAfter]. split_and!.
  - intros Hin. apply Hb. by apply list_elem_of_further.
  - intros r Hr. specialize (Hbdeps r Hr).
    apply elem_of_cons in Hbdeps as [->|H]; [done|exact H].
  - intros [->|Hin]%elem_of_cons; [|done]. apply Hb. apply list_elem_of_here.
  - intros r Hr. apply list_elem_of_further. by apply Hadeps.
  - eapply dependenciesFirstAfter_proper; [|exact Hafter].
    intros x. rewrite !elem_of_cons. tauto.
Qed.

Lemma swapIndependent_topologicalOrder o o' :
  topologicalOrder g o → swapIndependent g o o' → topologicalOrder g o'.
Proof.
  intros [Hperm Hord] Hswap. destruct Hswap as [before a b after [_ Hba]]. split.
  - rewrite <- Hperm. apply Permutation_app_head, perm_swap.
  - apply swap_keeps_dependenciesFirst; [|done].
    intros Hdep. apply Hba. by apply tc_once.
Qed.

(** A step that is independent of all the steps before it can be moved in
    front of them by exchanging neighbours. *)
Lemma bubble_to_front prefix u x v :
  (∀ y, y ∈ u → independent g y x) →
  rtc (swapIndependent g) (prefix ++ u ++ x :: v) (prefix ++ x :: u ++ v).
Proof.
  revert v. induction u as [|y u IH] using rev_ind; intros v Hind; [done|].
  rewrite <- !app_assoc. cbn [app].
  eapply rtc_l.
  - rewrite (app_assoc prefix u (y :: x :: v)). apply swap_neighbours.
    apply Hind. apply elem_of_app. right. apply list_elem_of_here.
  - rewrite <- (app_assoc prefix u (x :: y :: v)).
    apply (IH (y :: v)). intros z Hz. apply Hind. apply elem_of_app. by left.
Qed.

Lemma rtc_swap_dependenciesFirst o o' :
  rtc (swapIndependent g) o o' →
  dependenciesFirstAfter g [] o → dependenciesFirstAfter g [] o'.
Proof.
  induction 1 as [|o o1 o' Hswap _ IH]; [done|].
  intros Hord. apply IH. destruct Hswap as [before a b after [_ Hba]].
  apply swap_keeps_dependenciesFirst; [|done].
  intros Hdep. apply Hba. by apply tc_once.
Qed.

(** Two orders that place dependencies first and agree on a prefix are
    linked by exchanges of independent neighbours. *)
Lemma orders_linked rest2 : ∀ prefix rest1,
  dependenciesFirstAfter g [] (prefix ++ rest1) →
  dependenciesFirstAfter g [] (prefix ++ rest2) →
  rest1 ≡ₚ rest2 →
  rtc (swapIndependent g) (prefix ++ rest1) (prefix ++ rest2).
Proof.
  induction rest2 as [|x rest2 IH]; intros prefix rest1 H1 H2 Hperm.
  - apply Permutation_nil_r in Hperm as ->. done.
  - assert (x ∈ rest1) as Hx by (rewrite Hperm; apply list_elem_of_here).
    apply list_elem_of_split in Hx as (u & v & ->).
    assert (u ++ v ≡ₚ rest2) as Hperm'.
    { apply (Permutation_cons_inv (a:=x)). by rewrite Permutation_middle. }
    destruct (dependenciesFirstAfter_NoDup _ _ H1) as [Hnd _].
    assert (∀ y, y ∈ u → independent g y x) as Hind.
    { intros y Hy. split.
      - intros Htc.
        assert (x ∈ prefix ++ u) as Hin.
        { eapply (prefix_closed (prefix ++ u) (x :: v)); [|apply elem_of_app; by right|done].
          by rewrite <- app_assoc. }
        rewrite app_assoc in Hnd. apply NoDup_app in Hnd as (_ & Hdisj & _).
        apply (Hdisj x Hin). apply list_elem_of_here.
      - intros Htc.
        assert (y ∈ prefix) as Hin by (by eapply next_depends_on_prefix).
        apply NoDup_app in Hnd as (_ & Hdisj & _).
        apply (Hdisj y Hin). apply elem_of_app. by left. }
    pose proof (bubble_to_front prefix u x v Hind) as Hbubble.
    etrans; [exact Hbubble|].
    replace (prefix ++ x :: u ++ v) with ((prefix ++ [x]) ++ (u ++ v))
      by (by rewrite <- app_assoc).
    replace (prefix ++ x :: rest2) with ((prefix ++ [x]) ++ rest2)
      by (by rewrite <- app_assoc).
    apply IH; [| |done].
    + rewrite <- app_assoc. simpl. by eapply rtc_swap_dependenciesFirst.
    + by rewrite <- app_assoc.
Qed.

(** Any two topological orders of one graph differ by exchanges of
    mutually independent neighbours only. *)
Lemma topologicalOrders_linked o1 o2 :
  topologicalOrder g o1 → topologicalOrder g o2 →
  rtc (swapIndependent g) o1 o2.
Proof.
  intros [Hp1 H1] [Hp2 H2]. apply (orders_linked o2 [] o1); [done|done|].
  by rewrite Hp1, Hp2.
Qed.

End Orders.

Section WellFormed.

Lemma wellFormedAfter_cons known s g :
  wellFormedAfter known (s :: g) = true ↔
  (id s ∉ known) ∧ (∀ d, d ∈ dependencies s → d ∈ known) ∧
  wellFormedAfter (id s :: known) g = true.
Proof.
  cbn [wellFormedAfter]. rewrite !andb_true_iff, negb_true_iff, bool_decide_eq_false.
  rewrite forallb_forall. split.
  - intros [[Hid Hdeps] Hrest]. split_and!; [done| |done].
    intros d Hd. apply list_elem_of_In in Hd. specialize (Hdeps d Hd).
    by apply bool_decide_eq_true in Hdeps.
  - intros (Hid & Hdeps & Hrest). split_and!; [done| |done].
    intros d Hd. apply bool_decide_eq_true, Hdeps. by apply list_elem_of_In.
Qed.

Lemma wellFormedAfter_NoDup known g :
  wellFormedAfter known g = true →
  NoDup (id <$> g) ∧ ∀ s, s ∈ g → id s ∉ known.
Proof.
  revert known. induction g as [|s g IH]; intros known.
  - intros _. split; [constructor|]. intros s Hs. by apply not_elem_of_nil in Hs.
  - intros (Hid & _ & Hrest)%wellFormedAfter_cons.
    destruct (IH _ Hrest) as [Hnd Hfresh]. split.
    + rewrite fmap_cons. constructor; [|done].
      intros (r & Heq & Hr)%list_elem_of_fmap. apply (Hfresh r Hr).
      rewrite <- Heq. apply list_elem_of_here.
    + intros r [->|Hr]%elem_of_cons; [done|].
      intros Hin. apply (Hfresh r Hr). by apply list_elem_of_further.
Qed.

(** Every dependency of a step of a well-formed graph names a step of the
    graph. *)
Lemma wellFormedAfter_dependency known g s d :
  wellFormedAfter known g = true →
  s ∈ g → d ∈ dependencies s →
  d ∈ known ∨ ∃ r, r ∈ g ∧ id r = d.
Proof.
  revert known. induction g as [|x g IH]; intros known Hwf Hs Hd.
  - by apply not_elem_of_nil in Hs.
  - apply wellFormedAfter_cons in Hwf as (_ & Hdeps & Hrest).
    apply elem_of_cons in Hs as [->|Hs]; [left; by apply Hdeps|].
    destruct (IH _ Hrest Hs Hd) as [[->|Hk]%elem_of_cons|(r & Hr & <-)].
    + right. exists x. split; [apply list_elem_of_here|done].
    + by left.
    + right. exists r. split; [by apply list_elem_of_further|done].
Qed.

Lemma wellFormed_dependency g s d :
  wellFormed g = true → s ∈ g → d ∈ dependencies s → ∃ r, r ∈ g ∧ id r = d.
Proof.
  intros Hwf Hs Hd.
  destruct (wellFormedAfter_dependency [] g s d Hwf Hs Hd) as [H|H]; [|done].
  by apply not_elem_of_nil in H.
Qed.

Lemma same_id_same_step (g : StepGraph) s r :
  NoDup (id <$> g) → s ∈ g → r ∈ g → id s = id r → s = r.
Proof.
  intros Hnd [i Hi]%list_elem_of_lookup [j Hj]%list_elem_of_lookup Heq.
  assert (i = j) as ->.
  { eapply NoDup_lookup; [exact Hnd| |].
    - by rewrite list_lookup_fmap, Hi.
    - rewrite list_lookup_fmap, Hj. simpl. by rewrite Heq. }
  congruence.
Qed.

Lemma wellFormedAfter_dependenciesFirst g todo : ∀ placed,
  NoDup (id <$> g) →
  (∀ r, r ∈ placed → r ∈ g) → (∀ s, s ∈ todo → s ∈ g) →
  wellFormedAfter (id <$> placed) todo = true →
  dependenciesFirstAfter g placed todo.
Proof.
  induction todo as [|s todo IH]; intros placed Hnd Hplaced Htodo Hwf; [done|].
  apply wellFormedAfter_cons in Hwf as (Hid & Hdeps & Hrest).
  assert (s ∈ g) as Hs by (apply Htodo, list_elem_of_here).
  split_and!.
  - intros Hin. apply Hid. by apply list_elem_of_fmap_2.
  - intros r (_ & Hr & Hdep).
    destruct (proj1 (list_elem_of_fmap _ _ _) (Hdeps _ Hdep)) as (r' & Heq & Hr').
    assert (r = r') as -> by (eapply same_id_same_step; eauto). done.
  - apply IH; [done| | |done].
    + intros r [->|Hr]%elem_of_cons; [done|by apply Hplaced].
    + intros r Hr. by apply Htodo, list_elem_of_further.
Qed.

(** The creation order of a well-formed graph is a topological order. *)
Lemma creation_order_topological g :
  wellFormed g = true → topologicalOrder g g.
Proof.
  intros Hwf. split; [done|].
  apply wellFormedAfter_dependenciesFirst; [|by intros r ?%not_elem_of_nil|done|done].
  by apply (wellFormedAfter_NoDup []).
Qed.

End WellFormed.

Section Executing.

Context {Value : Type}.
Context (operation : string → string → nat → list (list Value) → list Value).
Context (size : nat).

Abbreviation populated := (populated (Value:=Value) size).
Abbreviation wellFed := (wellFed (Value:=Value) size).

Lemma collect_populated (b : Bucket Value) i deps :
  (∀ d, d ∈ deps → populated b d) →
  ∃ ins, collect (columns b) i deps = inr ins ∧
         length ins = length deps ∧ Forall (λ col, length col = size) ins.
Proof.
  induction deps as [|d deps IH]; intros Hdeps.
  - exists []. by split_and!.
  - destruct (Hdeps d) as (col & Hcol & Hlen); [apply list_elem_of_here|].
    destruct IH as (ins & Hins & Hl & Hall).
    { intros d' Hd'. by apply Hdeps, list_elem_of_further. }
    exists (col :: ins). cbn [collect]. rewrite Hcol, Hins. split_and!; [done|..].
    + simpl. by rewrite Hl.
    + by constructor.
Qed.

Lemma collect_MissingDependency cols i deps e :
  collect (Value:=Value) cols i deps = inl e →
  ∃ d, d ∈ deps ∧ cols !! d = None ∧ e = MissingDependency i d.
Proof.
  induction deps as [|d deps IH]; [discriminate|]. cbn [collect].
  destruct (cols !! d) as [col|] eqn:Hd.
  - destruct (collect cols i deps) as [e'|ins]; [|discriminate].
    intros [= <-]. destruct (IH eq_refl) as (d' & Hd' & Hnone & ->).
    exists d'. split_and!; [by apply list_elem_of_further|done|done].
  - intros [= <-]. exists d. split_and!; [apply list_elem_of_here|done|done].
Qed.

(** Running an order that places dependencies first from a bucket in
    which every placed step has its column: no dependency is ever
    missing. *)
Lemma executeFrom_dependenciesFirst g order : ∀ placed (b : Bucket Value),
  (∀ s d, s ∈ g → d ∈ dependencies s → ∃ r, r ∈ g ∧ id r = d) →
  (∀ s, s ∈ order → s ∈ g) →
  dependenciesFirstAfter g placed order →
  (∀ r, r ∈ placed → populated b (id r)) →
  match executeFrom operation size b order with
  | inl e => ∃ i, e = LengthMismatch i
  | inr b' =>
      (∀ r, r ∈ order ∨ r ∈ placed → populated b' (id r)) ∧
      ∃ calls, invocations b' = invocations b ++ calls ∧
               Forall2 wellFed order calls
  end.
Proof.
  induction order as [|s order IH]; intros placed b Hexist Hin Hord Hplaced.
  - simpl. split; [intros r [Hr|Hr]; [by apply not_elem_of_nil in Hr|by apply Hplaced]|].
    exists []. by rewrite app_nil_r.
  - destruct Hord as (Hs & Hdeps & Hrest). cbn [executeFrom]. unfold executeStep.
    assert (s ∈ g) as Hsg by (apply Hin, list_elem_of_here).
    destruct (collect_populated b (id s) (dependencies s)) as (ins & -> & Hlen & Hall).
    { intros d Hd. destruct (Hexist s d Hsg Hd) as (r & Hr & <-).
      apply Hplaced, Hdeps. done. }
    cbv zeta. case_bool_decide as Hsize; [|by eexists].
    set (b1 := {| columns := _; invocations := _ |}).
    specialize (IH (s :: placed) b1 Hexist).
    destruct (executeFrom operation size b1 order) as [e|b'].
    + apply IH; [|done|].
      * intros r Hr. by apply Hin, list_elem_of_further.
      * intros r Hr. unfold populated, b1. cbn [columns].
        destruct (decide (id s = id r)) as [Heq|Hne].
        -- rewrite Heq, lookup_insert_eq. by eexists.
        -- rewrite lookup_insert_ne by done.
           apply elem_of_cons in Hr as [->|Hr]; [done|by apply Hplaced].
    + destruct IH as (Hpop & calls & Hcalls & Hfed).
      * intros r Hr. by apply Hin, list_elem_of_further.
      * done.
      * intros r Hr. unfold populated, b1. cbn [columns].
        destruct (decide (id s = id r)) as [Heq|Hne].
        -- rewrite Heq, lookup_insert_eq. by eexists.
        -- rewrite lookup_insert_ne by done.
           apply elem_of_cons in Hr as [->|Hr]; [done|by apply Hplaced].
      * split.
        -- intros r [[->|Hr]%elem_of_cons|Hr]; apply Hpop.
           ++ right. apply list_elem_of_here.
           ++ by left.
           ++ right. by apply list_elem_of_further.
        -- eexists (_ :: calls). split.
           ++ rewrite Hcalls. unfold b1. cbn [invocations].
              by rewrite <- app_assoc.
           ++ constructor; [|done]. by split_and!.
Qed.

(** C7.  For a well-formed (hence acyclic) step graph: the creation order
    is a topological execution order; any two topological orders differ
    only by exchanges of neighbouring, mutually independent steps, and
    such an exchange leaves an order topological; in a topological order
    a step comes after everything it depends on, directly or through
    other steps; and executing along a topological order never finds a
    dependency column missing -- every batched operation is called with
    one fully populated column per dependency, and the run ends with one
    fully populated column per step unless an operation breaks the length
    contract. *)
Theorem topological_execution_order g :
  wellFormed g = true →
  topologicalOrder g g ∧
  (∀ o1 o2, topologicalOrder g o1 → topologicalOrder g o2 →
            rtc (swapIndependent g) o1 o2) ∧
  (∀ o o', topologicalOrder g o → swapIndependent g o o' →
           topologicalOrder g o') ∧
  (∀ o before s after r,
     topologicalOrder g o → o = before ++ s :: after →
     tc (dependsOn g) s r → r ∈ before) ∧
  (∀ o, topologicalOrder g o →
     match execute operation size o with
     | inl e => ∃ i, e = LengthMismatch i
     | inr b =>
         (∀ s, s ∈ g → populated b (id s)) ∧
         Forall2 wellFed o (invocations b)
     end).
Proof.
  intros Hwf. split_and!.
  - by apply creation_order_topological.
  - apply topologicalOrders_linked.
  - apply swapIndependent_topologicalOrder.
  - intros o before s after r [_ Hord] -> Htc.
    by eapply next_depends_on_prefix.
  - intros o [Hperm Hord].
    pose proof (executeFrom_dependenciesFirst g o []
                  {| columns := ∅; invocations := [] |}) as H.
    unfold execute. destruct (executeFrom operation size _ o) as [e|b].
    + apply H; [|by intros s; rewrite Hperm|done|by intros r ?%not_elem_of_nil].
      intros s d. by apply wellFormed_dependency.
    + destruct H as (Hpop & calls & Hcalls & Hfed);
        [|by intros s; rewrite Hperm|done|by intros r ?%not_elem_of_nil|].
      { intros s d. by apply wellFormed_dependency. }
      split.
      * intros s Hs. apply Hpop. left. by rewrite Hperm.
      * by rewrite Hcalls.
Qed.

End Executing.

Example execute_diamond :
  match execute exampleOperation 2 diamond with
  | inr b => (columns b !! 1, columns b !! 2, columns b !! 3)
  | inl _ => (None, None, None)
  end = (Some [2; 2]%Z, Some [-1; -1]%Z, Some [1; 1]%Z).
Proof. vm_compute. reflexivity. Qed.

(** C7 on the diamond: its creation order is topological and running it
    populates every column. *)
Lemma topological_execution_order_witness :
  wellFormed diamond = true ∧
  topologicalOrder diamond diamond ∧
  match execute exampleOperation 2 diamond with
  | inl e => ∃ i, e = LengthMismatch i
  | inr b =>
      (∀ s, s ∈ diamond → populated 2 b (id s)) ∧
      Forall2 (wellFed 2) diamond (invocations b)
  end.
Proof.
  pose proof (topological_execution_order exampleOperation 2 diamond eq_refl) as H.
  split; [reflexivity|]. split; [exact (proj1 H)|].
  exact (proj2 (proj2 (proj2 (proj2 H))) diamond (proj1 H)).
Defined.

(** ** The step graph: deduplication *)

Section Deduplication.

Lemma deduplicateAfter_cons kept replaced s todo :
  deduplicateAfter kept replaced (s :: todo) =
  match find (interchangeable (redirect replaced s)) kept with
  | Some survivor => deduplicateAfter kept (<[id s := id survivor]> replaced) todo
  | None =>
      (redirect replaced s
         :: (deduplicateAfter (kept ++ [redirect replaced s]) replaced todo).1,
       (deduplicateAfter (kept ++ [redirect replaced s]) replaced todo).2)
  end.
Proof.
  cbn [deduplicateAfter]. destruct (find _ kept); [done|].
  by destruct (deduplicateAfter _ replaced todo).
Qed.

Lemma deduplicateAfter_canonical todo : ∀ kept replaced,
  canonicalAfter kept (deduplicateAfter kept replaced todo).1.
Proof.
  induction todo as [|s todo IH]; intros kept replaced; [done|].
  rewrite deduplicateAfter_cons.
  destruct (find _ kept) eqn:Hfind; [apply IH|].
  cbn [fst canonicalAfter]. split; [done|apply IH].
Qed.

Lemma redirect_empty s : redirect ∅ s = s.
Proof.
  destruct s as [i c deps k lp e]. unfold redirect. cbn. f_equal.
  induction deps as [|d deps IH]; [done|].
  rewrite fmap_cons, IH. unfold survivorOf. by rewrite lookup_empty.
Qed.

Lemma deduplicateAfter_of_canonical l : ∀ kept,
  canonicalAfter kept l → deduplicateAfter kept ∅ l = (l, ∅).
Proof.
  induction l as [|r l IH]; intros kept; [done|].
  intros [Hfind Hrest]. rewrite deduplicateAfter_cons, redirect_empty, Hfind.
  by rewrite (IH _ Hrest).
Qed.

(** A second deduplication pass changes nothing. *)
Lemma deduplicate_idempotent g :
  deduplicate (deduplicate g) = deduplicate g ∧ replacements (deduplicate g) = ∅.
Proof.
  unfold deduplicate, replacements.
  by rewrite (deduplicateAfter_of_canonical _ [] (deduplicateAfter_canonical g [] ∅)).
Qed.

(** The graph the pass leaves passes the construction-time checks
    again. *)
Lemma deduplicateAfter_wellFormed todo : ∀ known kept keptIds replaced,
  wellFormedAfter known todo = true →
  (∀ i, i ∈ keptIds ↔ i ∈ id <$> kept) →
  (∀ d, d ∈ known → survivorOf replaced d ∈ keptIds) →
  (∀ i, i ∈ keptIds → i ∈ known) →
  (∀ i, i ∉ known → replaced !! i = None) →
  wellFormedAfter keptIds (deduplicateAfter kept replaced todo).1 = true.
Proof.
  induction todo as [|s todo IH];
    intros known kept keptIds replaced Hwf Hids Hsurv Hsub Hdom; [done|].
  apply wellFormedAfter_cons in Hwf as (Hfresh & Hdeps & Hrest).
  rewrite deduplicateAfter_cons.
  destruct (find (interchangeable (redirect replaced s)) kept) as [r|] eqn:Hfind.
  - apply find_some in Hfind as [Hr%list_elem_of_In _].
    apply (IH (id s :: known)); [done|done| | |].
    + intros d [->|Hd]%elem_of_cons; unfold survivorOf.
      * rewrite lookup_insert_eq. simpl. apply Hids. by apply list_elem_of_fmap_2.
      * rewrite lookup_insert_ne by (intros <-; done). by apply Hsurv.
    + intros i Hi. apply list_elem_of_further. by apply Hsub.
    + intros i Hi. rewrite lookup_insert_ne.
      * apply Hdom. intros Hin. apply Hi. by apply list_elem_of_further.
      * intros <-. apply Hi, list_elem_of_here.
  - cbn [fst]. apply wellFormedAfter_cons. cbn [id dependencies redirect]. split_and!.
    + intros Hin. by apply Hfresh, Hsub.
    + intros d (d0 & -> & Hd0)%list_elem_of_fmap. by apply Hsurv, Hdeps.
    + apply (IH (id s :: known)); [done| | | |].
      * intros i. rewrite fmap_app, elem_of_cons, elem_of_app, Hids.
        cbn [fmap list_fmap id redirect]. rewrite list_elem_of_singleton. tauto.
      * intros d [->|Hd]%elem_of_cons.
        -- unfold survivorOf. rewrite (Hdom _ Hfresh). apply list_elem_of_here.
        -- apply list_elem_of_further. by apply Hsurv.
      * intros i [->|Hi]%elem_of_cons; [apply list_elem_of_here|].
        apply list_elem_of_further. by apply Hsub.
      * intros i Hi. apply Hdom. intros Hin. apply Hi. by apply list_elem_of_further.
Qed.

Lemma deduplicate_wellFormed g :
  wellFormed g = true → wellFormed (deduplicate g) = true.
Proof.
  intros Hwf. by apply (deduplicateAfter_wellFormed g [] [] [] ∅).
Qed.

End Deduplication.

Section Preservation.

Context {Value : Type}.
Context (operation : string → string → nat → list (list Value) → list Value).
Context (size : nat).

Abbreviation related := (related operation size).

Lemma collect_step_irrelevant (cols : gmap nat (list Value)) i j deps ins :
  collect cols i deps = inr ins → collect cols j deps = inr ins.
Proof.
  revert ins. induction deps as [|d deps IH]; intros ins; [done|].
  cbn [collect]. destruct (cols !! d); [|discriminate].
  destruct (collect cols i deps) as [e|ins']; [discriminate|].
  intros [= <-]. by rewrite (IH ins').
Qed.

Lemma collect_insert_fresh (cols : gmap nat (list Value)) i deps ins k v :
  cols !! k = None →
  collect cols i deps = inr ins → collect (<[k:=v]> cols) i deps = inr ins.
Proof.
  intros Hk. revert ins. induction deps as [|d deps IH]; intros ins; [done|].
  cbn [collect]. destruct (cols !! d) as [c|] eqn:Hd; [|discriminate].
  destruct (collect cols i deps) as [e|ins']; [discriminate|].
  intros [= <-]. rewrite lookup_insert_ne by congruence.
  by rewrite Hd, (IH ins').
Qed.

Lemma collect_related known kept replaced b b' i j deps :
  related known kept replaced b b' →
  (∀ d, d ∈ deps → d ∈ known) →
  ∃ ins, collect (columns b) i deps = inr ins ∧
         collect (columns b') j (survivorOf replaced <$> deps) = inr ins.
Proof.
  intros Hrel. induction deps as [|d deps IH]; intros Hdeps.
  - by exists [].
  - destruct IH as (ins & H1 & H2).
    { intros d' Hd'. by apply Hdeps, list_elem_of_further. }
    assert (d ∈ known) as Hd by (apply Hdeps, list_elem_of_here).
    destruct (proj1 (related_known Hrel d) Hd) as [col Hcol].
    exists (col :: ins). rewrite fmap_cons. cbn [collect].
    rewrite <- (related_columns Hrel d Hd), Hcol, H1, H2. done.
Qed.

Lemma sideEffects_snoc (b : Bucket Value) cols inv :
  sideEffects {| columns := cols; invocations := invocations b ++ [inv] |}
  = sideEffects b ++ (if withSideEffects inv then [inv] else []).
Proof.
  unfold sideEffects. cbn [invocations]. rewrite filter_app. f_equal.
  rewrite filter_cons. destruct (withSideEffects inv); by case_decide.
Qed.

(** A step that is kept runs alike in both buckets. *)
Lemma executeStep_kept known kept replaced b b' s :
  related known kept replaced b b' →
  id s ∉ known → (∀ d, d ∈ dependencies s → d ∈ known) →
  match executeStep operation size b s,
        executeStep operation size b' (redirect replaced s) with
  | inr c, inr c' =>
      related (id s :: known) (kept ++ [redirect replaced s]) replaced c c'
  | inl e, inl e' => e = e'
  | _, _ => False
  end.
Proof.
  intros Hrel Hfresh Hdeps.
  destruct (collect_related known kept replaced b b' (id s) (id s)
              (dependencies s) Hrel Hdeps) as (ins & H1 & H2).
  unfold executeStep. cbn [id dependencies constructorId equalityKey hasSideEffects redirect].
  rewrite H1, H2. cbv zeta.
  set (results := operation (constructorId s) (equalityKey s) size ins).
  case_bool_decide as Hlen; [|done].
  assert (columns b' !! id s = None) as Hnone'.
  { apply eq_None_not_Some. intros H. by apply Hfresh, (related_known' Hrel). }
  assert (survivorOf replaced (id s) = id s) as Hself.
  { unfold survivorOf. by rewrite (related_replaced Hrel). }
  split; cbn [columns invocations].
  - intros i. rewrite elem_of_cons, lookup_insert_is_Some.
    rewrite (related_known Hrel i).
    destruct (decide (id s = i)); intuition congruence.
  - intros i [->|Hi]%elem_of_cons.
    + by rewrite Hself, !lookup_insert_eq.
    + assert (id s ≠ i) as Hne by congruence.
      rewrite lookup_insert_ne by done.
      rewrite (related_columns Hrel i Hi).
      rewrite lookup_insert_ne; [done|]. intros Heq.
      apply Hfresh, (related_known' Hrel).
      rewrite Heq, <- (related_columns Hrel i Hi).
      by apply (related_known Hrel).
  - intros i [<-|[_ Hi]]%lookup_insert_is_Some.
    + apply list_elem_of_here.
    + apply list_elem_of_further. by apply (related_known' Hrel).
  - intros i col [[_ <-]|[_ Hi]]%lookup_insert_Some; [done|].
    by eapply (related_length Hrel).
  - intros r [Hr|Hr]%elem_of_app.
    + destruct (related_kept Hrel r Hr) as (ins' & Hc & Hcol).
      exists ins'. split; [by apply collect_insert_fresh|].
      rewrite lookup_insert_ne; [done|]. intros Heq. by rewrite <- Heq, Hnone' in Hcol.
    + apply list_elem_of_singleton in Hr as ->. exists ins.
      cbn [id dependencies constructorId equalityKey redirect].
      split; [by apply collect_insert_fresh|]. by rewrite lookup_insert_eq.
  - intros i Hi. apply (related_replaced Hrel).
    intros Hin. apply Hi. by apply list_elem_of_further.
  - intros r [Hr|Hr]%elem_of_app; [by apply (related_self Hrel)|].
    by apply list_elem_of_singleton in Hr as ->.
  - rewrite !sideEffects_snoc. by rewrite (related_effects Hrel).
Qed.

Lemma interchangeable_true a r :
  interchangeable a r = true →
  hasSideEffects a = false ∧ constructorId a = constructorId r ∧
  dependencies a = dependencies r ∧ equalityKey a = equalityKey r.
Proof.
  unfold interchangeable. rewrite !andb_true_iff, !negb_true_iff.
  rewrite !bool_decide_eq_true. tauto.
Qed.

(** A step that is removed computes, in the original graph, the column
    its survivor has in the deduplicated one. *)
Lemma executeStep_dropped known kept replaced b b' s r :
  related known kept replaced b b' →
  id s ∉ known → (∀ d, d ∈ dependencies s → d ∈ known) →
  r ∈ kept → interchangeable (redirect replaced s) r = true →
  ∃ c, executeStep operation size b s = inr c ∧
       related (id s :: known) kept (<[id s := id r]> replaced) c b'.
Proof.
  intros Hrel Hfresh Hdeps Hr Hinter.
  apply interchangeable_true in Hinter as (Heff & Hctor & Hdep & Hkey).
  cbn [hasSideEffects constructorId dependencies equalityKey redirect] in *.
  destruct (collect_related known kept replaced b b' (id s) (id r)
              (dependencies s) Hrel Hdeps) as (ins & H1 & H2).
  destruct (related_kept Hrel r Hr) as (ins' & Hc & Hcol).
  rewrite Hdep in H2. assert (ins' = ins) as -> by congruence.
  unfold executeStep. rewrite H1. cbv zeta. rewrite Hctor, Hkey.
  set (results := operation (constructorId r) (equalityKey r) size ins) in *.
  rewrite bool_decide_eq_true_2 by (by eapply (related_length Hrel)).
  eexists. split; [done|].
  assert (id r ∈ known) as Hrknown.
  { apply (related_known' Hrel). by rewrite Hcol. }
  split; cbn [columns invocations].
  - intros i. rewrite elem_of_cons, lookup_insert_is_Some.
    rewrite (related_known Hrel i).
    destruct (decide (id s = i)); intuition congruence.
  - intros i [->|Hi]%elem_of_cons.
    + unfold survivorOf. by rewrite !lookup_insert_eq.
    + assert (id s ≠ i) as Hne by congruence.
      unfold survivorOf. rewrite !lookup_insert_ne by done.
      apply (related_columns Hrel i Hi).
  - intros i Hi. apply list_elem_of_further. by apply (related_known' Hrel).
  - apply (related_length Hrel).
  - apply (related_kept Hrel).
  - intros i Hi. rewrite lookup_insert_ne.
    + apply (related_replaced Hrel). intros Hin. apply Hi.
      by apply list_elem_of_further.
    + intros <-. apply Hi, list_elem_of_here.
  - intros r' Hr'. unfold survivorOf. rewrite lookup_insert_ne.
    + apply (related_self Hrel r' Hr').
    + intros Heq. apply Hfresh. rewrite Heq.
      apply (related_known' Hrel).
      destruct (related_kept Hrel r' Hr') as (? & _ & ->). done.
  - rewrite sideEffects_snoc. cbn [withSideEffects]. rewrite Heff, app_nil_r.
    apply (related_effects Hrel).
Qed.

(** Running the original graph and the deduplicated one side by side. *)
Lemma deduplicate_simulation todo : ∀ known kept replaced b b',
  related known kept replaced b b' →
  wellFormedAfter known todo = true →
  match executeFrom operation size b todo,
        executeFrom operation size b' (deduplicateAfter kept replaced todo).1 with
  | inr c, inr c' =>
      related (reverse (id <$> todo) ++ known)
              (kept ++ (deduplicateAfter kept replaced todo).1)
              (deduplicateAfter kept replaced todo).2 c c'
  | inl e, inl e' => e = e'
  | _, _ => False
  end.
Proof.
  induction todo as [|s todo IH]; intros known kept replaced b b' Hrel Hwf.
  - cbn. by rewrite app_nil_r.
  - apply wellFormedAfter_cons in Hwf as (Hfresh & Hdeps & Hrest).
    rewrite deduplicateAfter_cons, fmap_cons, reverse_cons, <- app_assoc.
    cbn [app executeFrom].
    destruct (find (interchangeable (redirect replaced s)) kept) as [r|] eqn:Hfind.
    + apply find_some in Hfind as [Hr%list_elem_of_In Hinter].
      destruct (executeStep_dropped known kept replaced b b' s r
                  Hrel Hfresh Hdeps Hr Hinter) as (c & -> & Hrel').
      by apply IH.
    + cbn [fst snd executeFrom].
      pose proof (executeStep_kept known kept replaced b b' s Hrel Hfresh Hdeps) as Hstep.
      destruct (executeStep operation size b s) as [e|c],
               (executeStep operation size b' (redirect replaced s)) as [e'|c'];
        try done.
      specialize (IH _ _ _ _ _ Hstep Hrest).
      by rewrite <- (app_assoc kept [redirect replaced s]) in IH.
Qed.

(** C6.  A second deduplication pass returns the graph the first one
    returned.  For a well-formed graph, the deduplicated graph is
    well-formed, executing the one and executing the other fail alike or
    both succeed, and then: every step
    kept has the same column, row for row, in both buckets; the column of
    every step of the original graph is the column its survivor has in
    the deduplicated one; and the side-effecting steps are called in the
    same order with the same inputs. *)
Theorem deduplication_idempotent_and_preserving g :
  deduplicate (deduplicate g) = deduplicate g ∧
  (wellFormed g = true →
   wellFormed (deduplicate g) = true ∧
   match execute operation size g, execute operation size (deduplicate g) with
   | inr b, inr b' =>
       (∀ s, s ∈ deduplicate g → columns b' !! id s = columns b !! id s) ∧
       (∀ s, s ∈ g →
          is_Some (columns b !! id s) ∧
          columns b !! id s = columns b' !! survivorOf (replacements g) (id s)) ∧
       sideEffects b = sideEffects b'
   | inl e, inl e' => e = e'
   | _, _ => False
   end).
Proof.
  split; [apply deduplicate_idempotent|]. intros Hwf.
  split; [by apply deduplicate_wellFormed|].
  assert (related [] [] ∅ {| columns := ∅; invocations := [] |}
                        {| columns := ∅; invocations := [] |}) as Hrel0.
  { split; cbn [columns]; try done.
    - intros i. rewrite lookup_empty. split; [by intros ?%not_elem_of_nil|by intros [? ?]].
    - intros i. rewrite lookup_empty. by intros [? ?].
    - intros r Hr. by apply not_elem_of_nil in Hr. }
  pose proof (deduplicate_simulation g [] [] ∅ _ _ Hrel0 Hwf) as Hsim.
  unfold execute, deduplicate, replacements.
  destruct (executeFrom operation size _ g) as [e|b],
           (executeFrom operation size _ (deduplicateAfter [] ∅ g).1) as [e'|b'];
    try done.
  rewrite app_nil_r in Hsim. cbn [app] in Hsim. split_and!.
  - intros s Hs.
    assert (id s ∈ reverse (id <$> g)) as Hknown.
    { apply (related_known' Hsim).
      destruct (related_kept Hsim s Hs) as (? & _ & ->). done. }
    rewrite (related_columns Hsim _ Hknown).
    by rewrite (related_self Hsim s Hs).
  - intros s Hs.
    assert (id s ∈ reverse (id <$> g)) as Hknown.
    { apply elem_of_reverse. by apply list_elem_of_fmap_2. }
    split; [by apply (related_known Hsim)|].
    apply (related_columns Hsim _ Hknown).
  - apply (related_effects Hsim).
Qed.

End Preservation.

Example execute_duplicated :
  match execute exampleOperation 3 duplicated,
        execute exampleOperation 3 (deduplicate duplicated) with
  | inr b, inr b' =>
      (columns b !! 3, columns b' !! 2, invoked <$> sideEffects b,
       invoked <$> sideEffects b')
  | _, _ => (None, None, [], [])
  end = (Some [2; 2; 2]%Z, Some [2; 2; 2]%Z, [4; 5], [4; 5]).
Proof. vm_compute. reflexivity. Qed.

(** C6 on the graph that declares one chain twice. *)
Lemma deduplication_witness :
  wellFormed duplicated = true ∧
  wellFormed (deduplicate duplicated) = true ∧
  match execute exampleOperation 3 duplicated,
        execute exampleOperation 3 (deduplicate duplicated) with
  | inr b, inr b' =>
      (∀ s, s ∈ deduplicate duplicated → columns b' !! id s = columns b !! id s) ∧
      (∀ s, s ∈ duplicated →
         is_Some (columns b !! id s) ∧
         columns b !! id s
         = columns b' !! survivorOf (replacements duplicated) (id s)) ∧
      sideEffects b = sideEffects b'
  | inl e, inl e' => e = e'
  | _, _ => False
  end.
Proof.
  split; [reflexivity|].
  exact (proj2 (deduplication_idempotent_and_preserving exampleOperation 3 duplicated)
               eq_refl).
Defined.

Example deduplicate_duplicated :
  deduplicate duplicated =
  [step 0 "Constant" [] "1" false;
   step 2 "Double" [0] "" false;
   step 4 "Log" [2] "" true;
   step 5 "Log" [2] "" true].
Proof. vm_compute. reflexivity. Qed.

End EngineProps.
